(** * FunctionTraits (TypeTraits.h): a shallow embedding of the header's
      compile-time computations and the proofs of its specification.

    The header computes on C++ types at translation time.  Types are
    embedded as a first-order datatype [ctype]; every alias template,
    variable template and class template the specification relies on becomes a
    function of the same name; a translation failure ([static_assert], an
    ill-formed instantiation) is the [Halt] case of [result]. *)

From Stdlib Require Import List Bool Arith ZArith String Ascii Lia.
Import ListNotations.

Set Implicit Arguments.

(* ================================================================== *)
(** * Translation results                                              *)
(* ================================================================== *)

(** The only failure channel of the header is a halted translation. *)
Inductive diagnostic : Type :=
| static_assert_failed (msg : string)
| ill_formed (what : string).

Inductive result (A : Type) : Type :=
| Ok (a : A)
| Halt (d : diagnostic).
Arguments Ok {A} a.
Arguments Halt {A} d.

Definition bind {A B : Type} (r : result A) (k : A -> result B) : result B :=
  match r with
  | Ok a => k a
  | Halt d => Halt d
  end.

Notation "x <- r ;; k" := (bind r (fun x => k))
  (at level 61, r at next level, right associativity).

Definition fmap {A B : Type} (f : A -> B) (r : result A) : result B :=
  x <- r ;; Ok (f x).

Definition static_assert (cond : bool) (msg : string) : result unit :=
  if cond then Ok tt else Halt (static_assert_failed msg).

Definition is_ok {A : Type} (r : result A) : bool :=
  match r with Ok _ => true | Halt _ => false end.

(* ================================================================== *)
(** * [tstring_view]: the operations of [std::basic_string_view] used  *)
(* ================================================================== *)

Module tstring_view.

(** [size_type] is [std::size_t]: an unsigned integer of [size_bits] bits,
    kept as a [Z] with the wrap-around written out. *)
Definition size_type : Type := Z.

Definition wrap (size_bits : Z) (z : Z) : size_type := (z mod 2 ^ size_bits)%Z.

Definition npos (size_bits : Z) : size_type := wrap size_bits (-1).

Definition size (s : string) : size_type := Z.of_nat (String.length s).

(** [s.substr(pos, count)]: throws (so halts a constant evaluation) when
    [pos > size()], otherwise the view of [min(count, size() - pos)]
    characters from [pos]. *)
Definition substr (s : string) (pos count : size_type) : result string :=
  if (size s <? pos)%Z
  then Halt (ill_formed "basic_string_view::substr: pos exceeds size")
  else Ok (substring (Z.to_nat pos) (Z.to_nat (Z.min count (size s - pos))) s).

(** [s.ends_with(e)] (C++20). *)
Definition ends_with (s e : string) : bool :=
  (String.length e <=? String.length s) &&
  String.eqb (substring (String.length s - String.length e) (String.length e) s) e.

Definition match_at (s pat : string) (i : nat) : bool :=
  (i + String.length pat <=? String.length s) &&
  String.eqb (substring i (String.length pat) s) pat.

Fixpoint rfind_down (s pat : string) (i : nat) : option nat :=
  if match_at s pat i then Some i
  else match i with
       | O => None
       | S j => rfind_down s pat j
       end.

(** [s.rfind(pat)]: the last position where [pat] occurs, [npos] if none. *)
Definition rfind (size_bits : Z) (s pat : string) : size_type :=
  if String.length pat <=? String.length s then
    match rfind_down s pat (String.length s - String.length pat) with
    | Some i => Z.of_nat i
    | None => npos size_bits
    end
  else npos size_bits.

End tstring_view.

(* ================================================================== *)
(** * [Private::TypeNameImpl] and [TypeName_v]                          *)
(* ================================================================== *)

(** The preprocessor branch the header takes in [GetPrettyFunction] and
    [GetTypeNameOffset]: [_MSC_VER] (Microsoft, and Intel on Windows), [GCC],
    [__clang__ || __INTEL_COMPILER], or none of them. *)
Inductive Toolchain : Type :=
| MSC_VER
| GCC
| CLANG_OR_INTEL
| UNKNOWN_COMPILER.

(** The texts of the diagnostics are the header's, without the quotation
    marks around the names they cite; the longest ones stop at the end of
    the sentence that states the failure. *)
Definition unknown_compiler_msg : string :=
  "Unknown compiler in use. Only Clang, GCC, Intel and Microsoft are currently supported".

Definition breaking_change_msg : string :=
  "A breaking change was detected in template TypeNameImpl::Get(). The format of the predefined string __PRETTY_FUNCTION__ or (for MSFT) __FUNCSIG__ was likely changed by the compiler vendor".

Module TypeNameImpl.
Section WithToolchain.

(** The type universe the probe is specialised on, and its element [float]. *)
Variable T : Type.
Variable float : T.

Variable toolchain : Toolchain.
Variable CPP20_OR_LATER : bool.
Variable size_bits : Z.

(** [__PRETTY_FUNCTION__] or [__FUNCSIG__] inside [GetPrettyFunction<T>]:
    synthesised by the compiler, hence a parameter. *)
Variable pretty_signature : T -> string.

Definition GetPrettyFunction (t : T) : result string :=
  match toolchain with
  | UNKNOWN_COMPILER => Halt (static_assert_failed unknown_compiler_msg)
  | _ => Ok (pretty_signature t)
  end.

(** [PRETTY_FUNCTION_FLOAT_ENDS_WITH(END_STR)]: [ends_with] from C++20 on,
    before that [substr(size() - END_STR.size()) == END_STR]. *)
Definition PRETTY_FUNCTION_FLOAT_ENDS_WITH
    (prettyFunctionFloat END_STR : string) : result bool :=
  if CPP20_OR_LATER
  then Ok (tstring_view.ends_with prettyFunctionFloat END_STR)
  else
    tail <- tstring_view.substr prettyFunctionFloat
              (tstring_view.wrap size_bits
                 (tstring_view.size prettyFunctionFloat - tstring_view.size END_STR))
              (tstring_view.npos size_bits) ;;
    Ok (String.eqb tail END_STR).

Definition GetTypeNameOffset : result tstring_view.size_type :=
  prettyFunctionFloat <- GetPrettyFunction float ;;
  match toolchain with
  | MSC_VER =>
      e <- PRETTY_FUNCTION_FLOAT_ENDS_WITH prettyFunctionFloat "<float>(void) noexcept" ;;
      _ <- static_assert e "PRETTY_FUNCTION_FLOAT_ENDS_WITH" ;;
      Ok (tstring_view.wrap size_bits (tstring_view.size prettyFunctionFloat - 21))
  | GCC =>
      e <- PRETTY_FUNCTION_FLOAT_ENDS_WITH prettyFunctionFloat "= float]" ;;
      if e
      then Ok (tstring_view.wrap size_bits (tstring_view.size prettyFunctionFloat - 6))
      else
        let offsetOfEqualSign :=
          tstring_view.rfind size_bits prettyFunctionFloat "= float;" in
        _ <- static_assert (negb (offsetOfEqualSign =? tstring_view.npos size_bits)%Z)
               "offsetOfEqualSign != tstring_view::npos" ;;
        Ok (tstring_view.wrap size_bits (offsetOfEqualSign + 2))
  | CLANG_OR_INTEL =>
      e <- PRETTY_FUNCTION_FLOAT_ENDS_WITH prettyFunctionFloat "= float]" ;;
      _ <- static_assert e "PRETTY_FUNCTION_FLOAT_ENDS_WITH" ;;
      Ok (tstring_view.wrap size_bits (tstring_view.size prettyFunctionFloat - 6))
  | UNKNOWN_COMPILER => Halt (static_assert_failed unknown_compiler_msg)
  end.

Definition GetTypeNameLen (t : T) : result tstring_view.size_type :=
  prettyFunctionT <- GetPrettyFunction t ;;
  prettyFunctionFloat <- GetPrettyFunction float ;;
  if (tstring_view.size prettyFunctionFloat <? tstring_view.size prettyFunctionT)%Z
  then Ok (tstring_view.wrap size_bits
             (5 + (tstring_view.size prettyFunctionT - tstring_view.size prettyFunctionFloat)))
  else Ok (tstring_view.wrap size_bits
             (5 - (tstring_view.size prettyFunctionFloat - tstring_view.size prettyFunctionT))).

Definition Get (t : T) : result string :=
  prettyFunctionT <- GetPrettyFunction t ;;
  offset <- GetTypeNameOffset ;;
  len <- GetTypeNameLen t ;;
  tstring_view.substr prettyFunctionT offset len.

(** [IsEqualTo] (Visual Studio 2017 work-around): sizes, then characters. *)
Fixpoint IsEqualTo_loop (typeName expectedTypeName : string) : bool :=
  match typeName, expectedTypeName with
  | String a s, String b e => if Ascii.eqb a b then IsEqualTo_loop s e else false
  | _, _ => true
  end.

Definition IsEqualTo (typeName expectedTypeName : string) : bool :=
  if (String.length typeName =? String.length expectedTypeName)
  then IsEqualTo_loop typeName expectedTypeName
  else false.

(** The namespace-scope [static_assert] after the class: the header only
    translates when probing [float] gives back the text [float].
    [MSC_VER_before_2019] selects the [IsEqualTo] variant. *)
Definition sanity_check (MSC_VER_before_2019 : bool) : result unit :=
  name <- Get float ;;
  static_assert
    (if MSC_VER_before_2019 then IsEqualTo name "float" else String.eqb name "float")
    breaking_change_msg.

End WithToolchain.
End TypeNameImpl.

Definition TypeName_v := TypeNameImpl.Get.

(* ================================================================== *)
(** * [ForEach]: the compile-time [for]/[break] over indices            *)
(* ================================================================== *)

(** The type of a call [functor.template operator()<...>()], as far as the
    header tells types apart: by [std::is_same_v<..., bool>]
    ([IsForEachFunctor]), by the contextual conversion of [if (<call>)], by
    the implicit conversion of [return <call>;] in a function declared
    [bool], and by the return type a lambda deduces from [return <call>;]. *)
Inductive call_type : Type :=
| Bool                (* [bool] *)
| BoolReference       (* a reference to [bool] *)
| Converts            (* another type that converts to [bool] implicitly: [int], a pointer *)
| ConvertsExplicitly  (* a class whose only conversion to [bool] is [explicit] *)
| NoConversion.       (* [void], a class that does not convert to [bool] *)

(** [std::is_same_v<T, bool>]. *)
Definition is_same_v_bool (T : call_type) : bool :=
  match T with Bool => true | _ => false end.

(** [if (e)] is well-formed for [e] of type [T]. *)
Definition contextually_convertible (T : call_type) : bool :=
  match T with NoConversion => false | _ => true end.

(** [return e;] is well-formed in a function declared [bool]. *)
Definition implicitly_convertible (T : call_type) : bool :=
  match T with Bool | BoolReference | Converts => true | _ => false end.

(** The return type deduced from [return e;]: a reference is dropped. *)
Definition deduced_return_type (T : call_type) : call_type :=
  match T with BoolReference => Bool | _ => T end.

(** The call operator of a functor at given template arguments: no call
    operator accepts them ([no_match]), or one does, declared with a return
    type ([returns]) or with a return type to be deduced from its definition
    ([returns_auto]).  Instantiating the definition either is ill-formed or
    gives the type returned and code that runs on the state [S] of the
    functor (and of its captures) and returns a value, kept as the [bool] it
    converts to (not looked at where there is no conversion). *)
Inductive operator_call (S : Type) : Type :=
| no_match
| returns (R : call_type) (definition : result (S -> bool * S))
| returns_auto (definition : result (call_type * (S -> bool * S))).
Arguments no_match {S}.

Definition no_match_msg : string := "no matching member function for call to operator()".
Definition no_conversion_msg : string := "no viable conversion to bool".

(** [decltype(<call>)].  The operand is not evaluated: a definition is only
    instantiated where the return type has to be deduced from it, and an
    error in it is then an error of the translation, not a substitution
    failure.  [None] is the substitution failure. *)
Definition decltype {S : Type} (op : operator_call S) : result (option call_type) :=
  match op with
  | no_match => Ok None
  | returns R _ => Ok (Some R)
  | returns_auto definition => fmap (fun d => Some (fst d)) definition
  end.

(** The call in an evaluated expression: the definition is instantiated. *)
Definition instantiate {S : Type} (op : operator_call S)
  : result (call_type * (S -> bool * S)) :=
  match op with
  | no_match => Halt (ill_formed no_match_msg)
  | returns R definition => fmap (pair R) definition
  | returns_auto definition => definition
  end.

Definition converted {S : Type} (convertible : call_type -> bool)
    (c : call_type * (S -> bool * S)) : result (S -> bool * S) :=
  if convertible (fst c) then Ok (snd c) else Halt (ill_formed no_conversion_msg).

(** A functor with a call operator template over one index,
    [template <std::size_t I> ... operator()()]. *)
Record ForEachFunctorT (S : Type) : Type := ForEachFunctor {
  call_operator_of : nat -> operator_call S
}.

(** [if (functor.template operator()<I>())]: the call, instantiated and
    converted to [bool].  A functor applied to an index stands for this
    condition. *)
Definition condition {S : Type} (functor : ForEachFunctorT S) (I : nat)
  : result (S -> bool * S) :=
  c <- instantiate (call_operator_of functor I) ;;
  converted contextually_convertible c.

Coercion condition : ForEachFunctorT >-> Funclass.

(** [IsForEachFunctor_v]: the specialization for which
    [decltype(std::declval<T>().template operator()<std::size_t(0)>())] is
    [bool], the primary template otherwise. *)
Definition IsForEachFunctor_v {S : Type} (functor : ForEachFunctorT S) : result bool :=
  T <- decltype (call_operator_of functor 0) ;;
  Ok (match T with
      | Some R => is_same_v_bool R
      | None => false
      end).

Definition for_each_functor_msg : string := "IsForEachFunctor_v<T>".

(** [FOR_EACH_FUNCTOR_C] (the concept of C++20) and
    [STATIC_ASSERT_IS_FOR_EACH_FUNCTOR] (C++17). *)
Definition FOR_EACH_FUNCTOR_C {S : Type} (functor : ForEachFunctorT S) : result unit :=
  b <- IsForEachFunctor_v functor ;;
  static_assert b for_each_functor_msg.

(** The body shared by the C++20 lambda [process] and by the C++17 class
    [Private::ForEachImpl]: call the functor, then continue or stop. *)
Definition call_then {S : Type} (call next : S -> bool * S) (s : S) : bool * S :=
  let (b, s') := call s in
  if b then next s' else (false, s').

(** [process.template operator()<i>(process)] of the C++20 branch, by
    recursion on the number [N - i] of indices left: [remaining = 0] is the
    [else] of [if constexpr (I < N)]. *)
Fixpoint process_from {S : Type} (functor : ForEachFunctorT S)
    (remaining i : nat) : result (S -> bool * S) :=
  match remaining with
  | O => Ok (fun s => (true, s))
  | Datatypes.S r =>
      call <- condition functor i ;;
      next <- process_from functor r (i + 1) ;;
      Ok (call_then call next)
  end.

Definition process {S : Type} (N : nat) (functor : ForEachFunctorT S) (i : nat)
  : result (S -> bool * S) :=
  process_from functor (N - i) i.

Module Private_ForEachImpl.

(** [Private::ForEachImpl<N, ForEachFunctorT>::Process<I>()] (C++17). *)
Fixpoint Process_from {S : Type} (m_Functor : ForEachFunctorT S)
    (remaining i : nat) : result (S -> bool * S) :=
  match remaining with
  | O => Ok (fun s => (true, s))
  | Datatypes.S r =>
      call <- condition m_Functor i ;;
      next <- Process_from m_Functor r (i + 1) ;;
      Ok (call_then call next)
  end.

Definition Process {S : Type} (N : nat) (m_Functor : ForEachFunctorT S) (i : nat)
  : result (S -> bool * S) :=
  _ <- FOR_EACH_FUNCTOR_C m_Functor ;;
  Process_from m_Functor (N - i) i.

End Private_ForEachImpl.

(** [ForEach<N>(functor)].  The functor is constrained by
    [FOR_EACH_FUNCTOR_C] (a concept in C++20, a [static_assert] in C++17). *)
Definition ForEach {S : Type} (CPP20_OR_LATER : bool) (N : nat)
    (functor : ForEachFunctorT S) : result (S -> bool * S) :=
  _ <- FOR_EACH_FUNCTOR_C functor ;;
  if CPP20_OR_LATER
  then process N functor 0
  else Private_ForEachImpl.Process N functor 0.

(** A functor with a call operator template over an index and a type,
    [template <std::size_t I, typename T> ... operator()()], over a universe
    [Ty] of types with the type [void]. *)
Record ForEachTupleFunctorT (Ty S : Type) : Type := ForEachTupleFunctor {
  tuple_call_operator_of : nat -> Ty -> operator_call S
}.

(** [if (functor.template operator()<I, T>())]; a functor applied to an index
    and a type stands for this condition. *)
Definition tuple_condition {Ty S : Type} (functor : ForEachTupleFunctorT Ty S)
    (I : nat) (T : Ty) : result (S -> bool * S) :=
  c <- instantiate (tuple_call_operator_of functor I T) ;;
  converted contextually_convertible c.

Coercion tuple_condition : ForEachTupleFunctorT >-> Funclass.

(** [IsForEachTupleFunctor_v]: the specialization for which
    [decltype(std::declval<T>().template operator()<std::size_t(0), void>())]
    is [bool], the primary template otherwise. *)
Definition IsForEachTupleFunctor_v {Ty S : Type} (void : Ty)
    (functor : ForEachTupleFunctorT Ty S) : result bool :=
  T <- decltype (tuple_call_operator_of functor 0 void) ;;
  Ok (match T with
      | Some R => is_same_v_bool R
      | None => false
      end).

Definition for_each_tuple_functor_msg : string := "IsForEachTupleFunctor_v<T>".

(** [FOR_EACH_TUPLE_FUNCTOR_C] (the concept of C++20) and
    [STATIC_ASSERT_IS_FOR_EACH_TUPLE_FUNCTOR] (C++17). *)
Definition FOR_EACH_TUPLE_FUNCTOR_C {Ty S : Type} (void : Ty)
    (functor : ForEachTupleFunctorT Ty S) : result unit :=
  b <- IsForEachTupleFunctor_v void functor ;;
  static_assert b for_each_tuple_functor_msg.

(** [std::tuple_element_t<I, std::tuple<Ts...>>]. *)
Definition tuple_element_t {Ty : Type} (i : nat) (TupleT : list Ty) : result Ty :=
  match nth_error TupleT i with
  | Some t => Ok t
  | None => Halt (static_assert_failed "tuple index out of bounds")
  end.

(** The lambda [processTupleType] of the C++20 branch: its return type is
    deduced from [return functor.template operator()<I, TupleElement_t>();]. *)
Definition processTupleType {Ty S : Type} (TupleT : list Ty)
    (functor : ForEachTupleFunctorT Ty S) : ForEachFunctorT S :=
  ForEachFunctor
    (fun I =>
       returns_auto
         (TupleElement_t <- tuple_element_t I TupleT ;;
          c <- instantiate (tuple_call_operator_of functor I TupleElement_t) ;;
          Ok (deduced_return_type (fst c), snd c))).

Module Private_ProcessTupleType.

(** [Private::ProcessTupleType<TupleT, ForEachTupleFunctorT>::operator()<I>()]
    (C++17): declared [bool], with the same [return] statement. *)
Definition call_operator {Ty S : Type} (TupleT : list Ty)
    (m_Functor : ForEachTupleFunctorT Ty S) : ForEachFunctorT S :=
  ForEachFunctor
    (fun I =>
       returns Bool
         (TupleElement_t <- tuple_element_t I TupleT ;;
          c <- instantiate (tuple_call_operator_of m_Functor I TupleElement_t) ;;
          converted implicitly_convertible c)).

(** The class with its [STATIC_ASSERT_IS_FOR_EACH_TUPLE_FUNCTOR]. *)
Definition ProcessTupleType {Ty S : Type} (void : Ty) (TupleT : list Ty)
    (functor : ForEachTupleFunctorT Ty S) : result (ForEachFunctorT S) :=
  _ <- FOR_EACH_TUPLE_FUNCTOR_C void functor ;;
  Ok (call_operator TupleT functor).

End Private_ProcessTupleType.

(** [ForEachTupleType<TupleT>(functor)]; [std::tuple<Ts...>] is the list of
    its element types. *)
Definition ForEachTupleType {Ty S : Type} (void : Ty) (CPP20_OR_LATER : bool)
    (TupleT : list Ty) (functor : ForEachTupleFunctorT Ty S)
  : result (S -> bool * S) :=
  _ <- FOR_EACH_TUPLE_FUNCTOR_C void functor ;;
  if negb (List.length TupleT =? 0)
  then
    if CPP20_OR_LATER
    then ForEach true (List.length TupleT) (processTupleType TupleT functor)
    else
      processTupleType <- Private_ProcessTupleType.ProcessTupleType void TupleT functor ;;
      ForEach false (List.length TupleT) processTupleType
  else Ok (fun s => (true, s)).



(* ================================================================== *)
(** * C++ types                                                        *)
(* ================================================================== *)

(** [enum class CallingConvention]; [Regcall] only exists where
    [STDEXT_CC_REGCALL] is defined, and [Variadic] is an alias of [Cdecl]. *)
Inductive CallingConvention : Type :=
| Cdecl
| Stdcall
| Fastcall
| Vectorcall
| Thiscall
| Regcall.

Definition Variadic : CallingConvention := Cdecl.

(** [static_cast<std::size_t>(callingConvention)]. *)
Definition CallingConvention_index (cc : CallingConvention) : nat :=
  match cc with
  | Cdecl => 0
  | Stdcall => 1
  | Fastcall => 2
  | Vectorcall => 3
  | Thiscall => 4
  | Regcall => 5
  end.

Definition CallingConvention_eqb (a b : CallingConvention) : bool :=
  CallingConvention_index a =? CallingConvention_index b.


(** [enum class RefQualifier]. *)
Module RefQualifier.
Inductive t : Type :=
| None
| LValue
| RValue.
End RefQualifier.


(** Top-level cv-qualification of an object type. *)
Record cv_qualifiers : Type := CV { cv_const : bool; cv_volatile : bool }.

Definition no_cv : cv_qualifiers := CV false false.

(** What a function declarator carries besides the return and parameter
    types: calling convention, trailing ellipsis, the cv- and
    ref-qualifiers of a member function declarator, and [noexcept]. *)
Record fn_spec : Type := FnSpec {
  fn_cc : CallingConvention;
  fn_variadic : bool;
  fn_const : bool;
  fn_volatile : bool;
  fn_ref : RefQualifier.t;
  fn_noexcept : bool
}.

(** The types the header computes on.  A class is known by its name;
    [TMemberPointer q C m] is [m C::*], a pointer to member function when
    [m] is a function type.  [std::tuple<Ts...>] is not a constructor: where
    the header handles a tuple the embedding handles the list [Ts]. *)
#[warnings="-register-all"] Inductive ctype : Type :=
| TVoid (q : cv_qualifiers)
| TFundamental (q : cv_qualifiers) (name : string)
| TClass (q : cv_qualifiers) (name : string)
| TPointer (q : cv_qualifiers) (pointee : ctype)
| TMemberPointer (q : cv_qualifiers) (C : string) (member : ctype)
| TArray (element : ctype) (bound : nat)
| TLValueRef (referred : ctype)
| TRValueRef (referred : ctype)
| TFunction (R : ctype) (Args : list ctype) (spec : fn_spec).

Definition void : ctype := TVoid no_cv.

(** ** The [<type_traits>] templates the header uses *)

Definition is_void_v (t : ctype) : bool :=
  match t with TVoid _ => true | _ => false end.

Definition is_class_v (t : ctype) : bool :=
  match t with TClass _ _ => true | _ => false end.

Definition is_function_v (t : ctype) : bool :=
  match t with TFunction _ _ _ => true | _ => false end.

Definition is_pointer_v (t : ctype) : bool :=
  match t with TPointer _ _ => true | _ => false end.

Definition is_array_v (t : ctype) : bool :=
  match t with TArray _ _ => true | _ => false end.

Definition is_member_function_pointer_v (t : ctype) : bool :=
  match t with
  | TMemberPointer _ _ (TFunction _ _ _) => true
  | _ => false
  end.

Definition is_lvalue_reference_v (t : ctype) : bool :=
  match t with TLValueRef _ => true | _ => false end.

Definition is_rvalue_reference_v (t : ctype) : bool :=
  match t with TRValueRef _ => true | _ => false end.

Definition is_reference_v (t : ctype) : bool :=
  is_lvalue_reference_v t || is_rvalue_reference_v t.

Fixpoint is_const_v (t : ctype) : bool :=
  match t with
  | TVoid q | TFundamental q _ | TClass q _ | TPointer q _ | TMemberPointer q _ _ =>
      cv_const q
  | TArray e _ => is_const_v e
  | _ => false
  end.

Fixpoint is_volatile_v (t : ctype) : bool :=
  match t with
  | TVoid q | TFundamental q _ | TClass q _ | TPointer q _ | TMemberPointer q _ _ =>
      cv_volatile q
  | TArray e _ => is_volatile_v e
  | _ => false
  end.

Definition remove_reference_t (t : ctype) : ctype :=
  match t with
  | TLValueRef r | TRValueRef r => r
  | _ => t
  end.

Definition remove_pointer_t (t : ctype) : ctype :=
  match t with
  | TPointer _ p => p
  | _ => t
  end.

Fixpoint remove_cv_t (t : ctype) : ctype :=
  match t with
  | TVoid _ => TVoid no_cv
  | TFundamental _ n => TFundamental no_cv n
  | TClass _ n => TClass no_cv n
  | TPointer _ p => TPointer no_cv p
  | TMemberPointer _ C m => TMemberPointer no_cv C m
  | TArray e n => TArray (remove_cv_t e) n
  | _ => t
  end.

Fixpoint add_const_t (t : ctype) : ctype :=
  match t with
  | TVoid q => TVoid (CV true (cv_volatile q))
  | TFundamental q n => TFundamental (CV true (cv_volatile q)) n
  | TClass q n => TClass (CV true (cv_volatile q)) n
  | TPointer q p => TPointer (CV true (cv_volatile q)) p
  | TMemberPointer q C m => TMemberPointer (CV true (cv_volatile q)) C m
  | TArray e n => TArray (add_const_t e) n
  | _ => t
  end.

Fixpoint add_volatile_t (t : ctype) : ctype :=
  match t with
  | TVoid q => TVoid (CV (cv_const q) true)
  | TFundamental q n => TFundamental (CV (cv_const q) true) n
  | TClass q n => TClass (CV (cv_const q) true) n
  | TPointer q p => TPointer (CV (cv_const q) true) p
  | TMemberPointer q C m => TMemberPointer (CV (cv_const q) true) C m
  | TArray e n => TArray (add_volatile_t e) n
  | _ => t
  end.

(** A function type with a cv- or ref-qualifier ("abominable"): no pointer
    or reference to it can be formed. *)
Definition is_abominable (t : ctype) : bool :=
  match t with
  | TFunction _ _ s =>
      fn_const s || fn_volatile s ||
      match fn_ref s with RefQualifier.None => false | _ => true end
  | _ => false
  end.

Definition add_pointer_t (t : ctype) : ctype :=
  match t with
  | TLValueRef r | TRValueRef r => TPointer no_cv r
  | _ => if is_abominable t then t else TPointer no_cv t
  end.

Definition add_lvalue_reference_t (t : ctype) : ctype :=
  match t with
  | TLValueRef r | TRValueRef r => TLValueRef r
  | TVoid _ => t
  | _ => if is_abominable t then t else TLValueRef t
  end.

Definition add_rvalue_reference_t (t : ctype) : ctype :=
  match t with
  | TLValueRef _ | TRValueRef _ | TVoid _ => t
  | _ => if is_abominable t then t else TRValueRef t
  end.

Definition conditional_t {A : Type} (b : bool) (x y : A) : A := if b then x else y.

(** ** [RemoveRefAndPtr], [RemoveRefAndPtrAndCv] *)

Definition RemoveRefAndPtr (t : ctype) : ctype :=
  remove_pointer_t (remove_reference_t t).

Definition RemoveRefAndPtrAndCv (t : ctype) : ctype :=
  remove_cv_t (RemoveRefAndPtr t).

(** ** [ReplaceNthType] *)

Definition ReplaceNthType_msg : string :=
  "Template arg N must be less than the number of types in template arg (parameter pack) Ts (i.e., N must target an existing type in Ts to be replaced - new types can't be added using this alias)".

(** [std::tuple<std::conditional_t<Ints == N, NewT, Ts>...>] over
    [std::index_sequence_for<Ts...>]. *)
Fixpoint ReplaceNth (N : nat) (NewT : ctype) (Ints : nat) (Ts : list ctype)
  : list ctype :=
  match Ts with
  | [] => []
  | t :: rest =>
      conditional_t (Ints =? N) NewT t :: ReplaceNth N NewT (Datatypes.S Ints) rest
  end.

Definition ReplaceNthType_t (N : nat) (NewT : ctype) (Ts : list ctype)
  : result (list ctype) :=
  _ <- static_assert (N <? List.length Ts) ReplaceNthType_msg ;;
  Ok (ReplaceNth N NewT 0 Ts).

(* ================================================================== *)
(** * The toolchain's side of function types                            *)
(* ================================================================== *)

(** What the build's compiler does with calling conventions.  A convention
    the target does not support is silently replaced with the default one, so
    that [void CC ()] and [void STDEXT_CC_CDECL ()] are one type; the header
    detects this with [std::is_same_v], the embedding records it here, for
    free functions and for non-static member functions.
    [STDEXT_CC_REGCALL_defined] tells whether the macro exists (Intel). *)
Record Platform : Type := {
  STDEXT_CC_REGCALL_defined : bool;
  free_cc_ignored : CallingConvention -> bool;
  member_cc_ignored : CallingConvention -> bool
}.

(** The class definitions of the translation unit, as far as the header
    looks at them: the [operator()] members a class declares. *)
Inductive call_operator : Type :=
| NonTemplate (R : ctype) (Args : list ctype) (spec : fn_spec)
| Template.

Definition class_env : Type := string -> list call_operator.

(** The calling-convention macros are the conventions they name. *)
Definition STDEXT_CC_CDECL : CallingConvention := Cdecl.
Definition STDEXT_CC_STDCALL : CallingConvention := Stdcall.
Definition STDEXT_CC_FASTCALL : CallingConvention := Fastcall.
Definition STDEXT_CC_VECTORCALL : CallingConvention := Vectorcall.
Definition STDEXT_CC_THISCALL : CallingConvention := Thiscall.
Definition STDEXT_CC_REGCALL : CallingConvention := Regcall.
Definition STDEXT_CC_VARIADIC : CallingConvention := STDEXT_CC_CDECL.

Section Toolchain.

Variable P : Platform.
Variable classes : class_env.

(** The convention the compiler records in a function type declared with
    [CC]. *)
Definition effective_cc (is_member : bool) (CC : CallingConvention)
  : CallingConvention :=
  match CC with
  | Cdecl => Cdecl
  | _ =>
      if (if is_member then member_cc_ignored P CC else free_cc_ignored P CC)
      then Cdecl
      else CC
  end.

(** The type of a parameter declared with type [t]: arrays and functions
    decay to pointers, top-level cv-qualifiers are dropped, [void] is not a
    parameter type. *)
Definition adjust_parameter (t : ctype) : result ctype :=
  match t with
  | TVoid _ => Halt (ill_formed "invalid parameter type void")
  | TArray e _ => Ok (TPointer no_cv e)
  | TFunction _ _ _ =>
      if is_abominable t
      then Halt (ill_formed "pointer to qualified function type")
      else Ok (TPointer no_cv t)
  | _ => Ok (remove_cv_t t)
  end.

Fixpoint adjust_parameters (ts : list ctype) : result (list ctype) :=
  match ts with
  | [] => Ok []
  | t :: rest =>
      t' <- adjust_parameter t ;;
      rest' <- adjust_parameters rest ;;
      Ok (t' :: rest')
  end.

Definition check_return_type (R : ctype) : result ctype :=
  if is_array_v R || is_function_v R
  then Halt (ill_formed "function returning an array or a function")
  else Ok R.

(** The declarator [R CC (Args...) noexcept(IS_NOEXCEPT)], with a trailing
    ellipsis when [ellipsis]. *)
Definition function_type (R : ctype) (CC : CallingConvention) (Args : list ctype)
    (ellipsis IS_NOEXCEPT : bool) : result ctype :=
  R' <- check_return_type R ;;
  Args' <- adjust_parameters Args ;;
  Ok (TFunction R' Args'
        (FnSpec (effective_cc false CC) ellipsis false false RefQualifier.None
                IS_NOEXCEPT)).

(** The pointer-to-member declarator with calling convention [CC], class
    [C], parameters [Args...] and the trailing [CONST VOLATILE REF
    noexcept(IS_NOEXCEPT)]. *)
Definition member_function_pointer_type (R : ctype) (CC : CallingConvention)
    (C : string) (Args : list ctype) (ellipsis CONST VOLATILE : bool)
    (REF : RefQualifier.t) (IS_NOEXCEPT : bool) : result ctype :=
  R' <- check_return_type R ;;
  Args' <- adjust_parameters Args ;;
  Ok (TMemberPointer no_cv C
        (TFunction R' Args'
           (FnSpec (effective_cc true CC) ellipsis CONST VOLATILE REF IS_NOEXCEPT))).

(** [decltype(&T::operator())]: well-formed when [T] is a class that
    declares one call operator which is not a template. *)
Definition address_of_call_operator (T : ctype) : result ctype :=
  match T with
  | TClass _ C =>
      match classes C with
      | [NonTemplate R Args s] =>
          member_function_pointer_type R (fn_cc s) C Args (fn_variadic s)
            (fn_const s) (fn_volatile s) (fn_ref s) (fn_noexcept s)
      | [] => Halt (ill_formed "operator() is not a member")
      | _ => Halt (ill_formed "cannot take the address of an overloaded or template operator()")
      end
  | _ => Halt (ill_formed "must be a class or namespace when followed by ::")
  end.

(* ================================================================== *)
(** * Which types [FunctionTraits] takes                                *)
(* ================================================================== *)

(** [T *], ill-formed for references and for qualified function types. *)
Definition pointer_to (T : ctype) : result ctype :=
  if is_reference_v T || is_abominable T
  then Halt (ill_formed "pointer to reference or to qualified function type")
  else Ok (TPointer no_cv T).

(** [Private::IsFreeFunction_v]:
    [std::is_function_v<std::remove_pointer_t<T *>>], [false] when [T *] is
    ill-formed. *)
Definition IsFreeFunction_v (T : ctype) : bool :=
  match pointer_to T with
  | Ok p => is_function_v (remove_pointer_t p)
  | Halt _ => false
  end.

(** [Private::IsFunctor_v]:
    [decltype(&std::remove_reference_t<T>::operator())] is well-formed. *)
Definition IsFunctor_v (T : ctype) : bool :=
  is_ok (address_of_call_operator (remove_reference_t T)).

Definition IsTraitsFunction_v (T : ctype) : bool :=
  IsFreeFunction_v (RemoveRefAndPtr T) ||
  is_member_function_pointer_v (remove_reference_t T) ||
  IsFunctor_v T.

Definition IsTraitsFunction_msg : string :=
  "isn't a function type suitable for passing to FunctionTraits".

(** [TRAITS_FUNCTION_C F]: the constraint on the helper templates. *)
Definition TRAITS_FUNCTION_C (F : ctype) : result unit :=
  static_assert (IsTraitsFunction_v F) IsTraitsFunction_msg.

(* ================================================================== *)
(** * [CallingConventionReplacedWithCdecl]                              *)
(* ================================================================== *)

(** [IS_REPLACED_WITH_CDECL(CC)]: [std::is_same_v] of the probe type
    declared with [CC] and the one declared with [STDEXT_CC_CDECL]; the two
    differ in the recorded convention at most. *)
Definition IS_REPLACED_WITH_CDECL (is_member : bool) (CC : CallingConvention) : bool :=
  CallingConvention_eqb (effective_cc is_member CC)
                        (effective_cc is_member STDEXT_CC_CDECL).

Definition no_return_msg : string :=
  "control reaches the end of a constexpr function without a return".

Definition CallingConventionReplacedWithCdecl
    (CallingConventionT : CallingConvention) (IsFreeFuncT : bool) : result bool :=
  if IsFreeFuncT then
    match CallingConventionT with
    | Cdecl => Ok false
    | Stdcall => Ok (IS_REPLACED_WITH_CDECL false STDEXT_CC_STDCALL)
    | Fastcall => Ok (IS_REPLACED_WITH_CDECL false STDEXT_CC_FASTCALL)
    | Vectorcall => Ok (IS_REPLACED_WITH_CDECL false STDEXT_CC_VECTORCALL)
    | _ =>
        if STDEXT_CC_REGCALL_defined P
        then Ok (IS_REPLACED_WITH_CDECL false STDEXT_CC_REGCALL)
        else Halt (ill_formed no_return_msg)
    end
  else
    match CallingConventionT with
    | Cdecl => Ok false
    | Stdcall => Ok (IS_REPLACED_WITH_CDECL true STDEXT_CC_STDCALL)
    | Fastcall => Ok (IS_REPLACED_WITH_CDECL true STDEXT_CC_FASTCALL)
    | Vectorcall => Ok (IS_REPLACED_WITH_CDECL true STDEXT_CC_VECTORCALL)
    | Thiscall => Ok (IS_REPLACED_WITH_CDECL true STDEXT_CC_THISCALL)
    | Regcall =>
        if STDEXT_CC_REGCALL_defined P
        then Ok (IS_REPLACED_WITH_CDECL true STDEXT_CC_REGCALL)
        else Halt (ill_formed no_return_msg)
    end.

(* ================================================================== *)
(** * [FunctionTraitsHelper]                                            *)
(* ================================================================== *)

Definition MigrateConst (F1 F2 : ctype) : ctype :=
  conditional_t (is_const_v (remove_reference_t F1)) (add_const_t F2) F2.

Definition MigrateVolatile (F1 F2 : ctype) : ctype :=
  conditional_t (is_volatile_v (remove_reference_t F1)) (add_volatile_t F2) F2.

Definition MigrateCv (F1 F2 : ctype) : ctype :=
  MigrateVolatile F1 (MigrateConst F1 F2).

Definition MigrateRef (F1 F2 : ctype) : ctype :=
  conditional_t (is_lvalue_reference_v F1)
    (add_lvalue_reference_t F2)
    (conditional_t (is_rvalue_reference_v F1) (add_rvalue_reference_t F2) F2).

Definition MigratePointerAndRef (F1 F2 : ctype) : ctype :=
  MigrateRef F1
    (conditional_t (is_pointer_v (remove_reference_t F1))
       (MigrateCv F1 (add_pointer_t F2))
       F2).

Definition MigrateCvAndRef (F1 F2 : ctype) : ctype :=
  MigrateRef F1 (MigrateCv F1 F2).

End Toolchain.

(* ================================================================== *)
(** * [FunctionTraitsBase] and the traits structs                       *)
(* ================================================================== *)

Module FunctionTraitsBase.
(** The members of [FunctionTraitsBase<F, ReturnTypeT, CallingConventionT,
    IsVariadicT, ClassT, IsConstT, IsVolatileT, RefQualifierT, IsNoexceptT,
    ArgsT...>]; [ArgTypes] is the tuple [std::tuple<ArgsT...>]. *)
Record t : Type := Build {
  Type_ : ctype;
  ReturnType : ctype;
  CallingConvention : CallingConvention;
  IsVariadic : bool;
  Class : ctype;
  IsConst : bool;
  IsVolatile : bool;
  RefQualifier : RefQualifier.t;
  IsNoexcept : bool;
  ArgTypes : list ctype
}.

Definition ArgCount (b : t) : nat := List.length (ArgTypes b).

Definition Args_msg : string :=
  "Invalid index I. Must be less than the number of types in (variadic) template arg ArgsT".

(** [Args<I>::Type]. *)
Definition Args (b : t) (i : nat) : result ctype :=
  _ <- static_assert (i <? ArgCount b) Args_msg ;;
  tuple_element_t i (ArgTypes b).

Definition IsMemberFunction (b : t) : bool := negb (is_void_v (Class b)).

Definition IsFreeFunction (b : t) : bool := negb (IsMemberFunction b).

(** The base class' own [IsFunctor]. *)
Definition IsFunctor : bool := false.
End FunctionTraitsBase.

Module Traits.
(** A [FreeFunctionTraits] or [MemberFunctionTraits] specialization, or
    [FunctorTraits]: the base class, the [IsFunctor] that name lookup finds
    in the struct, and the member aliases; an alias template is a function
    of its template arguments. *)
Record t : Type := Build {
  Base : FunctionTraitsBase.t;
  IsFunctor : bool;
  AddVariadicArgs : result ctype;
  RemoveVariadicArgs : result ctype;
  AddConst : result ctype;
  RemoveConst : result ctype;
  AddVolatile : result ctype;
  RemoveVolatile : result ctype;
  AddCV : result ctype;
  RemoveCV : result ctype;
  AddLValueReference : result ctype;
  AddRValueReference : result ctype;
  RemoveReference : result ctype;
  AddNoexcept : result ctype;
  RemoveNoexcept : result ctype;
  ReplaceCallingConvention : CallingConvention -> result ctype;
  ReplaceClass : ctype -> result ctype;
  ReplaceReturnType : ctype -> result ctype;
  ReplaceArgs : list ctype -> result ctype;
  ReplaceArgsTuple : list ctype -> result ctype;
  ReplaceNthArg : nat -> ctype -> result ctype
}.
End Traits.

(** ** Stringized macro arguments *)

(** [#X[i]]: the character at [i] of the string literal made from the macro
    argument [X], the terminating null included. *)
Definition stringized_at (X : string) (i : nat) : ascii :=
  match String.get i X with
  | Some c => c
  | None => zero
  end.

Definition is_null (c : ascii) : bool := Ascii.eqb c zero.

(** What the tokens passed for [ARGS], [CONST], [VOLATILE] and [REF] declare
    when they are pasted into a declarator. *)
Definition declares_ellipsis (ARGS : string) : bool :=
  String.eqb ARGS "(Args..., ...)".

Definition declares_const (CONST : string) : bool := String.eqb CONST "const".

Definition declares_volatile (VOLATILE : string) : bool :=
  String.eqb VOLATILE "volatile".

Definition declares_ref (REF : string) : RefQualifier.t :=
  if String.eqb REF "&" then RefQualifier.LValue
  else if String.eqb REF "&&" then RefQualifier.RValue
  else RefQualifier.None.

Definition RefQualifier_eqb (a b : RefQualifier.t) : bool :=
  match a, b with
  | RefQualifier.None, RefQualifier.None
  | RefQualifier.LValue, RefQualifier.LValue
  | RefQualifier.RValue, RefQualifier.RValue => true
  | _, _ => false
  end.

(** [std::tuple_element_t] over a tuple of types that were all formed. *)
Definition tuple_of (ts : list (result ctype)) : result (list ctype) :=
  fold_right (fun r acc => x <- r ;; l <- acc ;; Ok (x :: l)) (Ok []) ts.

Definition IS_CLASS_C (T : ctype) : result unit :=
  static_assert (is_class_v T) "must be class or struct".

Definition class_name (T : ctype) : result string :=
  match T with
  | TClass _ C => Ok C
  | _ => Halt (ill_formed "pointer to member of a non-class type")
  end.

Definition no_specialization_msg : string :=
  "no partial specialization matches: the primary template has no members".

Definition ambiguous_specialization_msg : string :=
  "ambiguous partial specialization".

(** The partial specialization chosen among [specs] for [T]: the one that
    is enabled and whose pattern [T] matches. *)
Definition select_specialization {Spec : Type} (enabled_and_matches : Spec -> bool)
    (specs : list Spec) : result Spec :=
  match filter enabled_and_matches specs with
  | [s] => Ok s
  | [] => Halt (ill_formed no_specialization_msg)
  | _ => Halt (ill_formed ambiguous_specialization_msg)
  end.

(* ================================================================== *)
(** * [FreeFunctionTraits]                                              *)
(* ================================================================== *)

(** The definition of [REPLACE_CALLING_CONVENTION] in force where a
    specialization is generated: the [std::tuple_element_t] one for the
    non-variadic specializations, the fixed [STDEXT_CC_VARIADIC] one for the
    variadic specializations. *)
Inductive REPLACE_CALLING_CONVENTION_macro : Type :=
| by_tuple_element
| always_variadic.

(** One expansion of [MAKE_FREE_FUNC_TRAITS_2(CC, CALLING_CONVENTION, ARGS,
    IS_NOEXCEPT)]. *)
Record free_spec : Type := FreeSpec {
  free_CC : CallingConvention;
  free_CALLING_CONVENTION : CallingConvention;
  free_ARGS : string;
  free_IS_NOEXCEPT : bool;
  free_REPLACE : REPLACE_CALLING_CONVENTION_macro
}.

Definition MAKE_FREE_FUNC_TRAITS_2 (m : REPLACE_CALLING_CONVENTION_macro)
    (CC CALLING_CONVENTION : CallingConvention) (ARGS : string) (IS_NOEXCEPT : bool)
  : list free_spec :=
  [FreeSpec CC CALLING_CONVENTION ARGS IS_NOEXCEPT m].

Definition MAKE_FREE_FUNC_TRAITS_1 (m : REPLACE_CALLING_CONVENTION_macro)
    (CC CALLING_CONVENTION : CallingConvention) (ARGS : string) : list free_spec :=
  MAKE_FREE_FUNC_TRAITS_2 m CC CALLING_CONVENTION ARGS false ++
  MAKE_FREE_FUNC_TRAITS_2 m CC CALLING_CONVENTION ARGS true.

Definition MAKE_FREE_FUNC_TRAITS_NON_VARIADIC (CC CALLING_CONVENTION : CallingConvention)
  : list free_spec :=
  MAKE_FREE_FUNC_TRAITS_1 by_tuple_element CC CALLING_CONVENTION "(Args...)".

Section Specializations.

Variable P : Platform.
Variable classes : class_env.
Variable CPP20_OR_LATER : bool.

(** A constraint that is a concept from C++20 on and plain [typename]
    before. *)
Definition constrained (c : result unit) : result unit :=
  if CPP20_OR_LATER then c else Ok tt.

(** The partial specializations of [FreeFunctionTraits], in the order the
    header generates them. *)
Definition FreeFunctionTraits_specializations : list free_spec :=
  MAKE_FREE_FUNC_TRAITS_NON_VARIADIC STDEXT_CC_CDECL Cdecl ++
  MAKE_FREE_FUNC_TRAITS_NON_VARIADIC STDEXT_CC_STDCALL Stdcall ++
  MAKE_FREE_FUNC_TRAITS_NON_VARIADIC STDEXT_CC_FASTCALL Fastcall ++
  MAKE_FREE_FUNC_TRAITS_NON_VARIADIC STDEXT_CC_VECTORCALL Vectorcall ++
  (if STDEXT_CC_REGCALL_defined P
   then MAKE_FREE_FUNC_TRAITS_NON_VARIADIC STDEXT_CC_REGCALL Regcall
   else []) ++
  MAKE_FREE_FUNC_TRAITS_1 always_variadic STDEXT_CC_VARIADIC Variadic "(Args..., ...)".

Definition fn_spec_eqb (a b : fn_spec) : bool :=
  CallingConvention_eqb (fn_cc a) (fn_cc b) &&
  Bool.eqb (fn_variadic a) (fn_variadic b) &&
  Bool.eqb (fn_const a) (fn_const b) &&
  Bool.eqb (fn_volatile a) (fn_volatile b) &&
  RefQualifier_eqb (fn_ref a) (fn_ref b) &&
  Bool.eqb (fn_noexcept a) (fn_noexcept b).

(** [AlwaysTrue<F>]. *)
Definition AlwaysTrue : bool := true.

(** The condition of the [std::enable_if_t] of a specialization:
    [!CallingConventionReplacedWithCdecl<CALLING_CONVENTION, IsFreeFuncT>() &&
    AlwaysTrue<F>]; a condition that cannot be evaluated disables it. *)
Definition specialization_enabled (CALLING_CONVENTION : CallingConvention)
    (IsFreeFuncT : bool) : bool :=
  match CallingConventionReplacedWithCdecl P CALLING_CONVENTION IsFreeFuncT with
  | Ok replaced => negb replaced && AlwaysTrue
  | Halt _ => false
  end.

Definition free_spec_enabled (s : free_spec) : bool :=
  specialization_enabled (free_CALLING_CONVENTION s) true.

(** [T] matches the pattern [R CC ARGS noexcept(IS_NOEXCEPT)]. *)
Definition free_spec_matches (s : free_spec) (T : ctype) : bool :=
  match T with
  | TFunction _ _ f =>
      fn_spec_eqb f
        (FnSpec (effective_cc P false (free_CC s)) (declares_ellipsis (free_ARGS s))
                false false RefQualifier.None (free_IS_NOEXCEPT s))
  | _ => false
  end.

(** [FUNCTION_TRAITS_BASE_CLASS(CALLING_CONVENTION, ARGS, IS_NOEXCEPT)]. *)
Definition FUNCTION_TRAITS_BASE_CLASS_free (F R : ctype) (Args : list ctype)
    (CALLING_CONVENTION : CallingConvention) (ARGS : string) (IS_NOEXCEPT : bool)
  : FunctionTraitsBase.t :=
  FunctionTraitsBase.Build F R CALLING_CONVENTION
    (negb (is_null (stringized_at ARGS 9)))
    void false false RefQualifier.None IS_NOEXCEPT Args.

(** [REPLACE_CALLING_CONVENTION(CC, ARGS, IS_NOEXCEPT)] for free functions:
    entry 4 of the tuple, where [Thiscall] indexes, repeats [CC]. *)
Definition REPLACE_CALLING_CONVENTION_free (m : REPLACE_CALLING_CONVENTION_macro)
    (NewCallingConventionT : CallingConvention)
    (R : ctype) (Args : list ctype) (CC : CallingConvention) (ARGS : string)
    (IS_NOEXCEPT : bool) : result ctype :=
  let decl cc := function_type P R cc Args (declares_ellipsis ARGS) IS_NOEXCEPT in
  match m with
  | by_tuple_element =>
      tuple <- tuple_of
                 ([decl STDEXT_CC_CDECL; decl STDEXT_CC_STDCALL; decl STDEXT_CC_FASTCALL;
                   decl STDEXT_CC_VECTORCALL; decl CC] ++
                  (if STDEXT_CC_REGCALL_defined P then [decl STDEXT_CC_REGCALL] else [])) ;;
      tuple_element_t (CallingConvention_index NewCallingConventionT) tuple
  | always_variadic => decl STDEXT_CC_VARIADIC
  end.

(** The members of the struct [MAKE_FREE_FUNC_TRAITS_2] defines, for the
    deduced [F], [R] and [Args...]. *)
Definition FreeFunctionTraits_members (s : free_spec) (F R : ctype) (Args : list ctype)
  : Traits.t :=
  let CC := free_CC s in
  let ARGS := free_ARGS s in
  let IS_NOEXCEPT := free_IS_NOEXCEPT s in
  let BaseClass :=
    FUNCTION_TRAITS_BASE_CLASS_free F R Args (free_CALLING_CONVENTION s) ARGS IS_NOEXCEPT in
  let MigratePointerAndRef_t := fmap (MigratePointerAndRef F) in
  let ReplaceArgs (NewArgsT : list ctype) :=
    variadic <- function_type P R STDEXT_CC_VARIADIC NewArgsT true IS_NOEXCEPT ;;
    plain <- function_type P R CC NewArgsT false IS_NOEXCEPT ;;
    Ok (MigratePointerAndRef F
          (conditional_t (FunctionTraitsBase.IsVariadic BaseClass) variadic plain)) in
  let ReplaceArgsTuple (NewArgsTupleT : list ctype) := ReplaceArgs NewArgsTupleT in
  Traits.Build
    BaseClass
    FunctionTraitsBase.IsFunctor
    (MigratePointerAndRef_t (function_type P R STDEXT_CC_VARIADIC Args true IS_NOEXCEPT))
    (MigratePointerAndRef_t (function_type P R CC Args false IS_NOEXCEPT))
    (Ok F) (Ok F) (Ok F) (Ok F) (Ok F) (Ok F) (Ok F) (Ok F) (Ok F)
    (MigratePointerAndRef_t (function_type P R CC Args (declares_ellipsis ARGS) true))
    (MigratePointerAndRef_t (function_type P R CC Args (declares_ellipsis ARGS) false))
    (fun NewCallingConventionT =>
       MigratePointerAndRef_t
         (REPLACE_CALLING_CONVENTION_free (free_REPLACE s) NewCallingConventionT
            R Args CC ARGS IS_NOEXCEPT))
    (fun NewClassT => _ <- constrained (IS_CLASS_C NewClassT) ;; Ok F)
    (fun NewReturnTypeT =>
       MigratePointerAndRef_t
         (function_type P NewReturnTypeT CC Args (declares_ellipsis ARGS) IS_NOEXCEPT))
    ReplaceArgs
    ReplaceArgsTuple
    (fun N NewArgT =>
       NewArgsTupleT <- ReplaceNthType_t N NewArgT Args ;;
       ReplaceArgsTuple NewArgsTupleT).

(** [FreeFunctionTraits<F, T>], [T] being [F] without reference, pointer
    and cv-qualifiers. *)
Definition FreeFunctionTraits (F T : ctype) : result Traits.t :=
  s <- select_specialization
         (fun s => free_spec_enabled s && free_spec_matches s T)
         FreeFunctionTraits_specializations ;;
  match T with
  | TFunction R Args _ => Ok (FreeFunctionTraits_members s F R Args)
  | _ => Halt (ill_formed no_specialization_msg)
  end.

(* ================================================================== *)
(** * [MemberFunctionTraits]                                            *)
(* ================================================================== *)

(** One expansion of [MAKE_MEMBER_FUNC_TRAITS_5(CC, CALLING_CONVENTION,
    ARGS, CONST, VOLATILE, REF, IS_NOEXCEPT)]. *)
Record member_spec : Type := MemberSpec {
  member_CC : CallingConvention;
  member_CALLING_CONVENTION : CallingConvention;
  member_ARGS : string;
  member_CONST : string;
  member_VOLATILE : string;
  member_REF : string;
  member_IS_NOEXCEPT : bool;
  member_REPLACE : REPLACE_CALLING_CONVENTION_macro
}.

Definition MAKE_MEMBER_FUNC_TRAITS_5 (m : REPLACE_CALLING_CONVENTION_macro)
    (CC CALLING_CONVENTION : CallingConvention) (ARGS CONST VOLATILE REF : string)
    (IS_NOEXCEPT : bool) : list member_spec :=
  [MemberSpec CC CALLING_CONVENTION ARGS CONST VOLATILE REF IS_NOEXCEPT m].

Definition MAKE_MEMBER_FUNC_TRAITS_4 (m : REPLACE_CALLING_CONVENTION_macro)
    (CC CALLING_CONVENTION : CallingConvention) (ARGS REF VOLATILE CONST : string)
  : list member_spec :=
  MAKE_MEMBER_FUNC_TRAITS_5 m CC CALLING_CONVENTION ARGS CONST VOLATILE REF true ++
  MAKE_MEMBER_FUNC_TRAITS_5 m CC CALLING_CONVENTION ARGS CONST VOLATILE REF false.

Definition MAKE_MEMBER_FUNC_TRAITS_3 (m : REPLACE_CALLING_CONVENTION_macro)
    (CC CALLING_CONVENTION : CallingConvention) (ARGS REF VOLATILE : string)
  : list member_spec :=
  MAKE_MEMBER_FUNC_TRAITS_4 m CC CALLING_CONVENTION ARGS REF VOLATILE "const" ++
  MAKE_MEMBER_FUNC_TRAITS_4 m CC CALLING_CONVENTION ARGS REF VOLATILE EmptyString.

Definition MAKE_MEMBER_FUNC_TRAITS_2 (m : REPLACE_CALLING_CONVENTION_macro)
    (CC CALLING_CONVENTION : CallingConvention) (ARGS REF : string)
  : list member_spec :=
  MAKE_MEMBER_FUNC_TRAITS_3 m CC CALLING_CONVENTION ARGS REF EmptyString ++
  MAKE_MEMBER_FUNC_TRAITS_3 m CC CALLING_CONVENTION ARGS REF "volatile".

Definition MAKE_MEMBER_FUNC_TRAITS_1 (m : REPLACE_CALLING_CONVENTION_macro)
    (CC CALLING_CONVENTION : CallingConvention) (ARGS : string) : list member_spec :=
  MAKE_MEMBER_FUNC_TRAITS_2 m CC CALLING_CONVENTION ARGS EmptyString ++
  MAKE_MEMBER_FUNC_TRAITS_2 m CC CALLING_CONVENTION ARGS "&" ++
  MAKE_MEMBER_FUNC_TRAITS_2 m CC CALLING_CONVENTION ARGS "&&".

Definition MAKE_MEMBER_FUNC_TRAITS_NON_VARIADIC (CC CALLING_CONVENTION : CallingConvention)
  : list member_spec :=
  MAKE_MEMBER_FUNC_TRAITS_1 by_tuple_element CC CALLING_CONVENTION "(Args...)".

(** The partial specializations of [MemberFunctionTraits], in the order the
    header generates them. *)
Definition MemberFunctionTraits_specializations : list member_spec :=
  MAKE_MEMBER_FUNC_TRAITS_NON_VARIADIC STDEXT_CC_CDECL Cdecl ++
  MAKE_MEMBER_FUNC_TRAITS_NON_VARIADIC STDEXT_CC_THISCALL Thiscall ++
  MAKE_MEMBER_FUNC_TRAITS_NON_VARIADIC STDEXT_CC_STDCALL Stdcall ++
  MAKE_MEMBER_FUNC_TRAITS_NON_VARIADIC STDEXT_CC_FASTCALL Fastcall ++
  MAKE_MEMBER_FUNC_TRAITS_NON_VARIADIC STDEXT_CC_VECTORCALL Vectorcall ++
  (if STDEXT_CC_REGCALL_defined P
   then MAKE_MEMBER_FUNC_TRAITS_NON_VARIADIC STDEXT_CC_REGCALL Regcall
   else []) ++
  MAKE_MEMBER_FUNC_TRAITS_1 always_variadic STDEXT_CC_VARIADIC Variadic "(Args..., ...)".

Definition member_spec_enabled (s : member_spec) : bool :=
  specialization_enabled (member_CALLING_CONVENTION s) false.

(** [T] matches the pattern of the specialization: a pointer without
    cv-qualifiers to a member function with these declarator parts. *)
Definition member_spec_matches (s : member_spec) (T : ctype) : bool :=
  match T with
  | TMemberPointer q _ (TFunction _ _ f) =>
      negb (cv_const q) && negb (cv_volatile q) &&
      fn_spec_eqb f
        (FnSpec (effective_cc P true (member_CC s))
                (declares_ellipsis (member_ARGS s))
                (declares_const (member_CONST s))
                (declares_volatile (member_VOLATILE s))
                (declares_ref (member_REF s))
                (member_IS_NOEXCEPT s))
  | _ => false
  end.

(** [FUNCTION_TRAITS_BASE_CLASS(CALLING_CONVENTION, ARGS, CONST, VOLATILE,
    REF, IS_NOEXCEPT)]. *)
Definition FUNCTION_TRAITS_BASE_CLASS_member (F R : ctype) (C : string)
    (Args : list ctype) (CALLING_CONVENTION : CallingConvention)
    (ARGS CONST VOLATILE REF : string) (IS_NOEXCEPT : bool) : FunctionTraitsBase.t :=
  FunctionTraitsBase.Build F R CALLING_CONVENTION
    (negb (is_null (stringized_at ARGS 9)))
    (TClass no_cv C)
    (negb (is_null (stringized_at CONST 0)))
    (negb (is_null (stringized_at VOLATILE 0)))
    (if is_null (stringized_at REF 0) then RefQualifier.None
     else if is_null (stringized_at REF 1) then RefQualifier.LValue
          else RefQualifier.RValue)
    IS_NOEXCEPT Args.

Definition REPLACE_CALLING_CONVENTION_member (m : REPLACE_CALLING_CONVENTION_macro)
    (NewCallingConventionT : CallingConvention)
    (R : ctype) (C : string) (Args : list ctype) (ARGS CONST VOLATILE REF : string)
    (IS_NOEXCEPT : bool) : result ctype :=
  let decl cc :=
    member_function_pointer_type P R cc C Args (declares_ellipsis ARGS)
      (declares_const CONST) (declares_volatile VOLATILE) (declares_ref REF)
      IS_NOEXCEPT in
  match m with
  | by_tuple_element =>
      tuple <- tuple_of
                 ([decl STDEXT_CC_CDECL; decl STDEXT_CC_STDCALL; decl STDEXT_CC_FASTCALL;
                   decl STDEXT_CC_VECTORCALL; decl STDEXT_CC_THISCALL] ++
                  (if STDEXT_CC_REGCALL_defined P then [decl STDEXT_CC_REGCALL] else [])) ;;
      tuple_element_t (CallingConvention_index NewCallingConventionT) tuple
  | always_variadic => decl STDEXT_CC_VARIADIC
  end.

(** The members of the struct [MAKE_MEMBER_FUNC_TRAITS_5] defines, for the
    deduced [F], [R], [C] and [Args...]. *)
Definition MemberFunctionTraits_members (s : member_spec) (F R : ctype) (C : string)
    (Args : list ctype) : Traits.t :=
  let CC := member_CC s in
  let ARGS := declares_ellipsis (member_ARGS s) in
  let CONST := declares_const (member_CONST s) in
  let VOLATILE := declares_volatile (member_VOLATILE s) in
  let REF := declares_ref (member_REF s) in
  let IS_NOEXCEPT := member_IS_NOEXCEPT s in
  let BaseClass :=
    FUNCTION_TRAITS_BASE_CLASS_member F R C Args (member_CALLING_CONVENTION s)
      (member_ARGS s) (member_CONST s) (member_VOLATILE s) (member_REF s) IS_NOEXCEPT in
  let MigrateCvAndRef_t := fmap (MigrateCvAndRef F) in
  let decl := member_function_pointer_type P in
  let ReplaceArgs (NewArgsT : list ctype) :=
    variadic <- decl R STDEXT_CC_VARIADIC C NewArgsT true CONST VOLATILE REF IS_NOEXCEPT ;;
    plain <- decl R CC C NewArgsT false CONST VOLATILE REF IS_NOEXCEPT ;;
    Ok (MigrateCvAndRef F
          (conditional_t (FunctionTraitsBase.IsVariadic BaseClass) variadic plain)) in
  let ReplaceArgsTuple (NewArgsTupleT : list ctype) := ReplaceArgs NewArgsTupleT in
  Traits.Build
    BaseClass
    FunctionTraitsBase.IsFunctor
    (MigrateCvAndRef_t (decl R STDEXT_CC_VARIADIC C Args true CONST VOLATILE REF IS_NOEXCEPT))
    (MigrateCvAndRef_t (decl R CC C Args false CONST VOLATILE REF IS_NOEXCEPT))
    (MigrateCvAndRef_t (decl R CC C Args ARGS true VOLATILE REF IS_NOEXCEPT))
    (MigrateCvAndRef_t (decl R CC C Args ARGS false VOLATILE REF IS_NOEXCEPT))
    (MigrateCvAndRef_t (decl R CC C Args ARGS CONST true REF IS_NOEXCEPT))
    (MigrateCvAndRef_t (decl R CC C Args ARGS CONST false REF IS_NOEXCEPT))
    (MigrateCvAndRef_t (decl R CC C Args ARGS true true REF IS_NOEXCEPT))
    (MigrateCvAndRef_t (decl R CC C Args ARGS false false REF IS_NOEXCEPT))
    (MigrateCvAndRef_t (decl R CC C Args ARGS CONST VOLATILE RefQualifier.LValue IS_NOEXCEPT))
    (MigrateCvAndRef_t (decl R CC C Args ARGS CONST VOLATILE RefQualifier.RValue IS_NOEXCEPT))
    (MigrateCvAndRef_t (decl R CC C Args ARGS CONST VOLATILE RefQualifier.None IS_NOEXCEPT))
    (MigrateCvAndRef_t (decl R CC C Args ARGS CONST VOLATILE REF true))
    (MigrateCvAndRef_t (decl R CC C Args ARGS CONST VOLATILE REF false))
    (fun NewCallingConventionT =>
       MigrateCvAndRef_t
         (REPLACE_CALLING_CONVENTION_member (member_REPLACE s) NewCallingConventionT
            R C Args (member_ARGS s) (member_CONST s) (member_VOLATILE s) (member_REF s)
            IS_NOEXCEPT))
    (fun NewClassT =>
       _ <- constrained (IS_CLASS_C NewClassT) ;;
       NewC <- class_name NewClassT ;;
       MigrateCvAndRef_t (decl R CC NewC Args ARGS CONST VOLATILE REF IS_NOEXCEPT))
    (fun NewReturnTypeT =>
       MigrateCvAndRef_t (decl NewReturnTypeT CC C Args ARGS CONST VOLATILE REF IS_NOEXCEPT))
    ReplaceArgs
    ReplaceArgsTuple
    (fun N NewArgT =>
       NewArgsTupleT <- ReplaceNthType_t N NewArgT Args ;;
       ReplaceArgsTuple NewArgsTupleT).

(** [MemberFunctionTraits<F, T>]. *)
Definition MemberFunctionTraits (F T : ctype) : result Traits.t :=
  s <- select_specialization
         (fun s => member_spec_enabled s && member_spec_matches s T)
         MemberFunctionTraits_specializations ;;
  match T with
  | TMemberPointer _ C (TFunction R Args _) =>
      Ok (MemberFunctionTraits_members s F R C Args)
  | _ => Halt (ill_formed no_specialization_msg)
  end.

(* ================================================================== *)
(** * [FunctorTraits] and [FunctionTraits]                              *)
(* ================================================================== *)

Definition set_IsFunctor (b : bool) (tr : Traits.t) : Traits.t :=
  Traits.Build (Traits.Base tr) b
    (Traits.AddVariadicArgs tr) (Traits.RemoveVariadicArgs tr)
    (Traits.AddConst tr) (Traits.RemoveConst tr)
    (Traits.AddVolatile tr) (Traits.RemoveVolatile tr)
    (Traits.AddCV tr) (Traits.RemoveCV tr)
    (Traits.AddLValueReference tr) (Traits.AddRValueReference tr)
    (Traits.RemoveReference tr)
    (Traits.AddNoexcept tr) (Traits.RemoveNoexcept tr)
    (Traits.ReplaceCallingConvention tr) (Traits.ReplaceClass tr)
    (Traits.ReplaceReturnType tr) (Traits.ReplaceArgs tr)
    (Traits.ReplaceArgsTuple tr) (Traits.ReplaceNthArg tr).

(** [FunctorTraits<F>]: [MemberFunctionTraits] on
    [decltype(&F::operator())], twice, and [IsFunctor] redefined. *)
Definition FunctorTraits (F : ctype) : result Traits.t :=
  call_operator_type <- address_of_call_operator P classes F ;;
  base <- MemberFunctionTraits call_operator_type call_operator_type ;;
  _ <- static_assert (negb (is_reference_v F)) "!std::is_reference_v<F>" ;;
  Ok (set_IsFunctor true base).

Definition FunctionTraits_msg : string :=
  "Invalid template arg F. Not a supported function type suitable for passing to FunctionTraits or any of its helper templates. See comments preceding IsTraitsFunction primary template for full details.".

(** [FunctionTraits<F>]: the second template argument defaults to
    [RemoveRefAndPtrAndCv<F>]; three partial specializations guarded by
    [std::enable_if_t], and the primary template that never translates. *)
Definition FunctionTraits (F : ctype) : result Traits.t :=
  let F_RemoveRefAndPtrAndCv := RemoveRefAndPtrAndCv F in
  match IsFreeFunction_v F_RemoveRefAndPtrAndCv,
        is_member_function_pointer_v F_RemoveRefAndPtrAndCv,
        IsFunctor_v P classes F with
  | true, false, false => FreeFunctionTraits F F_RemoveRefAndPtrAndCv
  | false, true, false => MemberFunctionTraits F F_RemoveRefAndPtrAndCv
  | false, false, true => FunctorTraits F_RemoveRefAndPtrAndCv
  | false, false, false => Halt (static_assert_failed FunctionTraits_msg)
  | _, _, _ => Halt (ill_formed ambiguous_specialization_msg)
  end.

(** ** Helper templates: [FunctionTraits<F>] behind [TRAITS_FUNCTION_C] *)

Definition with_traits {A : Type} (F : ctype) (member : Traits.t -> result A) : result A :=
  _ <- constrained (TRAITS_FUNCTION_C P classes F) ;;
  tr <- FunctionTraits F ;;
  member tr.

Definition FunctionType_t (F : ctype) : result ctype :=
  with_traits F (fun tr => Ok (FunctionTraitsBase.Type_ (Traits.Base tr))).

Definition ArgCount_v (F : ctype) : result nat :=
  with_traits F (fun tr => Ok (FunctionTraitsBase.ArgCount (Traits.Base tr))).

Definition ArgType_t (F : ctype) (i : nat) : result ctype :=
  with_traits F (fun tr => FunctionTraitsBase.Args (Traits.Base tr) i).

Definition ReplaceNthArg_t (F : ctype) (N : nat) (NewArgT : ctype) : result ctype :=
  with_traits F (fun tr => Traits.ReplaceNthArg tr N NewArgT).

Definition ReplaceCallingConvention_t (F : ctype) (NewCallingConventionT : CallingConvention)
  : result ctype :=
  with_traits F (fun tr => Traits.ReplaceCallingConvention tr NewCallingConventionT).

(** [IsFunctionTraitsEmptyArgList_v] and [IsEmptyArgList_v]: no parameter
    at all, the ellipsis included. *)
Definition IsFunctionTraitsEmptyArgList_v (FunctionTraitsT : Traits.t) : bool :=
  (FunctionTraitsBase.ArgCount (Traits.Base FunctionTraitsT) =? 0) &&
  negb (FunctionTraitsBase.IsVariadic (Traits.Base FunctionTraitsT)).

Definition IsEmptyArgList_v (F : ctype) : result bool :=
  with_traits F (fun tr => Ok (IsFunctionTraitsEmptyArgList_v tr)).

(** ** [ForEachFunctionTraitsArg] and [ForEachArg] *)



End Specializations.

(* ================================================================== *)
(** * Vocabulary of the statements                                      *)
(* ================================================================== *)

(** The outer reference of a type handed to [FunctionTraits]. *)
Inductive reference_kind : Type :=
| no_reference
| lvalue_reference
| rvalue_reference.

Definition with_reference (k : reference_kind) (t : ctype) : ctype :=
  match k with
  | no_reference => t
  | lvalue_reference => TLValueRef t
  | rvalue_reference => TRValueRef t
  end.

(** How a free function type is wrapped: not at all or in a reference, or
    in a (possibly cv-qualified) pointer that may itself be referred to. *)
Inductive free_wrapping : Type :=
| function_itself (k : reference_kind)
| pointer_to_function (q : cv_qualifiers) (k : reference_kind).

Definition wrap_function (w : free_wrapping) (T : ctype) : ctype :=
  match w with
  | function_itself k => with_reference k T
  | pointer_to_function q k => with_reference k (TPointer q T)
  end.

(** The outer wrapping of a type as the [Migrate...] aliases read it: the
    kind of reference, whether a pointer is below it, and the cv-qualifiers
    of what is below it. *)
Definition wrapping_of (t : ctype) : bool * bool * bool * bool * bool :=
  (is_lvalue_reference_v t, is_rvalue_reference_v t,
   is_pointer_v (remove_reference_t t),
   is_const_v (remove_reference_t t), is_volatile_v (remove_reference_t t)).

(** A function signature as the toolchain [P] records it: a return type a
    function can have, parameter types that are already adjusted, a calling
    convention that [P] keeps (and that exists on [P]), [cdecl] for a
    variadic function; for a free function no [thiscall] and no cv- or
    ref-qualifier. *)
Definition canonical_signature (P : Platform) (is_member : bool)
    (R : ctype) (Args : list ctype) (f : fn_spec) : Prop :=
  check_return_type R = Ok R /\
  adjust_parameters Args = Ok Args /\
  effective_cc P is_member (fn_cc f) = fn_cc f /\
  (fn_variadic f = true -> fn_cc f = Cdecl) /\
  (fn_cc f = Regcall -> STDEXT_CC_REGCALL_defined P = true) /\
  (is_member = false ->
   fn_cc f <> Thiscall /\ is_abominable (TFunction R Args f) = false).

Definition canonical_callable (P : Platform) (T : ctype) : Prop :=
  match T with
  | TFunction R Args f => canonical_signature P false R Args f
  | TMemberPointer _ _ (TFunction R Args f) => canonical_signature P true R Args f
  | _ => True
  end.

(** [F] is a type that exists on the toolchain: the function type at its
    core is canonical, and so is the type of the call operator when [F] is a
    functor. *)
Definition canonical (P : Platform) (classes : class_env) (F : ctype) : Prop :=
  canonical_callable P (RemoveRefAndPtrAndCv F) /\
  forall M,
    address_of_call_operator P classes (RemoveRefAndPtrAndCv F) = Ok M ->
    canonical_callable P M.

(** The macro arguments that declare given declarator parts. *)
Definition ARGS_token (variadic : bool) : string :=
  if variadic then "(Args..., ...)" else "(Args...)".

Definition CONST_token (b : bool) : string := if b then "const" else EmptyString.

Definition VOLATILE_token (b : bool) : string := if b then "volatile" else EmptyString.

Definition REF_token (r : RefQualifier.t) : string :=
  match r with
  | RefQualifier.None => EmptyString
  | RefQualifier.LValue => "&"
  | RefQualifier.RValue => "&&"
  end.

Definition REPLACE_macro_of (variadic : bool) : REPLACE_CALLING_CONVENTION_macro :=
  if variadic then always_variadic else by_tuple_element.

(** The specialization generated for the declarator parts [f]. *)
Definition free_spec_of (f : fn_spec) : free_spec :=
  FreeSpec (fn_cc f) (fn_cc f) (ARGS_token (fn_variadic f)) (fn_noexcept f)
           (REPLACE_macro_of (fn_variadic f)).

Definition member_spec_of (f : fn_spec) : member_spec :=
  MemberSpec (fn_cc f) (fn_cc f) (ARGS_token (fn_variadic f))
             (CONST_token (fn_const f)) (VOLATILE_token (fn_volatile f))
             (REF_token (fn_ref f)) (fn_noexcept f)
             (REPLACE_macro_of (fn_variadic f)).

(** The declarator parts of a member function pointer other than the
    calling convention and the ellipsis agree with the tokens of [s]. *)
Definition member_flags_match (f : fn_spec) (s : member_spec) : bool :=
  Bool.eqb (fn_const f) (declares_const (member_CONST s)) &&
  Bool.eqb (fn_volatile f) (declares_volatile (member_VOLATILE s)) &&
  RefQualifier_eqb (fn_ref f) (declares_ref (member_REF s)) &&
  Bool.eqb (fn_noexcept f) (member_IS_NOEXCEPT s).

(** The callable categories [FunctionTraits] takes, with their wrapping. *)
Inductive category : Type :=
| free_function_category (w : free_wrapping)
| member_function_pointer_category (q : cv_qualifiers) (k : reference_kind)
| functor_category (q : cv_qualifiers) (k : reference_kind).

Definition is_member_category (cat : category) : bool :=
  match cat with
  | free_function_category _ => false
  | _ => true
  end.

(** The type of category [cat] built with return type [R], parameter types
    [Args], declarator parts [f] and, for a member function or a functor, the
    class [C]. *)
Definition construct (cat : category) (R : ctype) (Args : list ctype) (C : string)
    (f : fn_spec) : ctype :=
  match cat with
  | free_function_category w => wrap_function w (TFunction R Args f)
  | member_function_pointer_category q k =>
      with_reference k (TMemberPointer q C (TFunction R Args f))
  | functor_category q k => with_reference k (TClass q C)
  end.

(** The edits that set an attribute to the value the classification [tr]
    already reports all give back the classified type [Type]. *)
Definition idempotent_edits (tr : Traits.t) : Prop :=
  let b := Traits.Base tr in
  let unchanged := Ok (FunctionTraitsBase.Type_ b) in
  (FunctionTraitsBase.IsVariadic b = true -> Traits.AddVariadicArgs tr = unchanged) /\
  (FunctionTraitsBase.IsVariadic b = false -> Traits.RemoveVariadicArgs tr = unchanged) /\
  (FunctionTraitsBase.IsConst b = true -> Traits.AddConst tr = unchanged) /\
  (FunctionTraitsBase.IsConst b = false -> Traits.RemoveConst tr = unchanged) /\
  (FunctionTraitsBase.IsVolatile b = true -> Traits.AddVolatile tr = unchanged) /\
  (FunctionTraitsBase.IsVolatile b = false -> Traits.RemoveVolatile tr = unchanged) /\
  (FunctionTraitsBase.IsConst b = true -> FunctionTraitsBase.IsVolatile b = true ->
   Traits.AddCV tr = unchanged) /\
  (FunctionTraitsBase.IsConst b = false -> FunctionTraitsBase.IsVolatile b = false ->
   Traits.RemoveCV tr = unchanged) /\
  (FunctionTraitsBase.RefQualifier b = RefQualifier.LValue ->
   Traits.AddLValueReference tr = unchanged) /\
  (FunctionTraitsBase.RefQualifier b = RefQualifier.RValue ->
   Traits.AddRValueReference tr = unchanged) /\
  (FunctionTraitsBase.RefQualifier b = RefQualifier.None ->
   Traits.RemoveReference tr = unchanged) /\
  (FunctionTraitsBase.IsNoexcept b = true -> Traits.AddNoexcept tr = unchanged) /\
  (FunctionTraitsBase.IsNoexcept b = false -> Traits.RemoveNoexcept tr = unchanged) /\
  Traits.ReplaceCallingConvention tr (FunctionTraitsBase.CallingConvention b) = unchanged /\
  (FunctionTraitsBase.IsMemberFunction b = true ->
   Traits.ReplaceClass tr (FunctionTraitsBase.Class b) = unchanged) /\
  Traits.ReplaceReturnType tr (FunctionTraitsBase.ReturnType b) = unchanged /\
  Traits.ReplaceArgs tr (FunctionTraitsBase.ArgTypes b) = unchanged /\
  Traits.ReplaceArgsTuple tr (FunctionTraitsBase.ArgTypes b) = unchanged /\
  (forall N T,
      FunctionTraitsBase.Args b N = Ok T -> Traits.ReplaceNthArg tr N T = unchanged).


(** The classification [tr'] differs from [tr] in the type it classifies
    and in parameter [N], which is [NewT], and in nothing else. *)
Definition only_parameter_replaced (N : nat) (NewT : ctype) (tr tr' : Traits.t) : Prop :=
  let b := Traits.Base tr in
  let b' := Traits.Base tr' in
  FunctionTraitsBase.Args b' N = Ok NewT /\
  (forall i, i <> N ->
             nth_error (FunctionTraitsBase.ArgTypes b') i =
             nth_error (FunctionTraitsBase.ArgTypes b) i) /\
  FunctionTraitsBase.ArgCount b' = FunctionTraitsBase.ArgCount b /\
  FunctionTraitsBase.ReturnType b' = FunctionTraitsBase.ReturnType b /\
  FunctionTraitsBase.CallingConvention b' = FunctionTraitsBase.CallingConvention b /\
  FunctionTraitsBase.IsNoexcept b' = FunctionTraitsBase.IsNoexcept b /\
  FunctionTraitsBase.IsVariadic b' = FunctionTraitsBase.IsVariadic b /\
  FunctionTraitsBase.Class b' = FunctionTraitsBase.Class b /\
  FunctionTraitsBase.IsConst b' = FunctionTraitsBase.IsConst b /\
  FunctionTraitsBase.IsVolatile b' = FunctionTraitsBase.IsVolatile b /\
  FunctionTraitsBase.RefQualifier b' = FunctionTraitsBase.RefQualifier b /\
  wrapping_of (FunctionTraitsBase.Type_ b') = wrapping_of (FunctionTraitsBase.Type_ b).




(** The formats of [__PRETTY_FUNCTION__] and [__FUNCSIG__] that
    [GetTypeNameOffset] calibrates on: what precedes the name of [T] ends
    with [<] (Microsoft) or with [= ] (GCC, Clang, Intel), and what follows
    it is [>(void) noexcept] or [[]]. *)
Definition signature_format (toolchain : Toolchain) (prefix suffix : string) : Prop :=
  match toolchain with
  | MSC_VER =>
      (exists p, prefix = (p ++ "<")%string) /\ suffix = ">(void) noexcept"%string
  | GCC | CLANG_OR_INTEL =>
      (exists p, prefix = (p ++ "= ")%string) /\ suffix = "]"%string
  | UNKNOWN_COMPILER => False
  end.

(** The declarator parts a classification reports. *)
Definition declarator_of (b : FunctionTraitsBase.t) : fn_spec :=
  FnSpec (FunctionTraitsBase.CallingConvention b) (FunctionTraitsBase.IsVariadic b)
         (FunctionTraitsBase.IsConst b) (FunctionTraitsBase.IsVolatile b)
         (FunctionTraitsBase.RefQualifier b) (FunctionTraitsBase.IsNoexcept b).

Definition with_cc (c : CallingConvention) (f : fn_spec) : fn_spec :=
  FnSpec c (fn_variadic f) (fn_const f) (fn_volatile f) (fn_ref f) (fn_noexcept f).

Definition with_variadic (va : bool) (f : fn_spec) : fn_spec :=
  FnSpec (fn_cc f) va (fn_const f) (fn_volatile f) (fn_ref f) (fn_noexcept f).

Definition with_const (k : bool) (f : fn_spec) : fn_spec :=
  FnSpec (fn_cc f) (fn_variadic f) k (fn_volatile f) (fn_ref f) (fn_noexcept f).

Definition with_volatile (vo : bool) (f : fn_spec) : fn_spec :=
  FnSpec (fn_cc f) (fn_variadic f) (fn_const f) vo (fn_ref f) (fn_noexcept f).

Definition with_ref (r : RefQualifier.t) (f : fn_spec) : fn_spec :=
  FnSpec (fn_cc f) (fn_variadic f) (fn_const f) (fn_volatile f) r (fn_noexcept f).

Definition with_noexcept (n : bool) (f : fn_spec) : fn_spec :=
  FnSpec (fn_cc f) (fn_variadic f) (fn_const f) (fn_volatile f) (fn_ref f) n.

(** [F'] is a type [FunctionTraits] classifies, as a callable with return
    type [R], class [C] ([void] for a free function), declarator parts [f]
    and parameter types [Args], behind the same reference, pointer and
    pointer-level cv-qualifiers as [F]. *)
Definition classified_as (P : Platform) (classes : class_env) (CPP20_OR_LATER : bool)
    (F' : ctype) (R C : ctype) (f : fn_spec) (Args : list ctype) (F : ctype) : Prop :=
  exists tr',
    FunctionTraits P classes CPP20_OR_LATER F' = Ok tr' /\
    Traits.Base tr' =
      FunctionTraitsBase.Build F' R (fn_cc f) (fn_variadic f) C (fn_const f)
        (fn_volatile f) (fn_ref f) (fn_noexcept f) Args /\
    wrapping_of F' = wrapping_of F.

(* ================================================================== *)
(** * A concrete toolchain and translation unit                         *)
(* ================================================================== *)

Module Example.

(** A 32-bit x86 target: every calling convention is kept as declared. *)
Definition x86 : Platform := Build_Platform false (fun _ => false) (fun _ => false).

(** A 64-bit target: every convention but [vectorcall] is replaced with the
    default one. *)
Definition x64 : Platform :=
  Build_Platform false
    (fun cc => match cc with Vectorcall => false | _ => true end)
    (fun cc => match cc with Vectorcall => false | _ => true end).

Definition int : ctype := TFundamental no_cv "int".
Definition double : ctype := TFundamental no_cv "double".
Definition float : ctype := TFundamental no_cv "float".
Definition const_float : ctype := TFundamental (CV true false) "float".
Definition const_string_ref : ctype := TLValueRef (TClass (CV true false) "std::string").

(** [Functor] declares [int operator()(float, const std::string &) const],
    [Overloaded] two call operators, [GenericLambda] a call operator
    template. *)
Definition classes : class_env :=
  fun C =>
    if String.eqb C "Functor"
    then [NonTemplate int [float; const_string_ref]
            (FnSpec Cdecl false true false RefQualifier.None false)]
    else if String.eqb C "Overloaded"
    then [NonTemplate int [float] (FnSpec Cdecl false false false RefQualifier.None false);
          NonTemplate int [double] (FnSpec Cdecl false false false RefQualifier.None false)]
    else if String.eqb C "GenericLambda"
    then [Template]
    else [].

Definition plain : fn_spec := FnSpec Cdecl false false false RefQualifier.None false.

(** [int (const std::string &, double, int)]. *)
Definition free_function : ctype := TFunction int [const_string_ref; double; int] plain.

(** A pointer to a member function [void (int) const noexcept] of [K], with
    the [thiscall] convention of the target. *)
Definition const_noexcept : fn_spec :=
  FnSpec Thiscall false true false RefQualifier.None true.

Definition member_function : ctype :=
  TMemberPointer no_cv "K" (TFunction void [int] const_noexcept).

(** The type of [&Functor::operator()]. *)
Definition call_operator_of_Functor : ctype :=
  TMemberPointer no_cv "Functor"
    (TFunction int [float; const_string_ref]
       (FnSpec Cdecl false true false RefQualifier.None false)).

(** [__PRETTY_FUNCTION__] of Clang inside [GetPrettyFunction<T>], for the
    probe types [float] ([true]) and [int] ([false]). *)
Definition clang_signature (is_float : bool) : string :=
  String.append "static auto StdExt::Private::TypeNameImpl::GetPrettyFunction() [T = "
    (String.append (if is_float then "float" else "int") "]").

(** The same function type behind a pointer, and behind a reference to a
    const pointer. *)
Definition pointer_to_free_function : ctype := TPointer no_cv free_function.

Definition reference_to_const_pointer : ctype :=
  TLValueRef (TPointer (CV true false) free_function).

(** A reference to a const object of class [Functor]. *)
Definition reference_to_const_Functor : ctype :=
  TLValueRef (TClass (CV true false) "Functor").

(** A predicate for [ForEach] that accepts the indices below 2 and counts
    its calls, and one for [ForEachTupleType] over a tuple of [bool] tags
    that accepts the elements tagged [true]. *)
Definition below_two (i : nat) (s : nat) : bool * nat := (Nat.ltb i 2, Datatypes.S s).

Definition functor : ForEachFunctorT nat :=
  ForEachFunctor (fun i => returns Bool (Ok (below_two i))).



(** The name of the probe types, and the signature strings of Microsoft
    and of GCC (second format) for them. *)
Definition probe_name (is_float : bool) : string := if is_float then "float" else "int".

Definition msvc_signature (is_float : bool) : string :=
  String.append "auto __cdecl StdExt::Private::TypeNameImpl::GetPrettyFunction<"
    (String.append (probe_name is_float) ">(void) noexcept").

Definition gcc_signature (is_float : bool) : string :=
  String.append
    "static constexpr tstring_view StdExt::Private::TypeNameImpl::GetPrettyFunction() [with T = "
    (String.append (probe_name is_float)
       "; tstring_view = std::basic_string_view<char>]").

(** A signature string in a format the header does not know. *)
Definition unknown_signature (is_float : bool) : string :=
  String.append "GetPrettyFunction {T: " (String.append (probe_name is_float) "}").

(** A pointer to the pointer to member [member_function]. *)
Definition pointer_to_member_function : ctype := TPointer no_cv member_function.



(** A functor with [template <std::size_t I, typename T>
    std::conditional_t<std::is_void_v<T>, bool, int> operator()()], and one
    whose call operator template returns [bool] at index 0 and, at every
    other index, an object of a class with an [explicit operator bool]. *)
Definition int_unless_void : ForEachTupleFunctorT ctype unit :=
  ForEachTupleFunctor
    (fun I T =>
       returns (match T with TVoid _ => Bool | _ => Converts end)
               (Ok (fun s => (true, s)))).

Definition explicit_after_first : ForEachTupleFunctorT ctype unit :=
  ForEachTupleFunctor
    (fun I T =>
       returns (match I with O => Bool | _ => ConvertsExplicitly end)
               (Ok (fun s => (true, s)))).

End Example.

Unset Implicit Arguments.

(* ================================================================== *)
(** * Reference semantics used in the statements                        *)
(* ================================================================== *)



(** Canonicity of a closed type is decided by evaluation. *)
Ltac canonical_at_input :=
  unfold canonical, canonical_callable, canonical_signature;
  repeat first [split | intro];
  solve [reflexivity | discriminate | congruence].

(** The base class of a classification that is known up to evaluation. *)
Ltac evaluate_base HF Hb :=
  let b := fresh "b" in
  let Eb := fresh "Eb" in
  pose proof (f_equal (fmap Traits.Base) HF) as Hb;
  cbn [fmap bind] in Hb;
  match type of Hb with
  | _ = Ok ?base => remember base as b eqn:Eb
  end;
  vm_compute in Hb; injection Hb as Hb; symmetry in Hb; subst b.

(* ================================================================== *)
(** * Proofs: [ForEach]                                                 *)
(* ================================================================== *)

Section ForEachProofs.

Context {S : Type}.

Lemma process_unfold (N : nat) (functor : ForEachFunctorT S) (i : nat) :
  process N functor i =
  if i <? N
  then call <- functor i ;;
       next <- process N functor (i + 1) ;;
       Ok (call_then call next)
  else Ok (fun s => (true, s)).
Proof.
  unfold process.
  destruct (i <? N) eqn:E.
  - apply Nat.ltb_lt in E.
    replace (N - i) with (Datatypes.S (N - (i + 1))) by lia.
    reflexivity.
  - apply Nat.ltb_ge in E.
    replace (N - i) with 0 by lia.
    reflexivity.
Qed.

Lemma Process_from_process_from (functor : ForEachFunctorT S) (r i : nat) :
  Private_ForEachImpl.Process_from functor r i = process_from functor r i.
Proof.
  revert i. induction r as [|r IH]; intros i; simpl.
  - reflexivity.
  - rewrite IH. reflexivity.
Qed.

Lemma ForEach_language_version (N : nat) (functor : ForEachFunctorT S) :
  ForEach false N functor = ForEach true N functor.
Proof.
  unfold ForEach, Private_ForEachImpl.Process, process.
  destruct (FOR_EACH_FUNCTOR_C functor) as [[]|d]; simpl; [|reflexivity].
  apply Process_from_process_from.
Qed.

(** The constraint holds exactly when the trait evaluates to [true]. *)
Lemma FOR_EACH_FUNCTOR_C_ok (functor : ForEachFunctorT S) :
  is_ok (FOR_EACH_FUNCTOR_C functor) = true <-> IsForEachFunctor_v functor = Ok true.
Proof.
  unfold FOR_EACH_FUNCTOR_C.
  destruct (IsForEachFunctor_v functor) as [[]|d]; cbn; split;
    intros H; (reflexivity || discriminate H).
Qed.


(** [process] only looks at the conditions of the indices it runs over. *)
Lemma process_from_ext (f g : ForEachFunctorT S) :
  forall r i,
    (forall j, i <= j < i + r -> f j = g j) ->
    process_from f r i = process_from g r i.
Proof.
  induction r as [|r IH]; intros i H; simpl.
  - reflexivity.
  - rewrite (H i) by lia. rewrite (IH (i + 1)); [reflexivity|].
    intros j Hj. apply H. lia.
Qed.

End ForEachProofs.

Lemma FOR_EACH_TUPLE_FUNCTOR_C_ok {Ty S : Type} (void : Ty)
    (functor : ForEachTupleFunctorT Ty S) :
  is_ok (FOR_EACH_TUPLE_FUNCTOR_C void functor) = true <->
  IsForEachTupleFunctor_v void functor = Ok true.
Proof.
  unfold FOR_EACH_TUPLE_FUNCTOR_C.
  destruct (IsForEachTupleFunctor_v void functor) as [[]|d]; cbn; split;
    intros H; (reflexivity || discriminate H).
Qed.

Lemma FOR_EACH_TUPLE_FUNCTOR_C_pass {Ty S : Type} (void : Ty)
    (functor : ForEachTupleFunctorT Ty S) :
  IsForEachTupleFunctor_v void functor = Ok true ->
  FOR_EACH_TUPLE_FUNCTOR_C void functor = Ok tt.
Proof. unfold FOR_EACH_TUPLE_FUNCTOR_C. intros ->. reflexivity. Qed.

(** The conditions of the two renderings of [processTupleType]. *)
Lemma condition_processTupleType {Ty S : Type} (TupleT : list Ty)
    (functor : ForEachTupleFunctorT Ty S) (I : nat) :
  condition (processTupleType TupleT functor) I =
  (TupleElement_t <- tuple_element_t I TupleT ;;
   c <- instantiate (tuple_call_operator_of functor I TupleElement_t) ;;
   converted contextually_convertible (deduced_return_type (fst c), snd c)).
Proof.
  unfold condition, processTupleType. cbn [call_operator_of instantiate].
  destruct (tuple_element_t I TupleT) as [T|d]; cbn [bind]; [|reflexivity].
  destruct (instantiate (tuple_call_operator_of functor I T)) as [c|d]; reflexivity.
Qed.

Lemma condition_ProcessTupleType {Ty S : Type} (TupleT : list Ty)
    (functor : ForEachTupleFunctorT Ty S) (I : nat) :
  condition (Private_ProcessTupleType.call_operator TupleT functor) I =
  (TupleElement_t <- tuple_element_t I TupleT ;;
   c <- instantiate (tuple_call_operator_of functor I TupleElement_t) ;;
   converted implicitly_convertible c).
Proof.
  unfold condition, Private_ProcessTupleType.call_operator.
  cbn [call_operator_of instantiate]. unfold fmap.
  destruct (tuple_element_t I TupleT) as [T|d]; cbn [bind]; [|reflexivity].
  destruct (instantiate (tuple_call_operator_of functor I T)) as [c|d];
    cbn [bind]; [|reflexivity].
  unfold converted. destruct (implicitly_convertible (fst c)); reflexivity.
Qed.












(* ================================================================== *)
(** * Proofs: the type-name extractor                                   *)
(* ================================================================== *)

Lemma substring_empty : forall a b, substring a b EmptyString = EmptyString.
Proof. intros [|a] [|b]; reflexivity. Qed.

Lemma substring_substring :
  forall s i n a b,
    a + b <= n -> substring a b (substring i n s) = substring (i + a) b s.
Proof.
  induction s as [|c s IH]; intros i n a b H.
  - rewrite !substring_empty. reflexivity.
  - destruct i as [|i].
    + destruct n as [|n].
      * assert (a = 0) by lia. assert (b = 0) by lia. subst. reflexivity.
      * simpl plus. destruct a as [|a].
        -- destruct b as [|b]; [reflexivity|].
           simpl. f_equal. apply (IH 0 n 0 b). lia.
        -- simpl. apply (IH 0 n a b). lia.
    + simpl. apply IH. exact H.
Qed.

Lemma length_substring :
  forall s n m, n + m <= String.length s -> String.length (substring n m s) = m.
Proof.
  induction s as [|c s IH]; intros n m H; simpl in H.
  - assert (n = 0) by lia. assert (m = 0) by lia. subst. reflexivity.
  - destruct n as [|n]; simpl.
    + destruct m as [|m]; simpl; [reflexivity|]. rewrite (IH 0 m) by lia. reflexivity.
    + apply IH. lia.
Qed.

Lemma IsEqualTo_loop_eqb :
  forall a b, String.length a = String.length b ->
              TypeNameImpl.IsEqualTo_loop a b = String.eqb a b.
Proof.
  induction a as [|c a IH]; intros [|d b] H; simpl in *; try discriminate.
  - reflexivity.
  - destruct (Ascii.eqb c d); [apply IH; lia | reflexivity].
Qed.

Lemma eqb_length : forall a b, String.eqb a b = true -> String.length a = String.length b.
Proof. intros a b H. apply String.eqb_eq in H. subst. reflexivity. Qed.

Lemma IsEqualTo_eqb : forall a b, TypeNameImpl.IsEqualTo a b = String.eqb a b.
Proof.
  intros a b. unfold TypeNameImpl.IsEqualTo.
  destruct (String.length a =? String.length b) eqn:E.
  - apply Nat.eqb_eq in E. apply IsEqualTo_loop_eqb. exact E.
  - destruct (String.eqb a b) eqn:E2; [|reflexivity].
    apply eqb_length in E2. apply Nat.eqb_neq in E. contradiction.
Qed.

Lemma wrap_small : forall w z, (0 <= z < 2 ^ w)%Z -> tstring_view.wrap w z = z.
Proof. intros. unfold tstring_view.wrap. apply Z.mod_small. assumption. Qed.

Lemma pow2_16 : forall w, (16 <= w)%Z -> (65536 <= 2 ^ w)%Z.
Proof.
  intros w H. change 65536%Z with (2 ^ 16)%Z.
  apply Z.pow_le_mono_r; lia.
Qed.

Lemma npos_value : forall w, (16 <= w)%Z -> tstring_view.npos w = (2 ^ w - 1)%Z.
Proof.
  intros w H. unfold tstring_view.npos, tstring_view.wrap.
  pose proof (pow2_16 w H).
  replace (-1)%Z with (-1 * 2 ^ w + (2 ^ w - 1))%Z by lia.
  rewrite Z.add_comm, Z.mod_add by lia. apply Z.mod_small. lia.
Qed.

Section TypeNameProofs.
Variable T : Type.
Variable float : T.
Variable toolchain : Toolchain.
Variable CPP20_OR_LATER : bool.
Variable size_bits : Z.
Variable pretty : T -> string.
Hypothesis Hbits : (16 <= size_bits)%Z.
Hypothesis Hfits : forall t, (tstring_view.size (pretty t) < 2 ^ size_bits)%Z.

Lemma ENDS_WITH_true (s e : string) :
  (tstring_view.size s < 2 ^ size_bits)%Z ->
  (Z.of_nat (String.length e) < 65536)%Z ->
  TypeNameImpl.PRETTY_FUNCTION_FLOAT_ENDS_WITH CPP20_OR_LATER size_bits s e = Ok true ->
  String.length e <= String.length s /\
  substring (String.length s - String.length e) (String.length e) s = e.
Proof.
  intros Hs He. unfold TypeNameImpl.PRETTY_FUNCTION_FLOAT_ENDS_WITH.
  pose proof (pow2_16 size_bits Hbits) as Hp.
  unfold tstring_view.size in *.
  destruct CPP20_OR_LATER.
  - unfold tstring_view.ends_with. intros H. injection H as H.
    apply andb_true_iff in H. destruct H as [H1 H2].
    apply Nat.leb_le in H1. apply String.eqb_eq in H2. auto.
  - unfold tstring_view.substr, tstring_view.size.
    destruct (le_lt_dec (String.length e) (String.length s)) as [Hle|Hgt].
    + rewrite wrap_small by lia.
      replace (Z.of_nat (String.length s) <?
               Z.of_nat (String.length s) - Z.of_nat (String.length e))%Z with false
        by (symmetry; apply Z.ltb_ge; lia).
      simpl. rewrite npos_value by assumption.
      replace (Z.to_nat (Z.of_nat (String.length s) - Z.of_nat (String.length e)))
        with (String.length s - String.length e) by lia.
      replace (Z.to_nat
                 (Z.min (2 ^ size_bits - 1)
                    (Z.of_nat (String.length s) -
                     (Z.of_nat (String.length s) - Z.of_nat (String.length e)))))
        with (String.length e) by lia.
      intros H. injection H as H. apply String.eqb_eq in H. auto.
    + unfold tstring_view.wrap.
      replace (Z.of_nat (String.length s) - Z.of_nat (String.length e))%Z
        with (-1 * 2 ^ size_bits +
              (2 ^ size_bits + Z.of_nat (String.length s) - Z.of_nat (String.length e)))%Z
        by lia.
      rewrite Z.add_comm, Z.mod_add by lia.
      rewrite Z.mod_small by lia.
      replace (Z.of_nat (String.length s) <?
               2 ^ size_bits + Z.of_nat (String.length s) - Z.of_nat (String.length e))%Z
        with true by (symmetry; apply Z.ltb_lt; lia).
      simpl. discriminate.
Qed.

Lemma rfind_down_found (s pat : string) :
  forall i j, tstring_view.rfind_down s pat i = Some j ->
              j + String.length pat <= String.length s /\
              substring j (String.length pat) s = pat.
Proof.
  induction i as [|i IH]; intros j; simpl.
  - destruct (tstring_view.match_at s pat 0) eqn:E; [|discriminate].
    intros H. injection H as <-.
    unfold tstring_view.match_at in E. apply andb_true_iff in E.
    destruct E as [E1 E2]. apply Nat.leb_le in E1. apply String.eqb_eq in E2. auto.
  - destruct (tstring_view.match_at s pat (Datatypes.S i)) eqn:E.
    + intros H. injection H as <-.
      unfold tstring_view.match_at in E. apply andb_true_iff in E.
      destruct E as [E1 E2]. apply Nat.leb_le in E1. apply String.eqb_eq in E2. auto.
    + apply IH.
Qed.

Lemma rfind_found (s pat : string) (p : Z) :
  (tstring_view.size s < 2 ^ size_bits)%Z ->
  tstring_view.rfind size_bits s pat = p ->
  p <> tstring_view.npos size_bits ->
  exists j, p = Z.of_nat j /\ j + String.length pat <= String.length s /\
            substring j (String.length pat) s = pat.
Proof.
  intros Hs H Hn. unfold tstring_view.rfind in H.
  destruct (String.length pat <=? String.length s); [|congruence].
  destruct (tstring_view.rfind_down s pat (String.length s - String.length pat))
    as [j|] eqn:E; [|congruence].
  exists j. split; [congruence|]. eapply rfind_down_found. exact E.
Qed.

Lemma GetTypeNameOffset_calibrated (off : Z) :
  TypeNameImpl.GetTypeNameOffset float toolchain CPP20_OR_LATER size_bits pretty = Ok off ->
  exists o, off = Z.of_nat o /\ o + 5 <= String.length (pretty float) /\
            substring o 5 (pretty float) = "float"%string /\
            toolchain <> UNKNOWN_COMPILER.
Proof.
  pose proof (Hfits float) as Hf.
  pose proof (pow2_16 size_bits Hbits) as Hp.
  unfold TypeNameImpl.GetTypeNameOffset, TypeNameImpl.GetPrettyFunction.
  unfold tstring_view.size in *.
  destruct toolchain; simpl; try discriminate.
  - destruct (TypeNameImpl.PRETTY_FUNCTION_FLOAT_ENDS_WITH CPP20_OR_LATER size_bits
                (pretty float) "<float>(void) noexcept") as [[|]|d] eqn:E;
      simpl; try discriminate.
    apply ENDS_WITH_true in E; [|exact Hf|simpl; lia].
    destruct E as [E1 E2]. simpl String.length in E1, E2.
    intros H. injection H as <-.
    exists (String.length (pretty float) - 21).
    rewrite wrap_small by lia.
    repeat split; try lia; try discriminate.
    replace (String.length (pretty float) - 21)
      with (String.length (pretty float) - 22 + 1) by lia.
    rewrite <- (substring_substring (pretty float) _ 22 1 5) by lia.
    rewrite E2. reflexivity.
  - destruct (TypeNameImpl.PRETTY_FUNCTION_FLOAT_ENDS_WITH CPP20_OR_LATER size_bits
                (pretty float) "= float]") as [[|]|d] eqn:E;
      simpl; try discriminate.
    + apply ENDS_WITH_true in E; [|exact Hf|simpl; lia].
      destruct E as [E1 E2]. simpl String.length in E1, E2.
      intros H. injection H as <-.
      exists (String.length (pretty float) - 6).
      rewrite wrap_small by lia.
      repeat split; try lia; try discriminate.
      replace (String.length (pretty float) - 6)
        with (String.length (pretty float) - 8 + 2) by lia.
      rewrite <- (substring_substring (pretty float) _ 8 2 5) by lia.
      rewrite E2. reflexivity.
    + destruct (tstring_view.rfind size_bits (pretty float) "= float;" =?
                tstring_view.npos size_bits)%Z eqn:En; simpl; [discriminate|].
      apply Z.eqb_neq in En.
      destruct (rfind_found (pretty float) "= float;" _ Hf eq_refl En)
        as [j [Hj [Hlen Hsub]]].
      simpl String.length in Hlen, Hsub.
      rewrite Hj. intros H. injection H as <-.
      exists (j + 2).
      rewrite wrap_small by lia.
      repeat split; try lia; try discriminate.
      rewrite <- (substring_substring (pretty float) j 8 2 5) by lia.
      rewrite Hsub. reflexivity.
  - destruct (TypeNameImpl.PRETTY_FUNCTION_FLOAT_ENDS_WITH CPP20_OR_LATER size_bits
                (pretty float) "= float]") as [[|]|d] eqn:E;
      simpl; try discriminate.
    apply ENDS_WITH_true in E; [|exact Hf|simpl; lia].
    destruct E as [E1 E2]. simpl String.length in E1, E2.
    intros H. injection H as <-.
    exists (String.length (pretty float) - 6).
    rewrite wrap_small by lia.
    repeat split; try lia; try discriminate.
    replace (String.length (pretty float) - 6)
      with (String.length (pretty float) - 8 + 2) by lia.
    rewrite <- (substring_substring (pretty float) _ 8 2 5) by lia.
    rewrite E2. reflexivity.
Qed.

Lemma GetTypeNameLen_value (t : T) :
  toolchain <> UNKNOWN_COMPILER ->
  (5 <= tstring_view.size (pretty float))%Z ->
  (tstring_view.size (pretty float) <= tstring_view.size (pretty t) + 5)%Z ->
  TypeNameImpl.GetTypeNameLen float toolchain size_bits pretty t =
  Ok (5 + (tstring_view.size (pretty t) - tstring_view.size (pretty float)))%Z.
Proof.
  intros Htc H5 Hle.
  pose proof (Hfits t) as Ht. pose proof (Hfits float) as Hf.
  unfold TypeNameImpl.GetTypeNameLen, TypeNameImpl.GetPrettyFunction.
  unfold tstring_view.size in *.
  destruct toolchain; try congruence; unfold bind;
    destruct (Z.of_nat (String.length (pretty float)) <?
              Z.of_nat (String.length (pretty t)))%Z;
    f_equal; rewrite wrap_small by lia; lia.
Qed.

(** C9.  Type-name extraction by calibration.  On a toolchain whose
    [size_t] has at least 16 bits and for pretty-signature strings that fit
    in it: whenever the offset calibrated on the [float] probe is obtained,
    (1) for every type [t] whose signature is not more than five characters
    shorter than the one of [float], [Get] is the [substr] of the signature
    of [t] at the calibrated offset with count five plus the difference of
    the lengths of the signatures of [t] and of [float], and the name it
    returns has exactly that length; (2) probing [float] gives exactly the
    text [float], so that the self-check passes.  And (3), in every case, the
    self-check passes only when the probe of [float] is the text [float]:
    otherwise the translation halts, with the breaking-change diagnostic
    when another text is extracted. *)
Theorem TypeName_extraction (t : T) :
  (forall off,
      TypeNameImpl.GetTypeNameOffset float toolchain CPP20_OR_LATER size_bits pretty
        = Ok off ->
      ((tstring_view.size (pretty float) <= tstring_view.size (pretty t) + 5)%Z ->
       TypeNameImpl.Get float toolchain CPP20_OR_LATER size_bits pretty t =
       tstring_view.substr (pretty t) off
         (5 + (tstring_view.size (pretty t) - tstring_view.size (pretty float)))%Z /\
       exists name,
         TypeNameImpl.Get float toolchain CPP20_OR_LATER size_bits pretty t = Ok name /\
         tstring_view.size name =
         (5 + (tstring_view.size (pretty t) - tstring_view.size (pretty float)))%Z) /\
      TypeNameImpl.Get float toolchain CPP20_OR_LATER size_bits pretty float
        = Ok "float"%string /\
      (forall vs2017,
          TypeNameImpl.sanity_check float toolchain CPP20_OR_LATER size_bits pretty vs2017
          = Ok tt)) /\
  (forall vs2017,
      TypeNameImpl.sanity_check float toolchain CPP20_OR_LATER size_bits pretty vs2017 =
      match TypeNameImpl.Get float toolchain CPP20_OR_LATER size_bits pretty float with
      | Ok name =>
          if String.eqb name "float"
          then Ok tt
          else Halt (static_assert_failed breaking_change_msg)
      | Halt d => Halt d
      end).
Proof.
  assert (Hsanity :
    forall vs2017,
      TypeNameImpl.sanity_check float toolchain CPP20_OR_LATER size_bits pretty vs2017 =
      match TypeNameImpl.Get float toolchain CPP20_OR_LATER size_bits pretty float with
      | Ok name =>
          if String.eqb name "float"
          then Ok tt
          else Halt (static_assert_failed breaking_change_msg)
      | Halt d => Halt d
      end).
  { intros vs2017. unfold TypeNameImpl.sanity_check.
    destruct (TypeNameImpl.Get float toolchain CPP20_OR_LATER size_bits pretty float)
      as [name|d]; simpl; [|reflexivity].
    unfold static_assert. destruct vs2017; [rewrite IsEqualTo_eqb|]; reflexivity. }
  split; [|exact Hsanity].
  intros off Hoff.
  destruct (GetTypeNameOffset_calibrated off Hoff) as [o [-> [Ho [Hsub Htc]]]].
  assert (H5 : (5 <= tstring_view.size (pretty float))%Z)
    by (unfold tstring_view.size; lia).
  assert (Hget : forall u,
    (tstring_view.size (pretty float) <= tstring_view.size (pretty u) + 5)%Z ->
    TypeNameImpl.Get float toolchain CPP20_OR_LATER size_bits pretty u =
    tstring_view.substr (pretty u) (Z.of_nat o)
      (5 + (tstring_view.size (pretty u) - tstring_view.size (pretty float)))%Z).
  { intros u Hu. unfold TypeNameImpl.Get.
    rewrite Hoff, (GetTypeNameLen_value u Htc H5 Hu).
    unfold TypeNameImpl.GetPrettyFunction.
    destruct toolchain; try congruence; reflexivity. }
  assert (Hsubstr : forall u,
    (tstring_view.size (pretty float) <= tstring_view.size (pretty u) + 5)%Z ->
    tstring_view.substr (pretty u) (Z.of_nat o)
      (5 + (tstring_view.size (pretty u) - tstring_view.size (pretty float)))%Z =
    Ok (substring o (5 + String.length (pretty u) - String.length (pretty float))
          (pretty u))).
  { intros u Hu. unfold tstring_view.substr, tstring_view.size in *.
    replace (Z.of_nat (String.length (pretty u)) <? Z.of_nat o)%Z with false
      by (symmetry; apply Z.ltb_ge; lia).
    rewrite Nat2Z.id. do 2 f_equal. lia. }
  assert (Hfloat :
    TypeNameImpl.Get float toolchain CPP20_OR_LATER size_bits pretty float
    = Ok "float"%string).
  { rewrite Hget, Hsubstr by lia.
    replace (5 + String.length (pretty float) - String.length (pretty float)) with 5
      by lia.
    rewrite Hsub. reflexivity. }
  split; [|split; [exact Hfloat|]].
  - intros Ht. split; [exact (Hget t Ht)|].
    eexists. split; [rewrite Hget, Hsubstr by exact Ht; reflexivity|].
    unfold tstring_view.size in *.
    rewrite length_substring by lia. lia.
  - intros vs2017. rewrite Hsanity, Hfloat. reflexivity.
Qed.

End TypeNameProofs.

(* ================================================================== *)
(** * Proofs: classification and transformation                         *)
(* ================================================================== *)

Lemma filter_guarded {A : Type} (guard : bool) (g : A -> bool) (l : list A) :
  filter (fun s => guard && g s) l = if guard then filter g l else [].
Proof.
  destruct guard; simpl.
  - reflexivity.
  - induction l as [|a l IH]; simpl; [reflexivity | exact IH].
Qed.

Section ClassificationProofs.
Variable P : Platform.
Variable classes : class_env.
Variable CPP20_OR_LATER : bool.

Lemma CallingConvention_eqb_eq (a b : CallingConvention) :
  CallingConvention_eqb a b = true <-> a = b.
Proof. destruct a, b; simpl; split; intros H; try reflexivity; discriminate. Qed.

Lemma CallingConvention_eqb_refl (a : CallingConvention) : CallingConvention_eqb a a = true.
Proof. destruct a; reflexivity. Qed.



Lemma MAKE_MEMBER_FUNC_TRAITS_1_fixed (m : REPLACE_CALLING_CONVENTION_macro)
    (CC cc : CallingConvention) (ARGS : string) :
  Forall (fun s => member_CC s = CC /\ member_CALLING_CONVENTION s = cc /\
                   member_ARGS s = ARGS)
         (MAKE_MEMBER_FUNC_TRAITS_1 m CC cc ARGS).
Proof. repeat constructor. Qed.

Lemma filter_MAKE_MEMBER_FUNC_TRAITS_1 (m : REPLACE_CALLING_CONVENTION_macro)
    (CC cc : CallingConvention) (variadic : bool) (C : string)
    (R : ctype) (Args : list ctype) (f : fn_spec) :
  filter (fun s => member_spec_enabled P s &&
                   member_spec_matches P s (TMemberPointer no_cv C (TFunction R Args f)))
         (MAKE_MEMBER_FUNC_TRAITS_1 m CC cc (ARGS_token variadic)) =
  if specialization_enabled P cc false &&
     CallingConvention_eqb (fn_cc f) (effective_cc P true CC) &&
     Bool.eqb (fn_variadic f) variadic
  then [MemberSpec CC cc (ARGS_token variadic) (CONST_token (fn_const f))
          (VOLATILE_token (fn_volatile f)) (REF_token (fn_ref f)) (fn_noexcept f) m]
  else [].
Proof.
  transitivity
    (filter (fun s => (specialization_enabled P cc false &&
                       CallingConvention_eqb (fn_cc f) (effective_cc P true CC) &&
                       Bool.eqb (fn_variadic f) variadic) && member_flags_match f s)
            (MAKE_MEMBER_FUNC_TRAITS_1 m CC cc (ARGS_token variadic))).
  - apply filter_ext_in.
    intros s Hs.
    pose proof (MAKE_MEMBER_FUNC_TRAITS_1_fixed m CC cc (ARGS_token variadic)) as Hfix.
    rewrite Forall_forall in Hfix. destruct (Hfix s Hs) as [H1 [H2 H3]].
    unfold member_spec_enabled, member_spec_matches, fn_spec_eqb, member_flags_match.
    rewrite H1, H2, H3.
    replace (declares_ellipsis (ARGS_token variadic)) with variadic
      by (destruct variadic; reflexivity).
    cbn [fn_cc fn_variadic fn_const fn_volatile fn_ref fn_noexcept cv_const cv_volatile
         no_cv negb].
    destruct (specialization_enabled P cc false);
      destruct (CallingConvention_eqb (fn_cc f) (effective_cc P true CC));
      destruct (Bool.eqb (fn_variadic f) variadic); reflexivity.
  - rewrite filter_guarded.
    destruct (specialization_enabled P cc false &&
              CallingConvention_eqb (fn_cc f) (effective_cc P true CC) &&
              Bool.eqb (fn_variadic f) variadic); [|reflexivity].
    destruct f as [c va k vo r n]. destruct variadic, k, vo, r, n; reflexivity.
Qed.

Lemma filter_if {A : Type} (p : A -> bool) (b : bool) (l : list A) :
  filter p (if b then l else []) = if b then filter p l else [].
Proof. destruct b; reflexivity. Qed.

Lemma effective_cc_kept (is_member : bool) (c : CallingConvention) :
  effective_cc P is_member c = c ->
  c = Cdecl \/
  (if is_member then member_cc_ignored P c else free_cc_ignored P c) = false.
Proof.
  unfold effective_cc. destruct c; auto; right;
    destruct is_member;
    match goal with
    | |- ?x = false => destruct x; [discriminate H | reflexivity]
    end.
Qed.

Lemma member_guard (R : ctype) (Args : list ctype) (f : fn_spec) (CC : CallingConvention) :
  canonical_signature P true R Args f ->
  (CC = Regcall -> STDEXT_CC_REGCALL_defined P = true) ->
  specialization_enabled P CC false && CallingConvention_eqb (fn_cc f) (effective_cc P true CC) =
  CallingConvention_eqb (fn_cc f) CC.
Proof.
  intros [_ [_ [Hcc _]]] Hreg.
  apply effective_cc_kept in Hcc.
  unfold specialization_enabled, AlwaysTrue, CallingConventionReplacedWithCdecl, IS_REPLACED_WITH_CDECL,
    STDEXT_CC_STDCALL, STDEXT_CC_FASTCALL, STDEXT_CC_VECTORCALL, STDEXT_CC_THISCALL,
    STDEXT_CC_REGCALL, STDEXT_CC_CDECL.
  destruct CC; cbn [effective_cc];
    try rewrite (Hreg eq_refl);
    try reflexivity;
    match goal with
    | |- context [member_cc_ignored P ?c] =>
        destruct (member_cc_ignored P c) eqn:E; cbn;
        [ destruct Hcc as [Hcc|Hcc]; [rewrite Hcc; reflexivity|];
          destruct (fn_cc f); try reflexivity; congruence
        | reflexivity ]
    end.
Qed.

Lemma MemberFunctionTraits_canonical (F R : ctype) (C : string) (Args : list ctype)
    (f : fn_spec) :
  canonical_signature P true R Args f ->
  MemberFunctionTraits P CPP20_OR_LATER F (TMemberPointer no_cv C (TFunction R Args f)) =
  Ok (MemberFunctionTraits_members P CPP20_OR_LATER (member_spec_of f) F R C Args).
Proof.
  intros Hcan.
  unfold MemberFunctionTraits.
  assert (Hsel :
    select_specialization
      (fun s => member_spec_enabled P s &&
                member_spec_matches P s (TMemberPointer no_cv C (TFunction R Args f)))
      (MemberFunctionTraits_specializations P) = Ok (member_spec_of f)).
  { unfold select_specialization, MemberFunctionTraits_specializations,
      MAKE_MEMBER_FUNC_TRAITS_NON_VARIADIC.
    change "(Args...)"%string with (ARGS_token false).
    change "(Args..., ...)"%string with (ARGS_token true).
    rewrite !filter_app, filter_if, !filter_MAKE_MEMBER_FUNC_TRAITS_1.
    unfold STDEXT_CC_VARIADIC, Variadic, STDEXT_CC_CDECL, STDEXT_CC_STDCALL,
      STDEXT_CC_FASTCALL, STDEXT_CC_VECTORCALL, STDEXT_CC_THISCALL, STDEXT_CC_REGCALL.
    destruct (STDEXT_CC_REGCALL_defined P) eqn:Ereg;
      rewrite !(member_guard R Args f)
        by (assumption || discriminate || (intros _; assumption));
      destruct Hcan as [_ [_ [_ [Hva [Hreg _]]]]];
      unfold member_spec_of;
      destruct f as [c va k vo r n];
      cbn [fn_cc fn_variadic fn_const fn_volatile fn_ref fn_noexcept] in *;
      (destruct va; [rewrite (Hva eq_refl)|destruct c]; try reflexivity).
    pose proof (Hreg eq_refl). congruence. }
  rewrite Hsel. reflexivity.
Qed.


Lemma not_abominable (R : ctype) (Args : list ctype) (f : fn_spec) :
  is_abominable (TFunction R Args f) = false ->
  fn_const f = false /\ fn_volatile f = false /\ fn_ref f = RefQualifier.None.
Proof.
  unfold is_abominable. destruct (fn_const f), (fn_volatile f), (fn_ref f);
    simpl; intros H; try discriminate; auto.
Qed.

Lemma filter_MAKE_FREE_FUNC_TRAITS_1 (m : REPLACE_CALLING_CONVENTION_macro)
    (CC cc : CallingConvention) (variadic : bool)
    (R : ctype) (Args : list ctype) (f : fn_spec) :
  is_abominable (TFunction R Args f) = false ->
  filter (fun s => free_spec_enabled P s && free_spec_matches P s (TFunction R Args f))
         (MAKE_FREE_FUNC_TRAITS_1 m CC cc (ARGS_token variadic)) =
  if specialization_enabled P cc true &&
     CallingConvention_eqb (fn_cc f) (effective_cc P false CC) &&
     Bool.eqb (fn_variadic f) variadic
  then [FreeSpec CC cc (ARGS_token variadic) (fn_noexcept f) m]
  else [].
Proof.
  intros Hab. apply not_abominable in Hab. destruct Hab as [Hc [Hv Hr]].
  unfold MAKE_FREE_FUNC_TRAITS_1, MAKE_FREE_FUNC_TRAITS_2.
  unfold free_spec_enabled, free_spec_matches, fn_spec_eqb.
  cbn [filter app free_CC free_CALLING_CONVENTION free_ARGS free_IS_NOEXCEPT
       fn_cc fn_variadic fn_const fn_volatile fn_ref fn_noexcept].
  rewrite Hc, Hv, Hr.
  replace (declares_ellipsis (ARGS_token variadic)) with variadic
    by (destruct variadic; reflexivity).
  destruct (specialization_enabled P cc true);
    destruct (CallingConvention_eqb (fn_cc f) (effective_cc P false CC));
    destruct (Bool.eqb (fn_variadic f) variadic);
    destruct (fn_noexcept f); reflexivity.
Qed.

Lemma free_guard (R : ctype) (Args : list ctype) (f : fn_spec) (CC : CallingConvention) :
  canonical_signature P false R Args f ->
  (CC = Regcall -> STDEXT_CC_REGCALL_defined P = true) ->
  CC <> Thiscall ->
  specialization_enabled P CC true && CallingConvention_eqb (fn_cc f) (effective_cc P false CC) =
  CallingConvention_eqb (fn_cc f) CC.
Proof.
  intros [_ [_ [Hcc _]]] Hreg Hthis.
  apply effective_cc_kept in Hcc.
  unfold specialization_enabled, AlwaysTrue, CallingConventionReplacedWithCdecl, IS_REPLACED_WITH_CDECL,
    STDEXT_CC_STDCALL, STDEXT_CC_FASTCALL, STDEXT_CC_VECTORCALL, STDEXT_CC_THISCALL,
    STDEXT_CC_REGCALL, STDEXT_CC_CDECL.
  destruct CC; cbn [effective_cc];
    try congruence;
    try rewrite (Hreg eq_refl);
    try reflexivity;
    match goal with
    | |- context [free_cc_ignored P ?c] =>
        destruct (free_cc_ignored P c) eqn:E; cbn;
        [ destruct Hcc as [Hcc|Hcc]; [rewrite Hcc; reflexivity|];
          destruct (fn_cc f); try reflexivity; congruence
        | reflexivity ]
    end.
Qed.

Lemma FreeFunctionTraits_canonical (F R : ctype) (Args : list ctype) (f : fn_spec) :
  canonical_signature P false R Args f ->
  FreeFunctionTraits P CPP20_OR_LATER F (TFunction R Args f) =
  Ok (FreeFunctionTraits_members P CPP20_OR_LATER (free_spec_of f) F R Args).
Proof.
  intros Hcan.
  unfold FreeFunctionTraits.
  assert (Hsel :
    select_specialization
      (fun s => free_spec_enabled P s && free_spec_matches P s (TFunction R Args f))
      (FreeFunctionTraits_specializations P) = Ok (free_spec_of f)).
  { pose proof Hcan as [_ [_ [_ [Hva [Hreg Hfree]]]]].
    destruct (Hfree eq_refl) as [Hthis Hab].
    unfold select_specialization, FreeFunctionTraits_specializations,
      MAKE_FREE_FUNC_TRAITS_NON_VARIADIC.
    change "(Args...)"%string with (ARGS_token false).
    change "(Args..., ...)"%string with (ARGS_token true).
    rewrite !filter_app, filter_if, !filter_MAKE_FREE_FUNC_TRAITS_1 by exact Hab.
    unfold STDEXT_CC_VARIADIC, Variadic, STDEXT_CC_CDECL, STDEXT_CC_STDCALL,
      STDEXT_CC_FASTCALL, STDEXT_CC_VECTORCALL, STDEXT_CC_THISCALL, STDEXT_CC_REGCALL.
    destruct (STDEXT_CC_REGCALL_defined P) eqn:Ereg;
      rewrite !(free_guard R Args f)
        by (assumption || discriminate || (intros _; assumption));
      unfold free_spec_of;
      destruct f as [c va k vo r n];
      cbn [fn_cc fn_variadic fn_const fn_volatile fn_ref fn_noexcept] in *;
      (destruct va; [rewrite (Hva eq_refl)|destruct c]; try reflexivity);
      try congruence.
    pose proof (Hreg eq_refl). congruence. }
  rewrite Hsel. reflexivity.
Qed.

(** ** Declarators on canonical parts *)

Lemma function_type_canonical (R : ctype) (CC : CallingConvention) (Args : list ctype)
    (e ne : bool) :
  check_return_type R = Ok R ->
  adjust_parameters Args = Ok Args ->
  function_type P R CC Args e ne =
  Ok (TFunction R Args (FnSpec (effective_cc P false CC) e false false RefQualifier.None ne)).
Proof. intros HR HA. unfold function_type. rewrite HR, HA. reflexivity. Qed.

Lemma member_function_pointer_type_canonical (R : ctype) (CC : CallingConvention)
    (C : string) (Args : list ctype) (e c v : bool) (r : RefQualifier.t) (ne : bool) :
  check_return_type R = Ok R ->
  adjust_parameters Args = Ok Args ->
  member_function_pointer_type P R CC C Args e c v r ne =
  Ok (TMemberPointer no_cv C (TFunction R Args (FnSpec (effective_cc P true CC) e c v r ne))).
Proof. intros HR HA. unfold member_function_pointer_type. rewrite HR, HA. reflexivity. Qed.

Lemma effective_cc_Cdecl (is_member : bool) : effective_cc P is_member Cdecl = Cdecl.
Proof. reflexivity. Qed.

Lemma effective_cc_idempotent (is_member : bool) (c : CallingConvention) :
  effective_cc P is_member (effective_cc P is_member c) = effective_cc P is_member c.
Proof.
  unfold effective_cc. destruct c; try reflexivity; destruct is_member;
    match goal with
    | |- context [if ?x then _ else _] => destruct x eqn:E; try reflexivity; rewrite E; reflexivity
    end.
Qed.

Lemma declares_tokens (f : fn_spec) :
  declares_ellipsis (ARGS_token (fn_variadic f)) = fn_variadic f /\
  declares_const (CONST_token (fn_const f)) = fn_const f /\
  declares_volatile (VOLATILE_token (fn_volatile f)) = fn_volatile f /\
  declares_ref (REF_token (fn_ref f)) = fn_ref f.
Proof. destruct f as [c va k vo r n]; destruct va, k, vo, r; repeat split. Qed.

(** ** The wrapping is migrated *)

Lemma MigratePointerAndRef_wrap (w : free_wrapping) (T T' : ctype) :
  is_function_v T = true -> is_function_v T' = true -> is_abominable T' = false ->
  MigratePointerAndRef (wrap_function w T) T' = wrap_function w T'.
Proof.
  intros HT HT' Hab.
  destruct T; try discriminate. destruct T'; try discriminate.
  unfold MigratePointerAndRef, MigrateRef, MigrateCv, MigrateConst, MigrateVolatile,
    add_lvalue_reference_t, add_rvalue_reference_t, add_pointer_t.
  destruct w as [k|[c v] k]; destruct k; cbn -[is_abominable]; rewrite ?Hab;
    try reflexivity; destruct c, v; cbn -[is_abominable]; rewrite ?Hab; reflexivity.
Qed.

Lemma MigrateCvAndRef_member (k : reference_kind) (q : cv_qualifiers) (C C' : string)
    (M M' : ctype) :
  MigrateCvAndRef (with_reference k (TMemberPointer q C M)) (TMemberPointer no_cv C' M') =
  with_reference k (TMemberPointer q C' M').
Proof. destruct q as [c v]. destruct k, c, v; reflexivity. Qed.

(** ** Which specialization of [FunctionTraits] a shape selects *)

Lemma IsFreeFunction_v_inv (T : ctype) :
  IsFreeFunction_v T = true ->
  exists R Args f, T = TFunction R Args f /\ is_abominable T = false.
Proof.
  unfold IsFreeFunction_v, pointer_to.
  destruct (is_reference_v T || is_abominable T) eqn:E; [discriminate|].
  apply orb_false_iff in E. destruct E as [_ Hab].
  simpl. destruct T; try discriminate. eauto.
Qed.

Lemma IsFreeFunction_v_function (R : ctype) (Args : list ctype) (f : fn_spec) :
  is_abominable (TFunction R Args f) = false ->
  IsFreeFunction_v (TFunction R Args f) = true.
Proof. intros H. unfold IsFreeFunction_v, pointer_to. simpl is_reference_v. rewrite H. reflexivity. Qed.

Lemma FunctionTraits_free (w : free_wrapping) (R : ctype) (Args : list ctype) (f : fn_spec) :
  is_abominable (TFunction R Args f) = false ->
  FunctionTraits P classes CPP20_OR_LATER (wrap_function w (TFunction R Args f)) =
  FreeFunctionTraits P CPP20_OR_LATER (wrap_function w (TFunction R Args f))
    (TFunction R Args f).
Proof.
  intros Hab. unfold FunctionTraits.
  assert (Hrem : RemoveRefAndPtrAndCv (wrap_function w (TFunction R Args f)) = TFunction R Args f)
    by (destruct w as [k|q k]; destruct k; reflexivity).
  assert (Hfun : IsFunctor_v P classes (wrap_function w (TFunction R Args f)) = false)
    by (destruct w as [k|q k]; destruct k; reflexivity).
  rewrite Hrem, Hfun, (IsFreeFunction_v_function R Args f Hab). reflexivity.
Qed.

Lemma FunctionTraits_member (k : reference_kind) (q : cv_qualifiers) (C : string)
    (R : ctype) (Args : list ctype) (f : fn_spec) :
  FunctionTraits P classes CPP20_OR_LATER
    (with_reference k (TMemberPointer q C (TFunction R Args f))) =
  MemberFunctionTraits P CPP20_OR_LATER
    (with_reference k (TMemberPointer q C (TFunction R Args f)))
    (TMemberPointer no_cv C (TFunction R Args f)).
Proof. destruct k; reflexivity. Qed.

Lemma address_of_call_operator_cv (q q' : cv_qualifiers) (K : string) :
  address_of_call_operator P classes (TClass q K) =
  address_of_call_operator P classes (TClass q' K).
Proof. reflexivity. Qed.

Lemma address_of_call_operator_inv (T M : ctype) :
  address_of_call_operator P classes T = Ok M ->
  exists q K R Args f,
    T = TClass q K /\ M = TMemberPointer no_cv K (TFunction R Args f).
Proof.
  unfold address_of_call_operator. destruct T; try discriminate.
  destruct (classes name) as [|[R Args s|] [|]]; try discriminate.
  unfold member_function_pointer_type.
  destruct (check_return_type R); [|discriminate]. simpl.
  destruct (adjust_parameters Args); [|discriminate]. simpl.
  intros H. injection H as <-. eauto 10.
Qed.

Lemma FunctionTraits_functor (k : reference_kind) (q : cv_qualifiers) (K : string)
    (M : ctype) :
  address_of_call_operator P classes (TClass q K) = Ok M ->
  FunctionTraits P classes CPP20_OR_LATER (with_reference k (TClass q K)) =
  fmap (set_IsFunctor true) (MemberFunctionTraits P CPP20_OR_LATER M M).
Proof.
  intros HM. unfold FunctionTraits.
  assert (Hrem : RemoveRefAndPtrAndCv (with_reference k (TClass q K)) = TClass no_cv K)
    by (destruct k; reflexivity).
  assert (Hfun : IsFunctor_v P classes (with_reference k (TClass q K)) = true).
  { unfold IsFunctor_v.
    replace (remove_reference_t (with_reference k (TClass q K))) with (TClass q K)
      by (destruct k; reflexivity).
    rewrite HM. reflexivity. }
  rewrite Hrem, Hfun. cbn [IsFreeFunction_v pointer_to is_reference_v is_lvalue_reference_v
    is_rvalue_reference_v is_abominable orb is_function_v remove_pointer_t
    is_member_function_pointer_v].
  unfold FunctorTraits.
  rewrite (address_of_call_operator_cv no_cv q K), HM.
  unfold fmap, bind.
  destruct (MemberFunctionTraits P CPP20_OR_LATER M M); reflexivity.
Qed.

Lemma IsTraitsFunction_v_shape (F : ctype) :
  IsTraitsFunction_v P classes F = true ->
  (exists w R Args f,
      F = wrap_function w (TFunction R Args f) /\
      is_abominable (TFunction R Args f) = false) \/
  (exists k q C R Args f,
      F = with_reference k (TMemberPointer q C (TFunction R Args f))) \/
  (exists k q K M,
      F = with_reference k (TClass q K) /\
      address_of_call_operator P classes (TClass q K) = Ok M).
Proof.
  unfold IsTraitsFunction_v. intros H.
  apply orb_true_iff in H. destruct H as [H|H].
  apply orb_true_iff in H. destruct H as [H|H].
  - left. apply IsFreeFunction_v_inv in H.
    destruct H as [R [Args [f [HT Hab]]]].
    unfold RemoveRefAndPtr in HT.
    destruct F; simpl in HT; try discriminate.
    + exists (pointer_to_function q no_reference), R, Args, f.
        first [injection HT as -> -> -> | subst]; split; [reflexivity | exact Hab].
    + destruct F; simpl in HT; try discriminate.
      * exists (pointer_to_function q lvalue_reference), R, Args, f.
        first [injection HT as -> -> -> | subst]; split; [reflexivity | exact Hab].
      * exists (function_itself lvalue_reference), R, Args, f.
        first [injection HT as -> -> -> | subst]; split; [reflexivity | exact Hab].
    + destruct F; simpl in HT; try discriminate.
      * exists (pointer_to_function q rvalue_reference), R, Args, f.
        first [injection HT as -> -> -> | subst]; split; [reflexivity | exact Hab].
      * exists (function_itself rvalue_reference), R, Args, f.
        first [injection HT as -> -> -> | subst]; split; [reflexivity | exact Hab].
    + exists (function_itself no_reference), R, Args, f.
        first [injection HT as -> -> -> | subst]; split; [reflexivity | exact Hab].
  - right. left.
    destruct F; simpl in H; try discriminate.
    + destruct F; try discriminate.
      exists no_reference. repeat eexists.
    + destruct F; try discriminate. destruct F; try discriminate.
      exists lvalue_reference. repeat eexists.
    + destruct F; try discriminate. destruct F; try discriminate.
      exists rvalue_reference. repeat eexists.
  - right. right. unfold IsFunctor_v in H.
    destruct (address_of_call_operator P classes (remove_reference_t F)) as [M|] eqn:E;
      [|discriminate].
    destruct (address_of_call_operator_inv _ _ E) as [q [K [R [Args [f [HT HM]]]]]].
    destruct F; simpl in HT; try discriminate.
    + exists no_reference, q, K, M. split; [exact HT|]. rewrite <- HT. exact E.
    + exists lvalue_reference, q, K, M. simpl in E. subst. auto.
    + exists rvalue_reference, q, K, M. simpl in E. subst. auto.
Qed.

(** ** What a successful classification is made of *)

Lemma FreeFunctionTraits_inv (F T : ctype) (tr : Traits.t) :
  FreeFunctionTraits P CPP20_OR_LATER F T = Ok tr ->
  exists s R Args f,
    T = TFunction R Args f /\
    tr = FreeFunctionTraits_members P CPP20_OR_LATER s F R Args.
Proof.
  unfold FreeFunctionTraits.
  destruct (select_specialization _ _) as [s|d]; simpl; [|discriminate].
  destruct T; try discriminate.
  intros H. injection H as <-. eauto 10.
Qed.

Lemma MemberFunctionTraits_inv (F T : ctype) (tr : Traits.t) :
  MemberFunctionTraits P CPP20_OR_LATER F T = Ok tr ->
  exists s q C R Args f,
    T = TMemberPointer q C (TFunction R Args f) /\
    tr = MemberFunctionTraits_members P CPP20_OR_LATER s F R C Args.
Proof.
  unfold MemberFunctionTraits.
  destruct (select_specialization _ _) as [s|d]; simpl; [|discriminate].
  destruct T; try discriminate. destruct T; try discriminate.
  intros H. injection H as <-. eauto 10.
Qed.

Lemma FunctorTraits_inv (T : ctype) (tr : Traits.t) :
  FunctorTraits P classes CPP20_OR_LATER T = Ok tr ->
  exists M trM,
    address_of_call_operator P classes T = Ok M /\
    MemberFunctionTraits P CPP20_OR_LATER M M = Ok trM /\
    tr = set_IsFunctor true trM.
Proof.
  unfold FunctorTraits.
  destruct (address_of_call_operator P classes T) as [M|d]; simpl; [|discriminate].
  destruct (MemberFunctionTraits P CPP20_OR_LATER M M) as [trM|d] eqn:EM;
    simpl; [|discriminate].
  destruct (static_assert (negb (is_reference_v T)) "!std::is_reference_v<F>");
    simpl; [|discriminate].
  intros H. injection H as <-. exists M, trM. auto.
Qed.

Lemma FunctionTraits_inv (F : ctype) (tr : Traits.t) :
  FunctionTraits P classes CPP20_OR_LATER F = Ok tr ->
  (is_member_function_pointer_v (RemoveRefAndPtrAndCv F) = false /\
   IsFunctor_v P classes F = false /\
   exists s R Args,
     tr = FreeFunctionTraits_members P CPP20_OR_LATER s F R Args) \/
  (is_member_function_pointer_v (RemoveRefAndPtrAndCv F) = true /\
   IsFunctor_v P classes F = false /\
   exists s R C Args,
     tr = MemberFunctionTraits_members P CPP20_OR_LATER s F R C Args) \/
  (is_member_function_pointer_v (RemoveRefAndPtrAndCv F) = false /\
   IsFunctor_v P classes F = true /\
   exists M s R C Args,
     address_of_call_operator P classes (RemoveRefAndPtrAndCv F) = Ok M /\
     is_member_function_pointer_v M = true /\
     tr = set_IsFunctor true (MemberFunctionTraits_members P CPP20_OR_LATER s M R C Args)).
Proof.
  unfold FunctionTraits.
  destruct (IsFreeFunction_v (RemoveRefAndPtrAndCv F)) eqn:E1;
    destruct (is_member_function_pointer_v (RemoveRefAndPtrAndCv F)) eqn:E2;
    destruct (IsFunctor_v P classes F) eqn:E3; try discriminate; intros H.
  - left. apply FreeFunctionTraits_inv in H.
    destruct H as [s [R [Args [f [_ ->]]]]]. eauto 10.
  - right. left. apply MemberFunctionTraits_inv in H.
    destruct H as [s [q [C [R [Args [f [_ ->]]]]]]]. eauto 10.
  - right. right. apply FunctorTraits_inv in H.
    destruct H as [M [trM [HM [HtrM ->]]]].
    apply MemberFunctionTraits_inv in HtrM.
    destruct HtrM as [s [q [C [R [Args [f [HMT ->]]]]]]].
    repeat split. exists M, s, R, C, Args. repeat split; auto.
    rewrite HMT. reflexivity.
Qed.

(** C6.  Classification-record invariant.  In every classification that
    [FunctionTraits] produces, [Class] is [void] exactly when the analyzed
    callable is not a non-static member function (neither a pointer to one,
    possibly cv-qualified or referred to, nor a functor); [IsMemberFunction]
    is [Class] not being [void] and [IsFreeFunction] is its negation; and
    when the callable is not a non-static member function, [IsConst] and
    [IsVolatile] are [false] and [RefQualifier] is [RefQualifier::None]. *)
Theorem classification_record_invariant (F : ctype) (tr : Traits.t) :
  FunctionTraits P classes CPP20_OR_LATER F = Ok tr ->
  let b := Traits.Base tr in
  let analyzes_member_function :=
    is_member_function_pointer_v (RemoveRefAndPtrAndCv F) || IsFunctor_v P classes F in
  (FunctionTraitsBase.Class b = void <-> analyzes_member_function = false) /\
  (is_void_v (FunctionTraitsBase.Class b) = true <-> analyzes_member_function = false) /\
  FunctionTraitsBase.IsMemberFunction b = negb (is_void_v (FunctionTraitsBase.Class b)) /\
  FunctionTraitsBase.IsFreeFunction b = negb (FunctionTraitsBase.IsMemberFunction b) /\
  FunctionTraitsBase.IsMemberFunction b = analyzes_member_function /\
  (analyzes_member_function = false ->
   FunctionTraitsBase.IsConst b = false /\
   FunctionTraitsBase.IsVolatile b = false /\
   FunctionTraitsBase.RefQualifier b = RefQualifier.None).
Proof.
  intros H. apply FunctionTraits_inv in H.
  destruct H as [[E2 [E3 [s [R [Args ->]]]]]
                |[[E2 [E3 [s [R [C [Args ->]]]]]]
                 |[E2 [E3 [M [s [R [C [Args [_ [_ ->]]]]]]]]]]];
    cbv zeta; rewrite E2, E3; simpl;
    repeat split; intros; try discriminate; try reflexivity.
Qed.

(** C10.  The [Type] member.  In every classification of a type [F] that
    is not a functor nor a reference to one, [Type] is [F] itself, with its
    outer reference, pointer and pointer-level cv-qualifiers.  When [F] is a
    functor or a reference to one, [Type] is [decltype(&F::operator())], the
    pointer to member function type of the call operator of the class, and
    not the type [F] that was passed; [IsFunctor] tells the two cases
    apart. *)
Theorem Type_member (F : ctype) (tr : Traits.t) :
  FunctionTraits P classes CPP20_OR_LATER F = Ok tr ->
  Traits.IsFunctor tr = IsFunctor_v P classes F /\
  (IsFunctor_v P classes F = false ->
   FunctionTraitsBase.Type_ (Traits.Base tr) = F) /\
  (IsFunctor_v P classes F = true ->
   address_of_call_operator P classes (RemoveRefAndPtrAndCv F)
     = Ok (FunctionTraitsBase.Type_ (Traits.Base tr)) /\
   is_member_function_pointer_v (FunctionTraitsBase.Type_ (Traits.Base tr)) = true /\
   is_class_v (remove_reference_t F) = true /\
   FunctionTraitsBase.Type_ (Traits.Base tr) <> F).
Proof.
  intros H. apply FunctionTraits_inv in H.
  destruct H as [[E2 [E3 [s [R [Args ->]]]]]
                |[[E2 [E3 [s [R [C [Args ->]]]]]]
                 |[E2 [E3 [M [s [R [C [Args [HM [HMf ->]]]]]]]]]]];
    rewrite E3; simpl; repeat split; try discriminate; try reflexivity; auto.
  - unfold IsFunctor_v in E3.
    destruct (address_of_call_operator P classes (remove_reference_t F)) as [M'|] eqn:E;
      [|discriminate].
    destruct (address_of_call_operator_inv _ _ E) as [q [K [R' [Args' [f' [-> _]]]]]].
    reflexivity.
  - intros Heq. subst F. unfold IsFunctor_v in E3.
    destruct M; try discriminate.
Qed.

Lemma Base_free (f : fn_spec) (F R : ctype) (Args : list ctype) :
  Traits.Base (FreeFunctionTraits_members P CPP20_OR_LATER (free_spec_of f) F R Args) =
  FunctionTraitsBase.Build F R (fn_cc f) (fn_variadic f) void false false
    RefQualifier.None (fn_noexcept f) Args.
Proof. destruct f as [c va k vo r n]. destruct va; reflexivity. Qed.

Lemma Base_member (f : fn_spec) (F R : ctype) (C : string) (Args : list ctype) :
  Traits.Base (MemberFunctionTraits_members P CPP20_OR_LATER (member_spec_of f) F R C Args) =
  FunctionTraitsBase.Build F R (fn_cc f) (fn_variadic f) (TClass no_cv C)
    (fn_const f) (fn_volatile f) (fn_ref f) (fn_noexcept f) Args.
Proof. destruct f as [c va k vo r n]. destruct va, k, vo, r; reflexivity. Qed.

Lemma fn_spec_eta (f : fn_spec) :
  FnSpec (fn_cc f) (fn_variadic f) (fn_const f) (fn_volatile f) (fn_ref f) (fn_noexcept f) = f.
Proof. destruct f; reflexivity. Qed.

Lemma address_of_call_operator_canonical (q : cv_qualifiers) (K : string) (R : ctype)
    (Args : list ctype) (f : fn_spec) :
  classes K = [NonTemplate R Args f] ->
  canonical_signature P true R Args f ->
  address_of_call_operator P classes (TClass q K) =
  Ok (TMemberPointer no_cv K (TFunction R Args f)).
Proof.
  intros HK [HR [HA [Hcc _]]]. unfold address_of_call_operator. rewrite HK.
  rewrite member_function_pointer_type_canonical by assumption.
  rewrite Hcc, fn_spec_eta. reflexivity.
Qed.

(** C1.  Round-trip classification.  For every category (a free function,
    possibly behind a reference, a possibly cv-qualified pointer, or a
    reference to such a pointer; a possibly cv-qualified pointer to a
    non-static member function, possibly behind a reference; a functor,
    possibly cv-qualified or behind a reference) and every return type,
    parameter types, calling convention, variadic flag, [noexcept] and (for a
    member function) class, const, volatile and ref-qualifier that make a
    signature of the toolchain for that category, [FunctionTraits] on the
    type built from them succeeds, and its members [ReturnType], [ArgTypes],
    [ArgCount], [CallingConvention], [IsVariadic], [IsNoexcept], [Class],
    [IsConst], [IsVolatile] and [RefQualifier] are the parts the type was
    built from. *)
Theorem classification_round_trip (cat : category) (R : ctype) (Args : list ctype)
    (C : string) (f : fn_spec) :
  canonical_signature P (is_member_category cat) R Args f ->
  (forall q k, cat = functor_category q k -> classes C = [NonTemplate R Args f]) ->
  exists tr,
    FunctionTraits P classes CPP20_OR_LATER (construct cat R Args C f) = Ok tr /\
    FunctionTraitsBase.ReturnType (Traits.Base tr) = R /\
    FunctionTraitsBase.ArgTypes (Traits.Base tr) = Args /\
    FunctionTraitsBase.ArgCount (Traits.Base tr) = List.length Args /\
    FunctionTraitsBase.CallingConvention (Traits.Base tr) = fn_cc f /\
    FunctionTraitsBase.IsVariadic (Traits.Base tr) = fn_variadic f /\
    FunctionTraitsBase.IsNoexcept (Traits.Base tr) = fn_noexcept f /\
    FunctionTraitsBase.Class (Traits.Base tr) =
      (if is_member_category cat then TClass no_cv C else void) /\
    FunctionTraitsBase.IsConst (Traits.Base tr) = fn_const f /\
    FunctionTraitsBase.IsVolatile (Traits.Base tr) = fn_volatile f /\
    FunctionTraitsBase.RefQualifier (Traits.Base tr) = fn_ref f.
Proof.
  intros Hcan Hfun.
  destruct cat as [w|q k|q k]; cbn [construct is_member_category] in *.
  - pose proof Hcan as [_ [_ [_ [_ [_ Hfree]]]]].
    destruct (Hfree eq_refl) as [_ Hab].
    destruct (not_abominable _ _ _ Hab) as [Hc [Hv Hr]].
    eexists. split.
    + rewrite (FunctionTraits_free w R Args f Hab).
      apply FreeFunctionTraits_canonical. exact Hcan.
    + rewrite Base_free, Hc, Hv, Hr. repeat split.
  - eexists. split.
    + rewrite FunctionTraits_member.
      apply MemberFunctionTraits_canonical. exact Hcan.
    + rewrite Base_member. repeat split.
  - specialize (Hfun q k eq_refl).
    eexists. split.
    + rewrite (FunctionTraits_functor k q C _
                 (address_of_call_operator_canonical q C R Args f Hfun Hcan)).
      rewrite MemberFunctionTraits_canonical by exact Hcan. reflexivity.
    + cbn [set_IsFunctor Traits.Base]. rewrite Base_member. repeat split.
Qed.

(** ** Normal form of the classification of a canonical, acceptable type *)

Lemma set_IsFunctor_false_members (s : member_spec) (F R : ctype) (C : string)
    (Args : list ctype) :
  set_IsFunctor false (MemberFunctionTraits_members P CPP20_OR_LATER s F R C Args) =
  MemberFunctionTraits_members P CPP20_OR_LATER s F R C Args.
Proof. reflexivity. Qed.

Lemma FunctionTraits_normal_form (F : ctype) :
  canonical P classes F ->
  IsTraitsFunction_v P classes F = true ->
  (exists w R Args f,
      F = wrap_function w (TFunction R Args f) /\
      canonical_signature P false R Args f /\
      FunctionTraits P classes CPP20_OR_LATER F =
      Ok (FreeFunctionTraits_members P CPP20_OR_LATER (free_spec_of f) F R Args)) \/
  (exists k q C R Args f isf,
      canonical_signature P true R Args f /\
      FunctionTraits P classes CPP20_OR_LATER F =
      Ok (set_IsFunctor isf
            (MemberFunctionTraits_members P CPP20_OR_LATER (member_spec_of f)
               (with_reference k (TMemberPointer q C (TFunction R Args f))) R C Args)) /\
      IsFunctor_v P classes F = isf /\
      (isf = false -> F = with_reference k (TMemberPointer q C (TFunction R Args f)))).
Proof.
  intros [Hcan Hcanf] Hacc.
  destruct (IsTraitsFunction_v_shape F Hacc)
    as [[w [R [Args [f [-> Hab]]]]]
       |[[k [q [C [R [Args [f ->]]]]]]
        |[k [q [K [M [-> HM]]]]]]].
  - left. exists w, R, Args, f.
    assert (Hrem : RemoveRefAndPtrAndCv (wrap_function w (TFunction R Args f)) = TFunction R Args f)
      by (destruct w as [k|q k]; destruct k; reflexivity).
    rewrite Hrem in Hcan. simpl in Hcan.
    split; [reflexivity|]. split; [exact Hcan|].
    rewrite (FunctionTraits_free w R Args f Hab).
    apply FreeFunctionTraits_canonical. exact Hcan.
  - right. exists k, q, C, R, Args, f, false.
    assert (Hrem : RemoveRefAndPtrAndCv (with_reference k (TMemberPointer q C (TFunction R Args f)))
                   = TMemberPointer no_cv C (TFunction R Args f))
      by (destruct k; reflexivity).
    rewrite Hrem in Hcan. simpl in Hcan.
    split; [exact Hcan|]. split; [|split; [destruct k; reflexivity|reflexivity]].
    rewrite FunctionTraits_member, set_IsFunctor_false_members.
    apply MemberFunctionTraits_canonical. exact Hcan.
  - right.
    destruct (address_of_call_operator_inv _ _ HM) as [q' [K' [R [Args [f [HT ->]]]]]].
    injection HT as <- <-.
    assert (Hrem : RemoveRefAndPtrAndCv (with_reference k (TClass q K)) = TClass no_cv K)
      by (destruct k; reflexivity).
    rewrite Hrem in Hcanf.
    specialize (Hcanf _ HM). simpl in Hcanf.
    exists no_reference, no_cv, K, R, Args, f, true.
    split; [exact Hcanf|]. split; [|split; [|discriminate]].
    + rewrite (FunctionTraits_functor k q K _ HM).
      rewrite MemberFunctionTraits_canonical by exact Hcanf. reflexivity.
    + unfold IsFunctor_v.
      replace (remove_reference_t (with_reference k (TClass q K))) with (TClass q K)
        by (destruct k; reflexivity).
      rewrite HM. reflexivity.
Qed.

(** ** [ReplaceNth] *)

Lemma ReplaceNth_length (N : nat) (T : ctype) :
  forall Ts i, List.length (ReplaceNth N T i Ts) = List.length Ts.
Proof. induction Ts as [|t Ts IH]; intros i; simpl; [reflexivity | rewrite IH; reflexivity]. Qed.

Lemma nth_error_ReplaceNth (N : nat) (T : ctype) :
  forall Ts i j,
    nth_error (ReplaceNth N T i Ts) j =
    if i + j =? N
    then (if j <? List.length Ts then Some T else None)
    else nth_error Ts j.
Proof.
  induction Ts as [|t Ts IH]; intros i j; simpl.
  - destruct j; simpl; destruct (_ =? N); reflexivity.
  - destruct j as [|j]; simpl.
    + rewrite Nat.add_0_r. unfold conditional_t. destruct (i =? N); reflexivity.
    + rewrite IH. replace (Datatypes.S i + j) with (i + Datatypes.S j) by lia.
      reflexivity.
Qed.

Lemma ReplaceNth_same (N : nat) (T : ctype) (Ts : list ctype) :
  nth_error Ts N = Some T -> ReplaceNth N T 0 Ts = Ts.
Proof.
  intros H. apply nth_error_ext. intros j.
  rewrite nth_error_ReplaceNth. simpl.
  destruct (j =? N) eqn:E; [|reflexivity].
  apply Nat.eqb_eq in E. subst j. rewrite H.
  assert (N < List.length Ts) by (apply nth_error_Some; congruence).
  apply Nat.ltb_lt in H0. rewrite H0. reflexivity.
Qed.

Lemma Args_inv (b : FunctionTraitsBase.t) (N : nat) (T : ctype) :
  FunctionTraitsBase.Args b N = Ok T ->
  nth_error (FunctionTraitsBase.ArgTypes b) N = Some T /\
  N < FunctionTraitsBase.ArgCount b.
Proof.
  unfold FunctionTraitsBase.Args, static_assert, tuple_element_t.
  destruct (N <? FunctionTraitsBase.ArgCount b) eqn:E; simpl; [|discriminate].
  apply Nat.ltb_lt in E.
  destruct (nth_error (FunctionTraitsBase.ArgTypes b) N); [|discriminate].
  intros H. injection H as <-. auto.
Qed.

Lemma ReplaceNthType_t_same (N : nat) (T : ctype) (Ts : list ctype) :
  nth_error Ts N = Some T -> ReplaceNthType_t N T Ts = Ok Ts.
Proof.
  intros H. unfold ReplaceNthType_t, static_assert.
  assert (N < List.length Ts) by (apply nth_error_Some; congruence).
  apply Nat.ltb_lt in H0. rewrite H0. simpl. rewrite ReplaceNth_same by exact H.
  reflexivity.
Qed.

Lemma tuple_element_free (c : CallingConvention) (x0 x1 x2 x3 x4 x5 : ctype) :
  tuple_element_t (CallingConvention_index c) [x0; x1; x2; x3; x4; x5] =
  Ok match c with
     | Cdecl => x0 | Stdcall => x1 | Fastcall => x2
     | Vectorcall => x3 | Thiscall => x4 | Regcall => x5
     end.
Proof. destruct c; reflexivity. Qed.

Lemma idempotent_edits_free (w : free_wrapping) (R : ctype) (Args : list ctype)
    (f : fn_spec) :
  canonical_signature P false R Args f ->
  idempotent_edits
    (FreeFunctionTraits_members P CPP20_OR_LATER (free_spec_of f)
       (wrap_function w (TFunction R Args f)) R Args).
Proof.
  intros [HR [HA [Hcc [Hva [Hreg Hfree]]]]].
  destruct (Hfree eq_refl) as [Hthis Hab].
  destruct (not_abominable _ _ _ Hab) as [Hc [Hv Hr]].
  destruct f as [c va k vo r n].
  cbn [fn_cc fn_variadic fn_const fn_volatile fn_ref fn_noexcept] in *. subst k vo r.
  destruct va; [pose proof (Hva eq_refl); subst c|]; clear Hva.
  all: match goal with
       | |- idempotent_edits (_ _ _ _ (wrap_function ?w0 ?T) _ _) =>
           assert (Hmig : forall T',
                      is_function_v T' = true -> is_abominable T' = false ->
                      MigratePointerAndRef (wrap_function w0 T) T' = wrap_function w0 T')
             by (intros; apply MigratePointerAndRef_wrap; auto)
       end.
  all: unfold idempotent_edits, FreeFunctionTraits_members, free_spec_of,
         REPLACE_CALLING_CONVENTION_free, FUNCTION_TRAITS_BASE_CLASS_free,
         FunctionTraitsBase.IsMemberFunction, FunctionTraitsBase.Args,
         FunctionTraitsBase.ArgCount;
       cbn [Traits.Base Traits.AddVariadicArgs Traits.RemoveVariadicArgs Traits.AddConst
            Traits.RemoveConst Traits.AddVolatile Traits.RemoveVolatile Traits.AddCV
            Traits.RemoveCV Traits.AddLValueReference Traits.AddRValueReference
            Traits.RemoveReference Traits.AddNoexcept Traits.RemoveNoexcept
            Traits.ReplaceCallingConvention Traits.ReplaceClass Traits.ReplaceReturnType
            Traits.ReplaceArgs Traits.ReplaceArgsTuple Traits.ReplaceNthArg
            FunctionTraitsBase.Type_ FunctionTraitsBase.ReturnType
            FunctionTraitsBase.CallingConvention FunctionTraitsBase.IsVariadic
            FunctionTraitsBase.Class FunctionTraitsBase.IsConst FunctionTraitsBase.IsVolatile
            FunctionTraitsBase.RefQualifier FunctionTraitsBase.IsNoexcept
            FunctionTraitsBase.ArgTypes
            free_CC free_CALLING_CONVENTION free_ARGS free_IS_NOEXCEPT free_REPLACE
            fn_cc fn_variadic fn_noexcept REPLACE_macro_of ARGS_token];
       rewrite !function_type_canonical by assumption;
       unfold STDEXT_CC_VARIADIC, STDEXT_CC_CDECL, STDEXT_CC_STDCALL, STDEXT_CC_FASTCALL,
         STDEXT_CC_VECTORCALL, STDEXT_CC_REGCALL, fmap, conditional_t;
       change (declares_ellipsis "(Args..., ...)") with true;
       change (declares_ellipsis "(Args...)") with false;
       change (negb (is_null (stringized_at "(Args..., ...)" 9))) with true;
       change (negb (is_null (stringized_at "(Args...)" 9))) with false;
       cbn [bind]; rewrite ?Hcc; cbn [effective_cc is_void_v void negb];
       repeat match goal with |- _ /\ _ => split end;
       try reflexivity;
       try (intros; discriminate);
       try (intros; subst; rewrite Hmig by reflexivity; reflexivity).
  - intros N T HN.
    destruct (N <? List.length Args) eqn:E; [|discriminate].
    unfold tuple_element_t in HN. cbn [static_assert bind] in HN.
    destruct (nth_error Args N) as [T'|] eqn:EN; [|discriminate].
    injection HN as <-.
    rewrite ReplaceNthType_t_same by exact EN. cbn [bind].
    rewrite !function_type_canonical by assumption. cbn [bind effective_cc].
    rewrite Hmig by reflexivity. reflexivity.
  - destruct (STDEXT_CC_REGCALL_defined P) eqn:Ereg; cbn [tuple_of fold_right app bind].
    + rewrite tuple_element_free. cbn [bind].
      destruct c; try congruence; cbn [effective_cc] in Hcc; rewrite ?Hcc;
        rewrite Hmig by reflexivity; reflexivity.
    + destruct c; try congruence;
        cbn [CallingConvention_index tuple_element_t nth_error bind];
        cbn [effective_cc] in Hcc;
        rewrite ?Hcc; try (rewrite Hmig by reflexivity; reflexivity).
      pose proof (Hreg eq_refl). congruence.
  - intros N T HN.
    destruct (N <? List.length Args) eqn:E; [|discriminate].
    unfold tuple_element_t in HN. cbn [static_assert bind] in HN.
    destruct (nth_error Args N) as [T'|] eqn:EN; [|discriminate].
    injection HN as <-.
    rewrite ReplaceNthType_t_same by exact EN. cbn [bind].
    rewrite !function_type_canonical by assumption. cbn [bind effective_cc].
    rewrite Hcc, Hmig by reflexivity. reflexivity.
Qed.

Lemma stringized_tokens :
  (forall va, negb (is_null (stringized_at (ARGS_token va) 9)) = va) /\
  (forall k, negb (is_null (stringized_at (CONST_token k) 0)) = k) /\
  (forall vo, negb (is_null (stringized_at (VOLATILE_token vo) 0)) = vo) /\
  (forall r,
      (if is_null (stringized_at (REF_token r) 0) then RefQualifier.None
       else if is_null (stringized_at (REF_token r) 1) then RefQualifier.LValue
            else RefQualifier.RValue) = r).
Proof. repeat split; intros []; reflexivity. Qed.

Lemma declared_tokens :
  (forall va, declares_ellipsis (ARGS_token va) = va) /\
  (forall k, declares_const (CONST_token k) = k) /\
  (forall vo, declares_volatile (VOLATILE_token vo) = vo) /\
  (forall r, declares_ref (REF_token r) = r).
Proof. repeat split; intros []; reflexivity. Qed.

Lemma tuple_element_member (c : CallingConvention) (x0 x1 x2 x3 x4 x5 : ctype) :
  tuple_element_t (CallingConvention_index c) [x0; x1; x2; x3; x4; x5] =
  Ok match c with
     | Cdecl => x0 | Stdcall => x1 | Fastcall => x2
     | Vectorcall => x3 | Thiscall => x4 | Regcall => x5
     end.
Proof. destruct c; reflexivity. Qed.

Lemma idempotent_edits_member (k0 : reference_kind) (q : cv_qualifiers) (C : string)
    (R : ctype) (Args : list ctype) (f : fn_spec) :
  canonical_signature P true R Args f ->
  idempotent_edits
    (MemberFunctionTraits_members P CPP20_OR_LATER (member_spec_of f)
       (with_reference k0 (TMemberPointer q C (TFunction R Args f))) R C Args).
Proof.
  intros [HR [HA [Hcc [Hva [Hreg _]]]]].
  destruct stringized_tokens as [S1 [S2 [S3 S4]]].
  destruct declared_tokens as [D1 [D2 [D3 D4]]].
  destruct f as [c va k vo r n].
  cbn [fn_cc fn_variadic fn_const fn_volatile fn_ref fn_noexcept] in *.
  destruct va; [pose proof (Hva eq_refl); subst c|]; clear Hva.
  all: unfold idempotent_edits, MemberFunctionTraits_members, member_spec_of,
         REPLACE_CALLING_CONVENTION_member, FUNCTION_TRAITS_BASE_CLASS_member,
         FunctionTraitsBase.IsMemberFunction, FunctionTraitsBase.Args,
         FunctionTraitsBase.ArgCount, constrained, IS_CLASS_C;
       cbn [Traits.Base Traits.AddVariadicArgs Traits.RemoveVariadicArgs Traits.AddConst
            Traits.RemoveConst Traits.AddVolatile Traits.RemoveVolatile Traits.AddCV
            Traits.RemoveCV Traits.AddLValueReference Traits.AddRValueReference
            Traits.RemoveReference Traits.AddNoexcept Traits.RemoveNoexcept
            Traits.ReplaceCallingConvention Traits.ReplaceClass Traits.ReplaceReturnType
            Traits.ReplaceArgs Traits.ReplaceArgsTuple Traits.ReplaceNthArg
            FunctionTraitsBase.Type_ FunctionTraitsBase.ReturnType
            FunctionTraitsBase.CallingConvention FunctionTraitsBase.IsVariadic
            FunctionTraitsBase.Class FunctionTraitsBase.IsConst FunctionTraitsBase.IsVolatile
            FunctionTraitsBase.RefQualifier FunctionTraitsBase.IsNoexcept
            FunctionTraitsBase.ArgTypes
            member_CC member_CALLING_CONVENTION member_ARGS member_CONST member_VOLATILE
            member_REF member_IS_NOEXCEPT member_REPLACE
            fn_cc fn_variadic fn_const fn_volatile fn_ref fn_noexcept REPLACE_macro_of];
       rewrite ?S1, ?S2, ?S3, ?S4, ?D1, ?D2, ?D3, ?D4;
       cbn [is_class_v class_name static_assert bind];
       rewrite !member_function_pointer_type_canonical by assumption;
       unfold STDEXT_CC_VARIADIC, STDEXT_CC_CDECL, STDEXT_CC_STDCALL, STDEXT_CC_FASTCALL,
         STDEXT_CC_VECTORCALL, STDEXT_CC_THISCALL, STDEXT_CC_REGCALL, fmap, conditional_t;
       cbn [bind]; rewrite ?Hcc; cbn [effective_cc is_void_v negb];
       rewrite ?MigrateCvAndRef_member;
       repeat match goal with |- _ /\ _ => split end;
       try reflexivity;
       try (intros; discriminate);
       try (intros; subst; reflexivity);
       try (destruct CPP20_OR_LATER; cbn [bind]; rewrite ?MigrateCvAndRef_member;
            reflexivity).
  - intros N T HN.
    destruct (N <? List.length Args) eqn:E; [|discriminate].
    unfold tuple_element_t in HN. cbn [static_assert bind] in HN.
    destruct (nth_error Args N) as [T'|] eqn:EN; [|discriminate].
    injection HN as <-.
    rewrite ReplaceNthType_t_same by exact EN. cbn [bind].
    rewrite !member_function_pointer_type_canonical by assumption. cbn [bind effective_cc].
    rewrite MigrateCvAndRef_member. reflexivity.
  - destruct (STDEXT_CC_REGCALL_defined P) eqn:Ereg; cbn [tuple_of fold_right app bind].
    + rewrite tuple_element_member. cbn [bind].
      destruct c; try congruence; cbn [effective_cc] in Hcc;
        rewrite ?Hcc, ?MigrateCvAndRef_member; reflexivity.
    + destruct c; try congruence;
        cbn [CallingConvention_index tuple_element_t nth_error bind];
        cbn [effective_cc] in Hcc;
        rewrite ?Hcc, ?MigrateCvAndRef_member; try reflexivity.
      pose proof (Hreg eq_refl). congruence.
  - intros N T HN.
    destruct (N <? List.length Args) eqn:E; [|discriminate].
    unfold tuple_element_t in HN. cbn [static_assert bind] in HN.
    destruct (nth_error Args N) as [T'|] eqn:EN; [|discriminate].
    injection HN as <-.
    rewrite ReplaceNthType_t_same by exact EN. cbn [bind].
    rewrite !member_function_pointer_type_canonical by assumption. cbn [bind effective_cc].
    rewrite Hcc, MigrateCvAndRef_member. reflexivity.
Qed.

(** C5, as amended.  Idempotence.  For every acceptable callable type of
    the toolchain, each transformation that sets an attribute to the value
    the classification already reports ([AddVariadicArgs] on a variadic
    function, [RemoveConst] on a non-const one, [AddNoexcept] on a [noexcept]
    one, [ReplaceCallingConvention] with the reported convention,
    [ReplaceClass], [ReplaceReturnType], [ReplaceArgs], [ReplaceArgsTuple]
    and [ReplaceNthArg] with the reported class, return type and parameter
    types, and so on) gives the [Type] member of the classification: the
    input type itself unless the input is a functor or a reference to
    one. *)
Theorem idempotent_transformations (F : ctype) :
  canonical P classes F ->
  IsTraitsFunction_v P classes F = true ->
  exists tr,
    FunctionTraits P classes CPP20_OR_LATER F = Ok tr /\
    (IsFunctor_v P classes F = false ->
     FunctionTraitsBase.Type_ (Traits.Base tr) = F) /\
    idempotent_edits tr.
Proof.
  intros Hcan Hacc.
  destruct (FunctionTraits_normal_form F Hcan Hacc)
    as [[w [R [Args [f [-> [Hsig HF]]]]]]
       |[k [q [C [R [Args [f [isf [Hsig [HF [Hisf HF0]]]]]]]]]]].
  - eexists. split; [exact HF|]. split; [reflexivity|].
    apply idempotent_edits_free. exact Hsig.
  - eexists. split; [exact HF|]. split.
    + intros E. rewrite E in Hisf. subst isf. rewrite (HF0 eq_refl). reflexivity.
    + exact (idempotent_edits_member k q C R Args f Hsig).
Qed.

Lemma free_function_shape (F : ctype) :
  IsFreeFunction_v (RemoveRefAndPtr F) = true ->
  exists w R Args f,
    F = wrap_function w (TFunction R Args f) /\
    is_abominable (TFunction R Args f) = false.
Proof.
  intros H. apply IsFreeFunction_v_inv in H.
  destruct H as [R [Args [f [HT Hab]]]].
  unfold RemoveRefAndPtr in HT.
  destruct F; simpl in HT; try discriminate.
  + exists (pointer_to_function q no_reference), R, Args, f.
    first [injection HT as -> -> -> | subst]; split; [reflexivity | exact Hab].
  + destruct F; simpl in HT; try discriminate.
    * exists (pointer_to_function q lvalue_reference), R, Args, f.
      first [injection HT as -> -> -> | subst]; split; [reflexivity | exact Hab].
    * exists (function_itself lvalue_reference), R, Args, f.
      first [injection HT as -> -> -> | subst]; split; [reflexivity | exact Hab].
  + destruct F; simpl in HT; try discriminate.
    * exists (pointer_to_function q rvalue_reference), R, Args, f.
      first [injection HT as -> -> -> | subst]; split; [reflexivity | exact Hab].
    * exists (function_itself rvalue_reference), R, Args, f.
      first [injection HT as -> -> -> | subst]; split; [reflexivity | exact Hab].
  + exists (function_itself no_reference), R, Args, f.
    first [injection HT as -> -> -> | subst]; split; [reflexivity | exact Hab].
Qed.

(** C4.  Inapplicable edits are the identity.  For every free function
    type of the toolchain, possibly behind a pointer or a reference, each of
    [AddConst], [RemoveConst], [AddVolatile], [RemoveVolatile], [AddCV],
    [RemoveCV], [AddLValueReference], [AddRValueReference],
    [RemoveReference] and [ReplaceClass] (with a class) gives back the input
    type, and so does [ReplaceCallingConvention] with [Thiscall]. *)
Theorem inapplicable_edit_is_identity (F : ctype) :
  canonical P classes F ->
  IsFreeFunction_v (RemoveRefAndPtr F) = true ->
  exists tr,
    FunctionTraits P classes CPP20_OR_LATER F = Ok tr /\
    Traits.AddConst tr = Ok F /\
    Traits.RemoveConst tr = Ok F /\
    Traits.AddVolatile tr = Ok F /\
    Traits.RemoveVolatile tr = Ok F /\
    Traits.AddCV tr = Ok F /\
    Traits.RemoveCV tr = Ok F /\
    Traits.AddLValueReference tr = Ok F /\
    Traits.AddRValueReference tr = Ok F /\
    Traits.RemoveReference tr = Ok F /\
    (forall NewClassT, is_class_v NewClassT = true ->
                       Traits.ReplaceClass tr NewClassT = Ok F) /\
    Traits.ReplaceCallingConvention tr Thiscall = Ok F.
Proof.
  intros [Hcan _] Hfree.
  destruct (free_function_shape F Hfree) as [w [R [Args [f [-> Hab]]]]].
  assert (Hrem : RemoveRefAndPtrAndCv (wrap_function w (TFunction R Args f)) = TFunction R Args f)
    by (destruct w as [k|q k]; destruct k; reflexivity).
  rewrite Hrem in Hcan. simpl in Hcan.
  eexists. split.
  { rewrite (FunctionTraits_free w R Args f Hab).
    apply FreeFunctionTraits_canonical. exact Hcan. }
  repeat match goal with |- _ /\ _ => split end; try reflexivity.
  - intros NewClassT Hclass.
    cbn [FreeFunctionTraits_members Traits.ReplaceClass].
    unfold constrained, IS_CLASS_C. rewrite Hclass.
    destruct CPP20_OR_LATER; reflexivity.
  - destruct Hcan as [HR [HA [Hcc [Hva _]]]].
    destruct f as [c va k vo r n].
    apply not_abominable in Hab. destruct Hab as [Hc [Hv Hr]].
    cbn [fn_cc fn_variadic fn_const fn_volatile fn_ref fn_noexcept] in *. subst k vo r.
    destruct va; [pose proof (Hva eq_refl); subst c|]; clear Hva;
      unfold FreeFunctionTraits_members, free_spec_of, REPLACE_CALLING_CONVENTION_free;
      cbn [Traits.ReplaceCallingConvention free_CC free_CALLING_CONVENTION free_ARGS
           free_IS_NOEXCEPT free_REPLACE fn_cc fn_variadic fn_noexcept REPLACE_macro_of
           ARGS_token];
      rewrite !function_type_canonical by assumption;
      unfold fmap; cbn [bind]; rewrite ?Hcc.
    + rewrite MigratePointerAndRef_wrap by reflexivity. reflexivity.
    + destruct (STDEXT_CC_REGCALL_defined P);
        cbn [tuple_of fold_right app bind CallingConvention_index tuple_element_t nth_error];
        rewrite MigratePointerAndRef_wrap by reflexivity; reflexivity.
Qed.

(** ** Replacing one parameter *)

Lemma adjust_parameter_idempotent (T T' : ctype) :
  adjust_parameter T = Ok T' -> adjust_parameter T' = Ok T'.
Proof.
  destruct T; simpl; try discriminate;
    try (intros H; injection H as <-; reflexivity).
  destruct (_ || _ || _); [discriminate|].
  intros H. injection H as <-. reflexivity.
Qed.

Lemma adjust_parameters_cons_inv (t : ctype) (Ts : list ctype) :
  adjust_parameters (t :: Ts) = Ok (t :: Ts) ->
  adjust_parameter t = Ok t /\ adjust_parameters Ts = Ok Ts.
Proof.
  simpl. destruct (adjust_parameter t) as [t'|]; simpl; [|discriminate].
  destruct (adjust_parameters Ts) as [Ts'|]; simpl; [|discriminate].
  intros H. injection H as -> ->. auto.
Qed.

Lemma adjust_parameters_ReplaceNth (N : nat) (T T' : ctype) :
  adjust_parameter T = Ok T' ->
  forall Ts i,
    adjust_parameters Ts = Ok Ts ->
    adjust_parameters (ReplaceNth N T i Ts) = Ok (ReplaceNth N T' i Ts).
Proof.
  intros HT. induction Ts as [|t Ts IH]; intros i H; simpl.
  - reflexivity.
  - apply adjust_parameters_cons_inv in H. destruct H as [Ht HTs].
    rewrite (IH (Datatypes.S i) HTs). unfold conditional_t.
    destruct (i =? N); [rewrite HT | rewrite Ht]; reflexivity.
Qed.

Lemma function_type_adjusted (R : ctype) (CC : CallingConvention) (Ts Ts' : list ctype)
    (e ne : bool) :
  check_return_type R = Ok R ->
  adjust_parameters Ts = Ok Ts' ->
  function_type P R CC Ts e ne =
  Ok (TFunction R Ts' (FnSpec (effective_cc P false CC) e false false RefQualifier.None ne)).
Proof. intros HR HA. unfold function_type. rewrite HR, HA. reflexivity. Qed.

Lemma member_function_pointer_type_adjusted (R : ctype) (CC : CallingConvention)
    (C : string) (Ts Ts' : list ctype) (e c v : bool) (r : RefQualifier.t) (ne : bool) :
  check_return_type R = Ok R ->
  adjust_parameters Ts = Ok Ts' ->
  member_function_pointer_type P R CC C Ts e c v r ne =
  Ok (TMemberPointer no_cv C (TFunction R Ts' (FnSpec (effective_cc P true CC) e c v r ne))).
Proof. intros HR HA. unfold member_function_pointer_type. rewrite HR, HA. reflexivity. Qed.

Lemma canonical_signature_ReplaceNth (is_member : bool) (R : ctype) (Args : list ctype)
    (f : fn_spec) (N : nat) (T' : ctype) :
  canonical_signature P is_member R Args f ->
  adjust_parameter T' = Ok T' ->
  canonical_signature P is_member R (ReplaceNth N T' 0 Args) f.
Proof.
  intros [HR [HA [Hcc [Hva [Hreg Hfree]]]]] HT.
  repeat split; auto.
  - apply adjust_parameters_ReplaceNth; assumption.
  - apply Hfree. assumption.
  - apply Hfree. assumption.
Qed.

Lemma ReplaceNthType_t_in_range (N : nat) (T : ctype) (Ts : list ctype) :
  N < List.length Ts -> ReplaceNthType_t N T Ts = Ok (ReplaceNth N T 0 Ts).
Proof.
  intros H. unfold ReplaceNthType_t, static_assert.
  apply Nat.ltb_lt in H. rewrite H. reflexivity.
Qed.

Lemma ReplaceNthArg_free (w : free_wrapping) (R : ctype) (Args : list ctype) (f : fn_spec)
    (N : nat) (T T' : ctype) :
  canonical_signature P false R Args f ->
  adjust_parameter T = Ok T' ->
  N < List.length Args ->
  Traits.ReplaceNthArg
    (FreeFunctionTraits_members P CPP20_OR_LATER (free_spec_of f)
       (wrap_function w (TFunction R Args f)) R Args) N T =
  Ok (wrap_function w (TFunction R (ReplaceNth N T' 0 Args) f)).
Proof.
  intros [HR [HA [Hcc [Hva [Hreg Hfree]]]]] HT HN.
  destruct (Hfree eq_refl) as [Hthis Hab].
  destruct (not_abominable _ _ _ Hab) as [Hc [Hv Hr]].
  destruct stringized_tokens as [S1 _].
  destruct f as [c va k vo r n].
  cbn [fn_cc fn_variadic fn_const fn_volatile fn_ref fn_noexcept] in *. subst k vo r.
  unfold FreeFunctionTraits_members, free_spec_of, FUNCTION_TRAITS_BASE_CLASS_free.
  cbn [Traits.ReplaceNthArg Traits.Base FunctionTraitsBase.IsVariadic
       free_CC free_CALLING_CONVENTION free_ARGS free_IS_NOEXCEPT free_REPLACE
       fn_cc fn_variadic fn_noexcept].
  rewrite ReplaceNthType_t_in_range by exact HN. cbn [bind].
  rewrite !(function_type_adjusted R _ _ (ReplaceNth N T' 0 Args))
    by (assumption || (apply adjust_parameters_ReplaceNth; assumption)).
  cbn [bind]. rewrite S1, Hcc. unfold STDEXT_CC_VARIADIC, STDEXT_CC_CDECL, conditional_t.
  cbn [effective_cc].
  rewrite MigratePointerAndRef_wrap by (destruct va; reflexivity).
  destruct va; [rewrite (Hva eq_refl)|]; reflexivity.
Qed.

Lemma ReplaceNthArg_member (k0 : reference_kind) (q : cv_qualifiers) (C : string)
    (R : ctype) (Args : list ctype) (f : fn_spec) (N : nat) (T T' : ctype) :
  canonical_signature P true R Args f ->
  adjust_parameter T = Ok T' ->
  N < List.length Args ->
  Traits.ReplaceNthArg
    (MemberFunctionTraits_members P CPP20_OR_LATER (member_spec_of f)
       (with_reference k0 (TMemberPointer q C (TFunction R Args f))) R C Args) N T =
  Ok (with_reference k0 (TMemberPointer q C (TFunction R (ReplaceNth N T' 0 Args) f))).
Proof.
  intros [HR [HA [Hcc [Hva [Hreg _]]]]] HT HN.
  destruct stringized_tokens as [S1 _].
  destruct declared_tokens as [D1 [D2 [D3 D4]]].
  destruct f as [c va k vo r n].
  cbn [fn_cc fn_variadic fn_const fn_volatile fn_ref fn_noexcept] in *.
  unfold MemberFunctionTraits_members, member_spec_of, FUNCTION_TRAITS_BASE_CLASS_member.
  cbn [Traits.ReplaceNthArg Traits.Base FunctionTraitsBase.IsVariadic
       member_CC member_CALLING_CONVENTION member_ARGS member_CONST member_VOLATILE
       member_REF member_IS_NOEXCEPT member_REPLACE
       fn_cc fn_variadic fn_const fn_volatile fn_ref fn_noexcept].
  rewrite ReplaceNthType_t_in_range by exact HN. cbn [bind].
  rewrite !(member_function_pointer_type_adjusted R _ _ _ (ReplaceNth N T' 0 Args))
    by (assumption || (apply adjust_parameters_ReplaceNth; assumption)).
  cbn [bind]. rewrite S1, D2, D3, D4, Hcc.
  unfold STDEXT_CC_VARIADIC, STDEXT_CC_CDECL, conditional_t.
  cbn [effective_cc].
  destruct va; [rewrite (Hva eq_refl)|]; rewrite MigrateCvAndRef_member; reflexivity.
Qed.

Lemma wrapping_of_wrap_function (w : free_wrapping) (R R' : ctype) (Args Args' : list ctype)
    (f f' : fn_spec) :
  wrapping_of (wrap_function w (TFunction R' Args' f')) =
  wrapping_of (wrap_function w (TFunction R Args f)).
Proof. destruct w as [k|q k]; destruct k; reflexivity. Qed.

Lemma wrapping_of_member (k : reference_kind) (q : cv_qualifiers) (C C' : string)
    (M M' : ctype) :
  wrapping_of (with_reference k (TMemberPointer q C' M')) =
  wrapping_of (with_reference k (TMemberPointer q C M)).
Proof. destruct k; reflexivity. Qed.

Lemma only_parameter_replaced_bases (N : nat) (T' : ctype) (tr tr' : Traits.t)
    (F F' R C : ctype) (Args : list ctype) (cc : CallingConvention) (va k vo : bool)
    (r : RefQualifier.t) (n : bool) :
  Traits.Base tr = FunctionTraitsBase.Build F R cc va C k vo r n Args ->
  Traits.Base tr' =
    FunctionTraitsBase.Build F' R cc va C k vo r n (ReplaceNth N T' 0 Args) ->
  N < List.length Args ->
  wrapping_of F' = wrapping_of F ->
  only_parameter_replaced N T' tr tr'.
Proof.
  intros Hb Hb' HN Hw. unfold only_parameter_replaced. rewrite Hb, Hb'.
  unfold FunctionTraitsBase.Args, FunctionTraitsBase.ArgCount.
  cbn [FunctionTraitsBase.ArgTypes FunctionTraitsBase.Type_ FunctionTraitsBase.ReturnType
       FunctionTraitsBase.CallingConvention FunctionTraitsBase.IsVariadic
       FunctionTraitsBase.Class FunctionTraitsBase.IsConst FunctionTraitsBase.IsVolatile
       FunctionTraitsBase.RefQualifier FunctionTraitsBase.IsNoexcept].
  rewrite ReplaceNth_length.
  repeat match goal with |- _ /\ _ => split end; try reflexivity; try exact Hw.
  - unfold static_assert, tuple_element_t.
    pose proof HN as HN'. apply Nat.ltb_lt in HN'. rewrite HN'. cbn [bind].
    rewrite nth_error_ReplaceNth. simpl. rewrite Nat.eqb_refl, HN'. reflexivity.
  - intros i Hi. rewrite nth_error_ReplaceNth. simpl.
    apply Nat.eqb_neq in Hi. rewrite Hi. reflexivity.
Qed.

(** C2, as amended.  Frame condition of [ReplaceNthArg].  For every
    acceptable callable type [F] of the toolchain with more than [N]
    parameters and every new type that can be the type of a parameter,
    [ReplaceNthArg] gives a type that [FunctionTraits] classifies again, whose
    parameter [N] is the new type as the language adjusts a parameter type
    (an array or function decays to a pointer, top-level cv-qualifiers are
    dropped), and whose other parameter types, parameter count, return type,
    calling convention, [noexcept], variadic flag, class, const, volatile and
    ref-qualifier are those of [F]; its outer reference, pointer and
    pointer-level cv-qualifiers are those of the [Type] member of the
    classification of [F], which is [F] unless [F] is a functor or a
    reference to one. *)
Theorem ReplaceNthArg_frame (F : ctype) (N : nat) (NewArgT NewArgT' : ctype) :
  canonical P classes F ->
  IsTraitsFunction_v P classes F = true ->
  adjust_parameter NewArgT = Ok NewArgT' ->
  exists tr,
    FunctionTraits P classes CPP20_OR_LATER F = Ok tr /\
    (IsFunctor_v P classes F = false ->
     FunctionTraitsBase.Type_ (Traits.Base tr) = F) /\
    (N < FunctionTraitsBase.ArgCount (Traits.Base tr) ->
     exists F' tr',
       Traits.ReplaceNthArg tr N NewArgT = Ok F' /\
       FunctionTraits P classes CPP20_OR_LATER F' = Ok tr' /\
       FunctionTraitsBase.Type_ (Traits.Base tr') = F' /\
       only_parameter_replaced N NewArgT' tr tr').
Proof.
  intros Hcan Hacc HT.
  pose proof (adjust_parameter_idempotent _ _ HT) as HT'.
  destruct (FunctionTraits_normal_form F Hcan Hacc)
    as [[w [R [Args [f [-> [Hsig HF]]]]]]
       |[k [q [C [R [Args [f [isf [Hsig [HF [Hisf HF0]]]]]]]]]]].
  - eexists. split; [exact HF|]. split; [reflexivity|].
    rewrite Base_free. unfold FunctionTraitsBase.ArgCount.
    cbn [FunctionTraitsBase.ArgTypes]. intros HN.
    pose proof (canonical_signature_ReplaceNth false R Args f N NewArgT' Hsig HT') as Hsig'.
    pose proof Hsig as [_ [_ [_ [_ [_ Hfree]]]]].
    destruct (Hfree eq_refl) as [_ Hab].
    exists (wrap_function w (TFunction R (ReplaceNth N NewArgT' 0 Args) f)). eexists.
    split; [apply ReplaceNthArg_free; assumption|].
    split.
    { rewrite FunctionTraits_free by exact Hab.
      apply FreeFunctionTraits_canonical. exact Hsig'. }
    split; [reflexivity|].
    eapply only_parameter_replaced_bases.
    + apply Base_free.
    + apply Base_free.
    + exact HN.
    + apply wrapping_of_wrap_function.
  - eexists. split; [exact HF|]. split.
    { intros E. rewrite E in Hisf. subst isf. rewrite (HF0 eq_refl). reflexivity. }
    cbn [set_IsFunctor Traits.Base Traits.ReplaceNthArg].
    rewrite Base_member. unfold FunctionTraitsBase.ArgCount.
    cbn [FunctionTraitsBase.ArgTypes]. intros HN.
    pose proof (canonical_signature_ReplaceNth true R Args f N NewArgT' Hsig HT') as Hsig'.
    exists (with_reference k
              (TMemberPointer q C (TFunction R (ReplaceNth N NewArgT' 0 Args) f))).
    eexists.
    split; [apply ReplaceNthArg_member; assumption|].
    split.
    { rewrite FunctionTraits_member.
      apply MemberFunctionTraits_canonical. exact Hsig'. }
    split; [reflexivity|].
    eapply only_parameter_replaced_bases.
    + cbn [set_IsFunctor Traits.Base]. apply Base_member.
    + apply Base_member.
    + exact HN.
    + apply wrapping_of_member.
Qed.

Lemma ReplaceNthArg_unfold (F : ctype) (tr : Traits.t) (N : nat) (NewArgT : ctype) :
  FunctionTraits P classes CPP20_OR_LATER F = Ok tr ->
  Traits.ReplaceNthArg tr N NewArgT =
  (NewArgsTupleT <- ReplaceNthType_t N NewArgT (FunctionTraitsBase.ArgTypes (Traits.Base tr)) ;;
   Traits.ReplaceArgsTuple tr NewArgsTupleT).
Proof.
  intros H. apply FunctionTraits_inv in H.
  destruct H as [[_ [_ [s [R [Args ->]]]]]
                |[[_ [_ [s [R [C [Args ->]]]]]]
                 |[_ [_ [M [s [R [C [Args [_ [_ ->]]]]]]]]]]]; reflexivity.
Qed.

(** C3.  Out-of-range [ReplaceNthArg].  For every acceptable callable type
    with [C] parameters and every index [N >= C] (every index when [C = 0]),
    [ReplaceNthArg] halts the translation on the [static_assert] of
    [ReplaceNthType], as member of the traits struct and as helper template
    [ReplaceNthArg_t]; and the operation never adds a parameter: the tuple it
    builds has [C] element types, and it only succeeds for an index below
    [C]. *)
Theorem ReplaceNthArg_out_of_range (F : ctype) (tr : Traits.t) (N : nat) (NewArgT : ctype) :
  IsTraitsFunction_v P classes F = true ->
  FunctionTraits P classes CPP20_OR_LATER F = Ok tr ->
  FunctionTraitsBase.ArgCount (Traits.Base tr) <= N ->
  Traits.ReplaceNthArg tr N NewArgT = Halt (static_assert_failed ReplaceNthType_msg) /\
  ReplaceNthArg_t P classes CPP20_OR_LATER F N NewArgT
    = Halt (static_assert_failed ReplaceNthType_msg) /\
  (forall N' T' NewArgsTupleT,
      ReplaceNthType_t N' T' (FunctionTraitsBase.ArgTypes (Traits.Base tr))
        = Ok NewArgsTupleT ->
      N' < FunctionTraitsBase.ArgCount (Traits.Base tr) /\
      List.length NewArgsTupleT = FunctionTraitsBase.ArgCount (Traits.Base tr)) /\
  (forall N' T' F',
      Traits.ReplaceNthArg tr N' T' = Ok F' ->
      N' < FunctionTraitsBase.ArgCount (Traits.Base tr)).
Proof.
  intros Hacc HF HN.
  assert (Hhalt : Traits.ReplaceNthArg tr N NewArgT
                  = Halt (static_assert_failed ReplaceNthType_msg)).
  { rewrite (ReplaceNthArg_unfold F tr N NewArgT HF).
    unfold ReplaceNthType_t, static_assert.
    replace (N <? List.length (FunctionTraitsBase.ArgTypes (Traits.Base tr))) with false
      by (symmetry; apply Nat.ltb_ge; exact HN).
    reflexivity. }
  assert (Htuple : forall N' T' NewArgsTupleT,
      ReplaceNthType_t N' T' (FunctionTraitsBase.ArgTypes (Traits.Base tr))
        = Ok NewArgsTupleT ->
      N' < FunctionTraitsBase.ArgCount (Traits.Base tr) /\
      List.length NewArgsTupleT = FunctionTraitsBase.ArgCount (Traits.Base tr)).
  { intros N' T' Ts'. unfold ReplaceNthType_t, static_assert, FunctionTraitsBase.ArgCount.
    destruct (N' <? List.length (FunctionTraitsBase.ArgTypes (Traits.Base tr))) eqn:E;
      [|discriminate].
    cbn [bind]. intros H. injection H as <-.
    apply Nat.ltb_lt in E. rewrite ReplaceNth_length. auto. }
  split; [exact Hhalt|]. split; [|split; [exact Htuple|]].
  - unfold ReplaceNthArg_t, with_traits, constrained, TRAITS_FUNCTION_C, static_assert.
    rewrite Hacc, HF. destruct CPP20_OR_LATER; exact Hhalt.
  - intros N' T' F' H. rewrite (ReplaceNthArg_unfold F tr N' T' HF) in H.
    destruct (ReplaceNthType_t N' T' (FunctionTraitsBase.ArgTypes (Traits.Base tr)))
      as [Ts'|] eqn:E; [|discriminate].
    apply (Htuple N' T' Ts' E).
Qed.

(** C8.  Functor and pointer to member.  For every class whose call operator
    has an address (one call operator that is not a template), classifying
    the class gives the classification of the pointer to member function
    type of that call operator: either both translations halt or both
    succeed, and then the classification record ([Traits.Base]: [Type], the
    return type, the parameter types, the calling convention, variadic,
    the class, const, volatile, the ref-qualifier and noexcept) is the same,
    and so is every transformation.  The two traits structs only differ in
    the flag [IsFunctor], which is not part of the record and by which the
    header tells the two paths apart: [true] for the class, [false] for the
    pointer to member. *)
Theorem functor_classification (q : cv_qualifiers) (K : string) (M : ctype) :
  address_of_call_operator P classes (TClass q K) = Ok M ->
  FunctionTraits P classes CPP20_OR_LATER (TClass q K) =
    fmap (set_IsFunctor true) (FunctionTraits P classes CPP20_OR_LATER M) /\
  (forall trm,
      FunctionTraits P classes CPP20_OR_LATER M = Ok trm ->
      Traits.IsFunctor trm = false /\
      exists trf,
        FunctionTraits P classes CPP20_OR_LATER (TClass q K) = Ok trf /\
        Traits.IsFunctor trf = true /\
        trf = set_IsFunctor true trm /\
        Traits.Base trf = Traits.Base trm) /\
  (forall trf,
      FunctionTraits P classes CPP20_OR_LATER (TClass q K) = Ok trf ->
      exists trm,
        FunctionTraits P classes CPP20_OR_LATER M = Ok trm /\
        trf = set_IsFunctor true trm).
Proof.
  intros HM.
  destruct (address_of_call_operator_inv _ _ HM) as [q' [K' [R [Args [f [HT ->]]]]]].
  injection HT as <- <-.
  assert (Heq :
    FunctionTraits P classes CPP20_OR_LATER (TClass q K) =
    fmap (set_IsFunctor true)
      (FunctionTraits P classes CPP20_OR_LATER (TMemberPointer no_cv K (TFunction R Args f)))).
  { pose proof (FunctionTraits_functor no_reference q K _ HM) as H1.
    pose proof (FunctionTraits_member no_reference no_cv K R Args f) as H2.
    cbn [with_reference] in H1, H2. rewrite H1, H2. reflexivity. }
  split; [exact Heq|]. split.
  - intros trm Htrm. split.
    + pose proof (FunctionTraits_member no_reference no_cv K R Args f) as H2.
      cbn [with_reference] in H2. rewrite H2 in Htrm.
      apply MemberFunctionTraits_inv in Htrm.
      destruct Htrm as [s [q0 [C [R0 [Args0 [f0 [_ ->]]]]]]]. reflexivity.
    + exists (set_IsFunctor true trm). rewrite Heq, Htrm. repeat split.
  - intros trf Htrf. rewrite Heq in Htrf.
    destruct (FunctionTraits P classes CPP20_OR_LATER
                (TMemberPointer no_cv K (TFunction R Args f))) as [trm|]; [|discriminate].
    exists trm. split; [reflexivity|]. injection Htrf as <-. reflexivity.
Qed.
End ClassificationProofs.

(* ================================================================== *)
(** * The scenarios of the specification, evaluated                     *)
(* ================================================================== *)

(** The header counts 154 specializations where [STDEXT_CC_REGCALL] is not
    defined. *)
Example specialization_count :
  List.length (FreeFunctionTraits_specializations Example.x86) +
  List.length (MemberFunctionTraits_specializations Example.x86) = 154.
Proof. reflexivity. Qed.

(** [int (const std::string &, double, int)]: return type [int], three
    parameters, parameter 1 is [double], neither variadic nor [noexcept];
    replacing parameter 0 with [float] gives [int (float, double, int)]. *)
Example scenario_free_function :
  exists tr,
    FunctionTraits Example.x86 Example.classes true Example.free_function = Ok tr /\
    FunctionTraitsBase.ReturnType (Traits.Base tr) = Example.int /\
    FunctionTraitsBase.ArgCount (Traits.Base tr) = 3 /\
    FunctionTraitsBase.Args (Traits.Base tr) 1 = Ok Example.double /\
    FunctionTraitsBase.IsVariadic (Traits.Base tr) = false /\
    FunctionTraitsBase.IsNoexcept (Traits.Base tr) = false /\
    Traits.ReplaceNthArg tr 0 Example.float =
      Ok (TFunction Example.int [Example.float; Example.double; Example.int] Example.plain).
Proof. eexists. split; [reflexivity|]. repeat split. Qed.

(** [void (int) const noexcept] of class [K]: a member function of [K],
    const, [noexcept], without ref-qualifier; adding the rvalue
    ref-qualifier gives [void (int) const && noexcept] of [K]. *)
Example scenario_member_function :
  exists tr,
    FunctionTraits Example.x86 Example.classes true Example.member_function = Ok tr /\
    FunctionTraitsBase.IsMemberFunction (Traits.Base tr) = true /\
    FunctionTraitsBase.Class (Traits.Base tr) = TClass no_cv "K" /\
    FunctionTraitsBase.IsConst (Traits.Base tr) = true /\
    FunctionTraitsBase.IsNoexcept (Traits.Base tr) = true /\
    FunctionTraitsBase.RefQualifier (Traits.Base tr) = RefQualifier.None /\
    Traits.AddRValueReference tr =
      Ok (TMemberPointer no_cv "K"
            (TFunction void [Example.int]
               (FnSpec Thiscall false true false RefQualifier.RValue true))).
Proof. eexists. split; [reflexivity|]. repeat split. Qed.

(** A class with two call operators, or with a call operator template, is
    not classified: the translation halts. *)
Example scenario_overloaded_functor :
  FunctionTraits Example.x86 Example.classes true (TClass no_cv "Overloaded")
    = Halt (static_assert_failed FunctionTraits_msg) /\
  FunctionTraits Example.x86 Example.classes true (TClass no_cv "GenericLambda")
    = Halt (static_assert_failed FunctionTraits_msg).
Proof. split; reflexivity. Qed.

(** On the 64-bit target a function declared [stdcall] is the [cdecl]
    function, and is classified so. *)
Example scenario_replaced_convention :
  function_type Example.x64 Example.int STDEXT_CC_STDCALL [Example.int] false false =
    Ok (TFunction Example.int [Example.int] Example.plain) /\
  exists tr,
    FunctionTraits Example.x64 Example.classes true
      (TFunction Example.int [Example.int] Example.plain) = Ok tr /\
    FunctionTraitsBase.CallingConvention (Traits.Base tr) = Cdecl /\
    Traits.ReplaceCallingConvention tr Stdcall =
      Ok (TFunction Example.int [Example.int] Example.plain).
Proof. split; [reflexivity|]. eexists. split; [reflexivity|]. split; reflexivity. Qed.

(* ================================================================== *)
(** * Where the specification fails as stated                            *)
(* ================================================================== *)

(** C2 as stated fails twice.  Replacing parameter 0 of
    [int (const std::string &, double, int)] with [const float] gives a
    function whose parameter 0 is [float], not [const float].  And for the
    reference [Functor &] to a functor the result is the bare pointer to
    member: the outer reference of the input is not kept. *)
Lemma ReplaceNthArg_frame_counterexample :
  (exists F',
      ReplaceNthArg_t Example.x86 Example.classes true Example.free_function 0
        Example.const_float = Ok F' /\
      ArgType_t Example.x86 Example.classes true F' 0 = Ok Example.float /\
      Example.float <> Example.const_float) /\
  (exists F',
      ReplaceNthArg_t Example.x86 Example.classes true
        (TLValueRef (TClass no_cv "Functor")) 0 Example.double = Ok F' /\
      is_lvalue_reference_v F' = false /\
      is_lvalue_reference_v (TLValueRef (TClass no_cv "Functor")) = true /\
      wrapping_of F' <> wrapping_of (TLValueRef (TClass no_cv "Functor"))).
Proof.
  split.
  - eexists. split; [reflexivity|]. split; [reflexivity|]. discriminate.
  - eexists. split; [reflexivity|]. split; [reflexivity|]. split; [reflexivity|].
    discriminate.
Qed.

(** C5 as stated fails for a functor: the call operator of [Functor] is
    already const, yet [AddConst] on [Functor] gives the pointer to member
    type of the call operator, which is not the class [Functor]. *)
Lemma idempotent_transformations_counterexample :
  exists tr,
    FunctionTraits Example.x86 Example.classes true (TClass no_cv "Functor") = Ok tr /\
    IsTraitsFunction_v Example.x86 Example.classes (TClass no_cv "Functor") = true /\
    FunctionTraitsBase.IsConst (Traits.Base tr) = true /\
    Traits.AddConst tr = Ok Example.call_operator_of_Functor /\
    Traits.AddConst tr <> Ok (TClass no_cv "Functor").
Proof.
  eexists. split; [reflexivity|]. split; [reflexivity|]. split; [reflexivity|].
  split; [reflexivity|]. discriminate.
Qed.

(* ================================================================== *)
(** * The theorems at concrete inputs                                   *)
(* ================================================================== *)

(** C1 at [void (int) const noexcept] of [K], taken through a reference to
    a const pointer to member. *)
Lemma classification_round_trip_witness :
  canonical_signature Example.x86 true void [Example.int] Example.const_noexcept /\
  exists tr,
    FunctionTraits Example.x86 Example.classes true
      (construct (member_function_pointer_category (CV true false) lvalue_reference)
         void [Example.int] "K" Example.const_noexcept) = Ok tr /\
    FunctionTraitsBase.ReturnType (Traits.Base tr) = void /\
    FunctionTraitsBase.ArgTypes (Traits.Base tr) = [Example.int] /\
    FunctionTraitsBase.ArgCount (Traits.Base tr) = 1 /\
    FunctionTraitsBase.CallingConvention (Traits.Base tr) = Thiscall /\
    FunctionTraitsBase.IsVariadic (Traits.Base tr) = false /\
    FunctionTraitsBase.IsNoexcept (Traits.Base tr) = true /\
    FunctionTraitsBase.Class (Traits.Base tr) = TClass no_cv "K" /\
    FunctionTraitsBase.IsConst (Traits.Base tr) = true /\
    FunctionTraitsBase.IsVolatile (Traits.Base tr) = false /\
    FunctionTraitsBase.RefQualifier (Traits.Base tr) = RefQualifier.None.
Proof.
  assert (H : canonical_signature Example.x86 true void [Example.int] Example.const_noexcept)
    by canonical_at_input.
  split; [exact H|].
  refine (classification_round_trip Example.x86 Example.classes true
            (member_function_pointer_category (CV true false) lvalue_reference)
            void [Example.int] "K" Example.const_noexcept H _).
  intros q k E. discriminate E.
Defined.

(** C2 at a reference to a const pointer to
    [int (const std::string &, double, int)], parameter 1 replaced with
    [const float]. *)
Lemma ReplaceNthArg_frame_witness :
  canonical Example.x86 Example.classes Example.reference_to_const_pointer /\
  IsTraitsFunction_v Example.x86 Example.classes Example.reference_to_const_pointer
    = true /\
  adjust_parameter Example.const_float = Ok Example.float /\
  exists tr,
    FunctionTraits Example.x86 Example.classes true Example.reference_to_const_pointer
      = Ok tr /\
    (IsFunctor_v Example.x86 Example.classes Example.reference_to_const_pointer = false ->
     FunctionTraitsBase.Type_ (Traits.Base tr) = Example.reference_to_const_pointer) /\
    (1 < FunctionTraitsBase.ArgCount (Traits.Base tr) ->
     exists F' tr',
       Traits.ReplaceNthArg tr 1 Example.const_float = Ok F' /\
       FunctionTraits Example.x86 Example.classes true F' = Ok tr' /\
       FunctionTraitsBase.Type_ (Traits.Base tr') = F' /\
       only_parameter_replaced 1 Example.float tr tr').
Proof.
  assert (Hcan : canonical Example.x86 Example.classes Example.reference_to_const_pointer)
    by canonical_at_input.
  split; [exact Hcan|]. split; [reflexivity|]. split; [reflexivity|].
  exact (ReplaceNthArg_frame Example.x86 Example.classes true
           Example.reference_to_const_pointer 1
           Example.const_float Example.float Hcan eq_refl eq_refl).
Defined.

(** C3 at [int (const std::string &, double, int)] and index 3. *)
Lemma ReplaceNthArg_out_of_range_witness :
  exists tr,
    IsTraitsFunction_v Example.x86 Example.classes Example.free_function = true /\
    FunctionTraits Example.x86 Example.classes true Example.free_function = Ok tr /\
    FunctionTraitsBase.ArgCount (Traits.Base tr) <= 3 /\
    Traits.ReplaceNthArg tr 3 Example.float =
      Halt (static_assert_failed ReplaceNthType_msg) /\
    ReplaceNthArg_t Example.x86 Example.classes true Example.free_function 3 Example.float =
      Halt (static_assert_failed ReplaceNthType_msg).
Proof.
  eexists. split; [reflexivity|]. split; [reflexivity|].
  assert (Hle : 3 <= 3) by lia.
  split; [exact Hle|].
  destruct (ReplaceNthArg_out_of_range Example.x86 Example.classes true
              Example.free_function _ 3 Example.float eq_refl eq_refl Hle)
    as [Hmember [Halias _]].
  split; [exact Hmember | exact Halias].
Defined.

(** C4 at a pointer to [int (const std::string &, double, int)]. *)
Lemma inapplicable_edit_is_identity_witness :
  canonical Example.x86 Example.classes Example.pointer_to_free_function /\
  IsFreeFunction_v (RemoveRefAndPtr Example.pointer_to_free_function) = true /\
  exists tr,
    FunctionTraits Example.x86 Example.classes true Example.pointer_to_free_function = Ok tr /\
    Traits.AddConst tr = Ok Example.pointer_to_free_function /\
    Traits.RemoveConst tr = Ok Example.pointer_to_free_function /\
    Traits.AddVolatile tr = Ok Example.pointer_to_free_function /\
    Traits.RemoveVolatile tr = Ok Example.pointer_to_free_function /\
    Traits.AddCV tr = Ok Example.pointer_to_free_function /\
    Traits.RemoveCV tr = Ok Example.pointer_to_free_function /\
    Traits.AddLValueReference tr = Ok Example.pointer_to_free_function /\
    Traits.AddRValueReference tr = Ok Example.pointer_to_free_function /\
    Traits.RemoveReference tr = Ok Example.pointer_to_free_function /\
    (forall NewClassT, is_class_v NewClassT = true ->
                       Traits.ReplaceClass tr NewClassT = Ok Example.pointer_to_free_function) /\
    Traits.ReplaceCallingConvention tr Thiscall = Ok Example.pointer_to_free_function.
Proof.
  assert (Hcan : canonical Example.x86 Example.classes Example.pointer_to_free_function) by canonical_at_input.
  split; [exact Hcan|]. split; [reflexivity|].
  exact (inapplicable_edit_is_identity Example.x86 Example.classes true
           Example.pointer_to_free_function Hcan eq_refl).
Defined.

(** C5 at the pointer to member [void (int) const noexcept] of [K]. *)
Lemma idempotent_transformations_witness :
  canonical Example.x86 Example.classes Example.member_function /\
  IsTraitsFunction_v Example.x86 Example.classes Example.member_function = true /\
  exists tr,
    FunctionTraits Example.x86 Example.classes true Example.member_function = Ok tr /\
    (IsFunctor_v Example.x86 Example.classes Example.member_function = false ->
     FunctionTraitsBase.Type_ (Traits.Base tr) = Example.member_function) /\
    idempotent_edits tr.
Proof.
  assert (Hcan : canonical Example.x86 Example.classes Example.member_function)
    by canonical_at_input.
  split; [exact Hcan|]. split; [reflexivity|].
  exact (idempotent_transformations Example.x86 Example.classes true
           Example.member_function Hcan eq_refl).
Defined.

(** C6 at [int (const std::string &, double, int)]. *)
Lemma classification_record_invariant_witness :
  exists tr,
    FunctionTraits Example.x86 Example.classes true Example.free_function = Ok tr /\
    FunctionTraitsBase.Class (Traits.Base tr) = void /\
    FunctionTraitsBase.IsMemberFunction (Traits.Base tr) = false /\
    FunctionTraitsBase.IsFreeFunction (Traits.Base tr) = true /\
    FunctionTraitsBase.IsConst (Traits.Base tr) = false /\
    FunctionTraitsBase.IsVolatile (Traits.Base tr) = false /\
    FunctionTraitsBase.RefQualifier (Traits.Base tr) = RefQualifier.None.
Proof.
  eexists. split; [reflexivity|].
  pose proof (classification_record_invariant Example.x86 Example.classes true
                Example.free_function _ eq_refl) as H.
  cbv zeta in H.
  destruct H as [[_ Hclass] [_ [Hmember [Hfree [_ Habsent]]]]].
  split; [exact (Hclass eq_refl)|].
  split; [reflexivity|]. split; [reflexivity|].
  exact (Habsent eq_refl).
Defined.


(** C8 at the class [Functor]. *)
Lemma functor_classification_witness :
  address_of_call_operator Example.x86 Example.classes (TClass no_cv "Functor")
    = Ok Example.call_operator_of_Functor /\
  FunctionTraits Example.x86 Example.classes true (TClass no_cv "Functor") =
    fmap (set_IsFunctor true)
      (FunctionTraits Example.x86 Example.classes true Example.call_operator_of_Functor).
Proof.
  split; [reflexivity|].
  exact (proj1 (functor_classification Example.x86 Example.classes true no_cv "Functor"
                  Example.call_operator_of_Functor eq_refl)).
Defined.

(** C9 at the signature strings of Clang for [float] and [int], with a
    64-bit [size_t]. *)
Lemma TypeName_extraction_witness :
  (16 <= 64)%Z /\
  (forall t, (tstring_view.size (Example.clang_signature t) < 2 ^ 64)%Z) /\
  (tstring_view.size (Example.clang_signature true)
   <= tstring_view.size (Example.clang_signature false) + 5)%Z /\
  (exists name,
      TypeNameImpl.Get true CLANG_OR_INTEL true 64 Example.clang_signature false
        = Ok name /\
      tstring_view.size name = 3%Z) /\
  TypeNameImpl.Get true CLANG_OR_INTEL true 64 Example.clang_signature true
    = Ok "float"%string /\
  TypeNameImpl.sanity_check true CLANG_OR_INTEL true 64 Example.clang_signature false
    = Ok tt.
Proof.
  assert (Hbits : (16 <= 64)%Z) by (vm_compute; discriminate).
  assert (Hfits : forall t, (tstring_view.size (Example.clang_signature t) < 2 ^ 64)%Z)
    by (intros t; destruct t; vm_compute; reflexivity).
  assert (Hlen : (tstring_view.size (Example.clang_signature true)
                  <= tstring_view.size (Example.clang_signature false) + 5)%Z)
    by (vm_compute; discriminate).
  split; [exact Hbits|]. split; [exact Hfits|]. split; [exact Hlen|].
  destruct (TypeName_extraction bool true CLANG_OR_INTEL true 64 Example.clang_signature
              Hbits Hfits false) as [Hget _].
  destruct (Hget _ eq_refl) as [Hsub [Hfloat Hcheck]].
  destruct (Hsub Hlen) as [_ Hname].
  split; [exact Hname|].
  split; [exact Hfloat | exact (Hcheck false)].
Defined.

(** C10 at a reference to the const class [Functor]. *)
Lemma Type_member_witness :
  exists tr,
    FunctionTraits Example.x86 Example.classes true Example.reference_to_const_Functor
      = Ok tr /\
    Traits.IsFunctor tr = true /\
    address_of_call_operator Example.x86 Example.classes (TClass no_cv "Functor")
      = Ok (FunctionTraitsBase.Type_ (Traits.Base tr)) /\
    FunctionTraitsBase.Type_ (Traits.Base tr) <> Example.reference_to_const_Functor.
Proof.
  eexists. split; [reflexivity|].
  destruct (Type_member Example.x86 Example.classes true
              Example.reference_to_const_Functor _ eq_refl)
    as [Hfunctor [_ Htype]].
  split; [exact Hfunctor|].
  destruct (Htype eq_refl) as [Haddr [_ [_ Hdiff]]].
  split; [exact Haddr | exact Hdiff].
Defined.

(* ================================================================== *)
(** * Further properties: the type-name extractor                       *)
(* ================================================================== *)

Section TypeNameSignature.

Local Open Scope string_scope.

Lemma length_append (a b : string) :
  String.length (a ++ b) = String.length a + String.length b.
Proof. induction a as [|c a IH]; simpl; [reflexivity | rewrite IH; reflexivity]. Qed.

Lemma append_assoc (a b c : string) : (a ++ b) ++ c = a ++ (b ++ c).
Proof. induction a as [|x a IH]; simpl; [reflexivity | rewrite IH; reflexivity]. Qed.

Lemma substring_all (s : string) : substring 0 (String.length s) s = s.
Proof. induction s as [|c s IH]; simpl; [reflexivity | rewrite IH; reflexivity]. Qed.

Lemma substring_prefix (a b : string) : substring 0 (String.length a) (a ++ b) = a.
Proof.
  induction a as [|c a IH]; simpl.
  - destruct b; reflexivity.
  - rewrite IH. reflexivity.
Qed.

Lemma substring_skip (a b : string) (n m : nat) :
  substring (String.length a + n) m (a ++ b) = substring n m b.
Proof. induction a as [|c a IH]; simpl; [reflexivity | exact IH]. Qed.

Lemma substring_middle (a b c : string) :
  substring (String.length a) (String.length b) (a ++ b ++ c) = b.
Proof.
  rewrite <- (Nat.add_0_r (String.length a)), substring_skip.
  apply substring_prefix.
Qed.

Lemma substring_suffix (a b : string) :
  substring (String.length a) (String.length b) (a ++ b) = b.
Proof.
  rewrite <- (Nat.add_0_r (String.length a)), substring_skip.
  apply substring_all.
Qed.

Variable T : Type.
Variable float : T.
Variable toolchain : Toolchain.
Variable CPP20_OR_LATER : bool.
Variable size_bits : Z.
Variable pretty : T -> string.

Hypothesis Hbits : (16 <= size_bits)%Z.
Hypothesis Hfits : forall t, (tstring_view.size (pretty t) < 2 ^ size_bits)%Z.

Lemma ENDS_WITH_suffix (p e : string) :
  (tstring_view.size (p ++ e) < 2 ^ size_bits)%Z ->
  TypeNameImpl.PRETTY_FUNCTION_FLOAT_ENDS_WITH CPP20_OR_LATER size_bits (p ++ e) e = Ok true.
Proof.
  intros Hs. unfold TypeNameImpl.PRETTY_FUNCTION_FLOAT_ENDS_WITH.
  unfold tstring_view.size in Hs |- *. rewrite length_append in Hs |- *.
  destruct CPP20_OR_LATER.
  - unfold tstring_view.ends_with. rewrite length_append.
    replace (String.length p + String.length e - String.length e) with (String.length p) by lia.
    rewrite substring_suffix, String.eqb_refl.
    replace (String.length e <=? String.length p + String.length e)%nat with true
      by (symmetry; apply Nat.leb_le; lia).
    reflexivity.
  - rewrite wrap_small by lia.
    unfold tstring_view.substr, tstring_view.size. rewrite length_append.
    replace (Z.of_nat (String.length p + String.length e) <?
             Z.of_nat (String.length p + String.length e) - Z.of_nat (String.length e))%Z
      with false by (symmetry; apply Z.ltb_ge; lia).
    rewrite npos_value by exact Hbits.
    rewrite Z.min_r by lia.
    replace (Z.to_nat (Z.of_nat (String.length p + String.length e) - Z.of_nat (String.length e)))
      with (String.length p) by lia.
    replace (Z.to_nat (Z.of_nat (String.length p + String.length e) -
                       (Z.of_nat (String.length p + String.length e) - Z.of_nat (String.length e))))
      with (String.length e) by lia.
    unfold bind. rewrite substring_suffix, String.eqb_refl. reflexivity.
Qed.

Lemma GetTypeNameOffset_of_signature (prefix suffix : string) :
  signature_format toolchain prefix suffix ->
  pretty float = prefix ++ "float" ++ suffix ->
  TypeNameImpl.GetTypeNameOffset float toolchain CPP20_OR_LATER size_bits pretty =
  Ok (Z.of_nat (String.length prefix)).
Proof.
  intros Hfmt Hfloat.
  pose proof (Hfits float) as Hsz.
  unfold TypeNameImpl.GetTypeNameOffset, TypeNameImpl.GetPrettyFunction.
  destruct toolchain; cbn [signature_format] in Hfmt; try contradiction;
    destruct Hfmt as [[p ->] ->]; cbn [bind];
    rewrite Hfloat in *.
  - replace ((p ++ "<") ++ "float" ++ ">(void) noexcept")
      with (p ++ "<float>(void) noexcept") in *
      by (rewrite append_assoc; reflexivity).
    rewrite ENDS_WITH_suffix by exact Hsz. cbn [bind static_assert].
    unfold tstring_view.size in *. rewrite !length_append in *. cbn [String.length] in *.
    rewrite wrap_small by lia. f_equal. lia.
  - replace ((p ++ "= ") ++ "float" ++ "]") with (p ++ "= float]") in *
      by (rewrite append_assoc; reflexivity).
    rewrite ENDS_WITH_suffix by exact Hsz. cbn [bind].
    unfold tstring_view.size in *. rewrite !length_append in *. cbn [String.length] in *.
    rewrite wrap_small by lia. f_equal. lia.
  - replace ((p ++ "= ") ++ "float" ++ "]") with (p ++ "= float]") in *
      by (rewrite append_assoc; reflexivity).
    rewrite ENDS_WITH_suffix by exact Hsz. cbn [bind static_assert].
    unfold tstring_view.size in *. rewrite !length_append in *. cbn [String.length] in *.
    rewrite wrap_small by lia. f_equal. lia.
Qed.

Lemma Get_at_calibrated_offset (name : T -> string) (prefix suffix : string) :
  toolchain <> UNKNOWN_COMPILER ->
  (forall t, pretty t = prefix ++ name t ++ suffix) ->
  name float = "float" ->
  TypeNameImpl.GetTypeNameOffset float toolchain CPP20_OR_LATER size_bits pretty =
    Ok (Z.of_nat (String.length prefix)) ->
  forall t, TypeNameImpl.Get float toolchain CPP20_OR_LATER size_bits pretty t = Ok (name t).
Proof.
  intros Hknown Hsig Hname Hoff t.
  assert (Lt : String.length (pretty t) =
               String.length prefix + (String.length (name t) + String.length suffix))
    by (rewrite Hsig, !length_append; reflexivity).
  assert (Lf : String.length (pretty float) =
               String.length prefix + (5 + String.length suffix))
    by (rewrite Hsig, Hname, !length_append; reflexivity).
  pose proof (Hfits t) as Ht. pose proof (Hfits float) as Hf.
  unfold tstring_view.size in Ht, Hf. rewrite Lt in Ht. rewrite Lf in Hf.
  unfold TypeNameImpl.Get. rewrite Hoff.
  assert (Hpt : TypeNameImpl.GetPrettyFunction toolchain pretty t = Ok (pretty t))
    by (unfold TypeNameImpl.GetPrettyFunction; destruct toolchain; congruence).
  rewrite Hpt. cbn [bind].
  rewrite (GetTypeNameLen_value T float toolchain size_bits pretty Hbits Hfits t Hknown)
    by (unfold tstring_view.size; rewrite ?Lt, ?Lf; lia).
  cbn [bind]. unfold tstring_view.substr, tstring_view.size. rewrite Lt, Lf.
  replace (Z.of_nat (String.length prefix + (String.length (name t) + String.length suffix)) <?
           Z.of_nat (String.length prefix))%Z with false
    by (symmetry; apply Z.ltb_ge; lia).
  rewrite Z.min_l by lia.
  rewrite Nat2Z.id.
  replace (Z.to_nat (5 + (Z.of_nat (String.length prefix +
                                    (String.length (name t) + String.length suffix)) -
                          Z.of_nat (String.length prefix + (5 + String.length suffix)))))
    with (String.length (name t)) by lia.
  rewrite Hsig, substring_middle. reflexivity.
Qed.

Lemma ENDS_WITH_false (s e : string) :
  (tstring_view.size s < 2 ^ size_bits)%Z ->
  (Z.of_nat (String.length e) < 65536)%Z ->
  tstring_view.ends_with s e = false ->
  TypeNameImpl.PRETTY_FUNCTION_FLOAT_ENDS_WITH CPP20_OR_LATER size_bits s e <> Ok true.
Proof.
  intros Hs He Hends Htrue.
  destruct (ENDS_WITH_true CPP20_OR_LATER size_bits Hbits s e Hs He Htrue) as [Hle Hsub].
  unfold tstring_view.ends_with in Hends.
  rewrite Hsub, String.eqb_refl in Hends.
  replace (String.length e <=? String.length s)%nat with true in Hends
    by (symmetry; apply Nat.leb_le; exact Hle).
  discriminate.
Qed.

Lemma ENDS_WITH_decided (s e : string) :
  (tstring_view.size s < 2 ^ size_bits)%Z ->
  (Z.of_nat (String.length e) < 65536)%Z ->
  String.length e <= String.length s ->
  TypeNameImpl.PRETTY_FUNCTION_FLOAT_ENDS_WITH CPP20_OR_LATER size_bits s e =
  Ok (tstring_view.ends_with s e).
Proof.
  intros Hs He Hle.
  unfold TypeNameImpl.PRETTY_FUNCTION_FLOAT_ENDS_WITH.
  destruct CPP20_OR_LATER; [reflexivity|].
  unfold tstring_view.size in Hs |- *.
  rewrite wrap_small by lia.
  unfold tstring_view.substr, tstring_view.size, tstring_view.ends_with.
  replace (Z.of_nat (String.length s) <?
           Z.of_nat (String.length s) - Z.of_nat (String.length e))%Z
    with false by (symmetry; apply Z.ltb_ge; lia).
  rewrite npos_value by exact Hbits.
  rewrite Z.min_r by lia.
  replace (Z.to_nat (Z.of_nat (String.length s) - Z.of_nat (String.length e)))
    with (String.length s - String.length e) by lia.
  replace (Z.to_nat (Z.of_nat (String.length s) -
                     (Z.of_nat (String.length s) - Z.of_nat (String.length e))))
    with (String.length e) by lia.
  replace (String.length e <=? String.length s)%nat with true
    by (symmetry; apply Nat.leb_le; exact Hle).
  reflexivity.
Qed.

(** X2.  [TypeName_v] on the second signature format of GCC, where the
    name of [T] is followed by a semicolon and further text: when the string
    of [float] does not end with [= float]] and the last [= float;] in it is
    the one of the probe, [TypeName_v<T>] is exactly the name of [T]. *)
Theorem TypeName_v_of_GCC_signature (name : T -> string) (p rest : string) :
  toolchain = GCC ->
  (forall t, pretty t = (p ++ "= ") ++ name t ++ ";" ++ rest) ->
  name float = "float" ->
  tstring_view.ends_with (pretty float) "= float]" = false ->
  tstring_view.rfind size_bits (pretty float) "= float;" = Z.of_nat (String.length p) ->
  forall t, TypeName_v float toolchain CPP20_OR_LATER size_bits pretty t = Ok (name t).
Proof.
  intros Hgcc Hsig Hname Hends Hrfind.
  assert (Hknown : toolchain <> UNKNOWN_COMPILER) by (rewrite Hgcc; discriminate).
  apply (Get_at_calibrated_offset name (p ++ "= ") (";" ++ rest) Hknown Hsig Hname).
  pose proof (Hfits float) as Hf.
  assert (Lf : String.length (pretty float) =
               String.length p + (2 + (5 + (1 + String.length rest))))
    by (rewrite Hsig, Hname, !length_append; cbn [String.length]; lia).
  unfold TypeNameImpl.GetTypeNameOffset, TypeNameImpl.GetPrettyFunction.
  rewrite Hgcc. cbn [bind].
  rewrite ENDS_WITH_decided
    by (try exact Hf; try (cbn; lia); rewrite Lf; cbn [String.length]; lia).
  rewrite Hends, Hrfind.
  unfold tstring_view.size in Hf. rewrite Lf in Hf.
  rewrite npos_value by exact Hbits.
  replace (Z.of_nat (String.length p) =? 2 ^ size_bits - 1)%Z with false
    by (symmetry; apply Z.eqb_neq; lia).
  cbn [negb static_assert bind].
  rewrite wrap_small by lia. rewrite length_append. cbn [String.length].
  f_equal. lia.
Qed.

(** X3.  A signature string of [float] with none of the endings the
    toolchain branch expects ([<float>(void) noexcept] for Microsoft,
    [= float]] for Clang and Intel, that or some [= float;] for GCC) never
    gives a name: [TypeName_v<T>] halts the translation for every [T], and so
    does the self-check; an unknown compiler halts it as well. *)
Theorem changed_signature_format_halts :
  match toolchain with
  | MSC_VER => tstring_view.ends_with (pretty float) "<float>(void) noexcept" = false
  | CLANG_OR_INTEL => tstring_view.ends_with (pretty float) "= float]" = false
  | GCC => tstring_view.ends_with (pretty float) "= float]" = false /\
           tstring_view.rfind size_bits (pretty float) "= float;" =
           tstring_view.npos size_bits
  | UNKNOWN_COMPILER => True
  end ->
  (forall t, exists d, TypeName_v float toolchain CPP20_OR_LATER size_bits pretty t = Halt d) /\
  (forall vs2017, exists d,
      TypeNameImpl.sanity_check float toolchain CPP20_OR_LATER size_bits pretty vs2017
      = Halt d).
Proof.
  intros Hfmt.
  assert (Hoff : exists d,
             TypeNameImpl.GetTypeNameOffset float toolchain CPP20_OR_LATER size_bits pretty
             = Halt d).
  { unfold TypeNameImpl.GetTypeNameOffset, TypeNameImpl.GetPrettyFunction.
    destruct toolchain; cbn [bind].
    - pose proof (ENDS_WITH_false (pretty float) "<float>(void) noexcept" (Hfits float)
                    ltac:(cbn; lia) Hfmt) as Hne.
      destruct (TypeNameImpl.PRETTY_FUNCTION_FLOAT_ENDS_WITH CPP20_OR_LATER size_bits
                  (pretty float) "<float>(void) noexcept") as [[|]|d];
        [congruence | eexists; reflexivity | eexists; reflexivity].
    - destruct Hfmt as [Hends Hrfind].
      pose proof (ENDS_WITH_false (pretty float) "= float]" (Hfits float)
                    ltac:(cbn; lia) Hends) as Hne.
      destruct (TypeNameImpl.PRETTY_FUNCTION_FLOAT_ENDS_WITH CPP20_OR_LATER size_bits
                  (pretty float) "= float]") as [[|]|d];
        [congruence | | eexists; reflexivity].
      rewrite Hrfind, Z.eqb_refl. eexists; reflexivity.
    - pose proof (ENDS_WITH_false (pretty float) "= float]" (Hfits float)
                    ltac:(cbn; lia) Hfmt) as Hne.
      destruct (TypeNameImpl.PRETTY_FUNCTION_FLOAT_ENDS_WITH CPP20_OR_LATER size_bits
                  (pretty float) "= float]") as [[|]|d];
        [congruence | eexists; reflexivity | eexists; reflexivity].
    - eexists; reflexivity. }
  destruct Hoff as [d Hoff].
  assert (Hget : forall t, exists d',
             TypeNameImpl.Get float toolchain CPP20_OR_LATER size_bits pretty t = Halt d').
  { intros t. unfold TypeNameImpl.Get. rewrite Hoff.
    destruct (TypeNameImpl.GetPrettyFunction toolchain pretty t); eexists; reflexivity. }
  split; [exact Hget|].
  intros vs. unfold TypeNameImpl.sanity_check.
  destruct (Hget float) as [d' ->]. eexists; reflexivity.
Qed.

(** X1.  [TypeName_v] on the signature formats of Microsoft, Clang, Intel
    and GCC (first format).  When the signature string of every type is one
    fixed prefix, the name of the type and one fixed suffix, in the format
    the toolchain branch of [GetTypeNameOffset] expects, and the name of the
    probe type is [float], then [TypeName_v<T>] is exactly the name of [T], for
    every [T] (shorter or longer than [float], empty included). *)
Theorem TypeName_v_of_signature (name : T -> string) (prefix suffix : string) :
  signature_format toolchain prefix suffix ->
  (forall t, pretty t = prefix ++ name t ++ suffix) ->
  name float = "float" ->
  forall t, TypeName_v float toolchain CPP20_OR_LATER size_bits pretty t = Ok (name t).
Proof.
  intros Hfmt Hsig Hname.
  assert (Hfloat : pretty float = prefix ++ "float" ++ suffix)
    by (rewrite Hsig, Hname; reflexivity).
  assert (Hknown : toolchain <> UNKNOWN_COMPILER)
    by (intros E; rewrite E in Hfmt; exact Hfmt).
  apply (Get_at_calibrated_offset name prefix suffix Hknown Hsig Hname).
  exact (GetTypeNameOffset_of_signature prefix suffix Hfmt Hfloat).
Qed.

End TypeNameSignature.

(* ================================================================== *)
(** * Further properties: [ForEach]                                     *)
(* ================================================================== *)

(** X4.  [IsEqualTo], the comparison the self-check uses before Visual
    Studio 2019, is equality of the two views: it returns [true] exactly when
    they have the same size and the same characters. *)
Theorem IsEqualTo_is_equality (typeName expectedTypeName : string) :
  TypeNameImpl.IsEqualTo typeName expectedTypeName = true <->
  typeName = expectedTypeName.
Proof. rewrite IsEqualTo_eqb. apply String.eqb_eq. Qed.

Lemma is_ok_process_from {S : Type} (functor : ForEachFunctorT S) :
  forall r i,
    is_ok (process_from functor r i) = true <->
    forall j, i <= j < i + r -> is_ok (functor j) = true.
Proof.
  induction r as [|r IH]; intros i; cbn [process_from].
  - split; [intros _ j Hj; lia | reflexivity].
  - split.
    + intros H j Hj.
      destruct (condition functor i) as [call|d] eqn:Ei; [|discriminate].
      cbn [bind] in H.
      destruct (process_from functor r (i + 1)) as [next|d] eqn:En; [|discriminate].
      destruct (Nat.eq_dec j i) as [->|Hne]; [rewrite Ei; reflexivity|].
      apply (proj1 (IH (i + 1))); [rewrite En; reflexivity | lia].
    + intros H.
      pose proof (H i ltac:(lia)) as Hi.
      destruct (condition functor i) as [call|d]; [|discriminate]. cbn [bind].
      assert (Hn : is_ok (process_from functor r (i + 1)) = true)
        by (apply IH; intros j Hj; apply H; lia).
      destruct (process_from functor r (i + 1)); [reflexivity | discriminate].
Qed.

Lemma is_ok_ForEach {S : Type} (CPP20_OR_LATER : bool) (N : nat)
    (functor : ForEachFunctorT S) :
  is_ok (ForEach CPP20_OR_LATER N functor) = true <->
  IsForEachFunctor_v functor = Ok true /\
  forall i, i < N -> is_ok (functor i) = true.
Proof.
  assert (H : ForEach CPP20_OR_LATER N functor = ForEach true N functor)
    by (destruct CPP20_OR_LATER; [reflexivity | apply ForEach_language_version]).
  rewrite H. unfold ForEach, process, FOR_EACH_FUNCTOR_C.
  destruct (IsForEachFunctor_v functor) as [[]|d]; cbn [static_assert bind].
  - rewrite Nat.sub_0_r, is_ok_process_from.
    split.
    + intros Hall. split; [reflexivity|]. intros i Hi. apply Hall. lia.
    + intros [_ Hall] j Hj. apply Hall. lia.
  - split; [discriminate | intros [E _]; discriminate].
  - split; [discriminate | intros [E _]; discriminate].
Qed.

Lemma is_ok_converted {S : Type} (convertible : call_type -> bool)
    (c : call_type * (S -> bool * S)) :
  is_ok (converted convertible c) = convertible (fst c).
Proof. unfold converted. destruct (convertible (fst c)); reflexivity. Qed.

Lemma contextually_convertible_deduced (R : call_type) :
  contextually_convertible (deduced_return_type R) = contextually_convertible R.
Proof. destruct R; reflexivity. Qed.

(** An element call that instantiates with a type accepted by [convertible]. *)
Lemma is_ok_element_call {Ty S : Type} (convertible : call_type -> bool)
    (after : call_type -> call_type) (TupleT : list Ty)
    (functor : ForEachTupleFunctorT Ty S) (I : nat) (T : Ty) :
  nth_error TupleT I = Some T ->
  is_ok (TupleElement_t <- tuple_element_t I TupleT ;;
         c <- instantiate (tuple_call_operator_of functor I TupleElement_t) ;;
         converted convertible (after (fst c), snd c)) = true <->
  exists R code,
    instantiate (tuple_call_operator_of functor I T) = Ok (R, code) /\
    convertible (after R) = true.
Proof.
  intros HT. unfold tuple_element_t. rewrite HT. cbn [bind].
  destruct (instantiate (tuple_call_operator_of functor I T)) as [[R code]|d];
    cbn [bind fst snd].
  - rewrite is_ok_converted. cbn [fst]. split.
    + intros H. exists R, code. split; [reflexivity | exact H].
    + intros [R' [code' [E H]]]. injection E as <- <-. exact H.
  - split; [discriminate | intros [R' [code' [E _]]]; discriminate E].
Qed.

(** X5.  [ForEach<N>] translates exactly when [IsForEachFunctor_v] holds of
    the functor and the call of the functor can be instantiated, and
    converted to [bool], at every index below [N].  [IsForEachFunctor_v]
    only asks for the type of the call at index 0: for a call operator
    declared [bool] it does not instantiate the definition, so [ForEach<0>]
    translates for such a functor whatever its definition. *)
Theorem ForEach_instantiates_every_index {S : Type} (CPP20_OR_LATER : bool) (N : nat)
    (functor : ForEachFunctorT S) :
  (is_ok (ForEach CPP20_OR_LATER N functor) = true <->
   IsForEachFunctor_v functor = Ok true /\
   forall i, i < N -> is_ok (condition functor i) = true) /\
  (forall definition,
      call_operator_of functor 0 = returns Bool definition ->
      IsForEachFunctor_v functor = Ok true /\
      is_ok (ForEach CPP20_OR_LATER 0 functor) = true).
Proof.
  split; [apply is_ok_ForEach|].
  intros definition H0.
  assert (Hv : IsForEachFunctor_v functor = Ok true)
    by (unfold IsForEachFunctor_v; rewrite H0; reflexivity).
  split; [exact Hv|].
  apply is_ok_ForEach. split; [exact Hv|]. intros i Hi. lia.
Qed.

(** X6.  The C++17 and the C++20 implementation of [ForEach] (the class
    [Private::ForEachImpl], the lambda [process]) are the same function.
    Those of [ForEachTupleType] are the same function on every functor whose
    calls at the elements of the tuple return [bool], but not on every
    functor: the class [Private::ProcessTupleType] declares its call
    operator [bool] and converts what the functor returns, the lambda
    [processTupleType] returns it as it is.  With a functor that returns
    [int] at the elements only C++17 translates; with one that returns an
    object with an explicit conversion to [bool] after the first element
    only C++20 does. *)
Theorem ForEach_language_versions :
  (forall (S : Type) (N : nat) (functor : ForEachFunctorT S),
      ForEach false N functor = ForEach true N functor) /\
  (forall (S Ty : Type) (void : Ty) (TupleT : list Ty)
          (functor : ForEachTupleFunctorT Ty S),
      (forall I T R code,
          nth_error TupleT I = Some T ->
          instantiate (tuple_call_operator_of functor I T) = Ok (R, code) ->
          R = Bool) ->
      ForEachTupleType void false TupleT functor =
      ForEachTupleType void true TupleT functor) /\
  (is_ok (ForEachTupleType void false [Example.int] Example.int_unless_void) = true /\
   is_ok (ForEachTupleType void true [Example.int] Example.int_unless_void) = false) /\
  (is_ok (ForEachTupleType void false [Example.int; Example.int]
            Example.explicit_after_first) = false /\
   is_ok (ForEachTupleType void true [Example.int; Example.int]
            Example.explicit_after_first) = true).
Proof.
  split; [intros S N functor; apply ForEach_language_version|].
  split; [|split; split; reflexivity].
  intros S Ty void TupleT functor Hbool.
  unfold ForEachTupleType, Private_ProcessTupleType.ProcessTupleType.
  destruct (FOR_EACH_TUPLE_FUNCTOR_C void functor) as [[]|d]; cbn [bind]; [|reflexivity].
  destruct TupleT as [|T0 Ts]; [reflexivity|].
  change (negb (List.length (T0 :: Ts) =? 0)) with true. cbv iota.
  rewrite ForEach_language_version.
  set (TupleT := T0 :: Ts) in *.
  assert (Helement : forall j, j < List.length TupleT ->
            exists T, nth_error TupleT j = Some T).
  { intros j Hj. destruct (nth_error TupleT j) as [T|] eqn:E; [exists T; reflexivity|].
    apply nth_error_None in E. lia. }
  assert (Hsame : forall j, j < List.length TupleT ->
            condition (Private_ProcessTupleType.call_operator TupleT functor) j =
            condition (processTupleType TupleT functor) j).
  { intros j Hj. destruct (Helement j Hj) as [T HT].
    rewrite condition_ProcessTupleType, condition_processTupleType.
    unfold tuple_element_t. rewrite HT. cbn [bind].
    destruct (instantiate (tuple_call_operator_of functor j T)) as [[R code]|d] eqn:E;
      [|reflexivity].
    rewrite (Hbool j T R code HT E). reflexivity. }
  unfold ForEach.
  assert (Hclass : FOR_EACH_FUNCTOR_C
                     (Private_ProcessTupleType.call_operator TupleT functor) = Ok tt)
    by reflexivity.
  rewrite Hclass. cbn [bind].
  unfold process. rewrite Nat.sub_0_r.
  destruct (instantiate (tuple_call_operator_of functor 0 T0)) as [[R code]|d] eqn:E0.
  - assert (Hlambda : FOR_EACH_FUNCTOR_C (processTupleType TupleT functor) = Ok tt).
    { unfold FOR_EACH_FUNCTOR_C, IsForEachFunctor_v, processTupleType.
      cbn [call_operator_of decltype]. unfold fmap, tuple_element_t.
      subst TupleT. cbn [nth_error bind]. rewrite E0. cbn [bind fst].
      rewrite (Hbool 0 T0 R code eq_refl E0). reflexivity. }
    rewrite Hlambda. cbn [bind].
    apply process_from_ext. intros j Hj. apply Hsame. lia.
  - assert (Hlambda : FOR_EACH_FUNCTOR_C (processTupleType TupleT functor) = Halt d).
    { unfold FOR_EACH_FUNCTOR_C, IsForEachFunctor_v, processTupleType.
      cbn [call_operator_of decltype]. unfold fmap, tuple_element_t.
      subst TupleT. cbn [nth_error bind]. rewrite E0. reflexivity. }
    rewrite Hlambda. cbn [bind].
    subst TupleT. cbn [List.length process_from].
    rewrite condition_ProcessTupleType. unfold tuple_element_t.
    cbn [nth_error bind]. rewrite E0. reflexivity.
Qed.

(** X22.  [ForEachTupleType] translates exactly when [IsForEachTupleFunctor_v]
    holds of the functor (the call at index 0 and [void] has type [bool])
    and, at every index of the tuple with the element type found there, the
    call of the functor can be instantiated and what it returns converts to
    [bool]: implicitly in C++17; in a condition in C++20, where also the
    return type deduced from the call at the first element has to be
    [bool].  For the empty tuple only [IsForEachTupleFunctor_v] is left. *)
Theorem ForEachTupleType_instantiates_every_element {S Ty : Type} (void : Ty)
    (TupleT : list Ty) (functor : ForEachTupleFunctorT Ty S) :
  (is_ok (ForEachTupleType void false TupleT functor) = true <->
   IsForEachTupleFunctor_v void functor = Ok true /\
   forall I T,
     nth_error TupleT I = Some T ->
     exists R code,
       instantiate (tuple_call_operator_of functor I T) = Ok (R, code) /\
       implicitly_convertible R = true) /\
  (is_ok (ForEachTupleType void true TupleT functor) = true <->
   IsForEachTupleFunctor_v void functor = Ok true /\
   (forall I T,
       nth_error TupleT I = Some T ->
       exists R code,
         instantiate (tuple_call_operator_of functor I T) = Ok (R, code) /\
         contextually_convertible R = true) /\
   (forall T,
       nth_error TupleT 0 = Some T ->
       exists R code,
         instantiate (tuple_call_operator_of functor 0 T) = Ok (R, code) /\
         deduced_return_type R = Bool)).
Proof.
  assert (Helement : forall j, j < List.length TupleT ->
            exists T, nth_error TupleT j = Some T).
  { intros j Hj. destruct (nth_error TupleT j) as [T|] eqn:E; [exists T; reflexivity|].
    apply nth_error_None in E. lia. }
  assert (Hindex : forall j T, nth_error TupleT j = Some T -> j < List.length TupleT).
  { intros j T E. apply nth_error_Some. congruence. }
  unfold ForEachTupleType, Private_ProcessTupleType.ProcessTupleType.
  pose proof (FOR_EACH_TUPLE_FUNCTOR_C_ok void functor) as Hc.
  destruct (FOR_EACH_TUPLE_FUNCTOR_C void functor) as [[]|d]; cbn [bind].
  - assert (Hv : IsForEachTupleFunctor_v void functor = Ok true)
      by (apply Hc; reflexivity).
    destruct (negb (List.length TupleT =? 0)) eqn:Hempty.
    + assert (H0 : 0 < List.length TupleT).
      { destruct TupleT; [discriminate Hempty | simpl; lia]. }
      split.
      * rewrite is_ok_ForEach. split.
        -- intros [_ Hall]. split; [exact Hv|]. intros I T HT.
           pose proof (Hall I (Hindex I T HT)) as H.
           rewrite condition_ProcessTupleType in H.
           apply (is_ok_element_call implicitly_convertible (fun R => R)
                    TupleT functor I T HT).
           destruct (tuple_element_t I TupleT) as [T'|]; [|discriminate H].
           cbn [bind] in H |- *.
           destruct (instantiate (tuple_call_operator_of functor I T')) as [[R c]|];
             exact H.
        -- intros [_ Hall]. split; [reflexivity|]. intros I HI.
           destruct (Helement I HI) as [T HT].
           rewrite condition_ProcessTupleType.
           pose proof (proj2 (is_ok_element_call implicitly_convertible (fun R => R)
                                TupleT functor I T HT) (Hall I T HT)) as H.
           destruct (tuple_element_t I TupleT) as [T'|]; [|discriminate H].
           cbn [bind] in H |- *.
           destruct (instantiate (tuple_call_operator_of functor I T')) as [[R c]|];
             exact H.
      * rewrite is_ok_ForEach. split.
        -- intros [Hfirst Hall]. split; [exact Hv|]. split.
           ++ intros I T HT.
              pose proof (Hall I (Hindex I T HT)) as H.
              rewrite condition_processTupleType in H.
              apply (is_ok_element_call contextually_convertible deduced_return_type
                       TupleT functor I T HT) in H.
              destruct H as [R [code [E H]]]. exists R, code.
              rewrite contextually_convertible_deduced in H. split; assumption.
           ++ intros T HT.
              unfold IsForEachFunctor_v, processTupleType in Hfirst.
              cbn [call_operator_of decltype] in Hfirst. unfold fmap in Hfirst.
              unfold tuple_element_t in Hfirst. rewrite HT in Hfirst.
              cbn [bind] in Hfirst.
              destruct (instantiate (tuple_call_operator_of functor 0 T))
                as [[R code]|]; [|discriminate Hfirst].
              cbn [bind fst] in Hfirst. exists R, code. split; [reflexivity|].
              destruct (deduced_return_type R); (reflexivity || discriminate Hfirst).
        -- intros [_ [Hall Hfirst]]. split.
           ++ destruct (Helement 0 H0) as [T HT].
              destruct (Hfirst T HT) as [R [code [E HR]]].
              unfold IsForEachFunctor_v, processTupleType.
              cbn [call_operator_of decltype]. unfold fmap, tuple_element_t.
              rewrite HT. cbn [bind]. rewrite E. cbn [bind fst]. rewrite HR.
              reflexivity.
           ++ intros I HI. destruct (Helement I HI) as [T HT].
              rewrite condition_processTupleType.
              apply (is_ok_element_call contextually_convertible deduced_return_type
                       TupleT functor I T HT).
              destruct (Hall I T HT) as [R [code [E H]]]. exists R, code.
              rewrite contextually_convertible_deduced. split; assumption.
    + assert (Hnil : TupleT = []).
      { destruct TupleT; [reflexivity | discriminate Hempty]. }
      subst TupleT. split.
      * split; [|reflexivity]. intros _. split; [exact Hv|].
        intros [|I] T HT; discriminate HT.
      * split; [|reflexivity]. intros _. split; [exact Hv|]. split.
        -- intros [|I] T HT; discriminate HT.
        -- intros T HT. discriminate HT.
  - assert (Hv : IsForEachTupleFunctor_v void functor <> Ok true).
    { intros E. apply Hc in E. discriminate E. }
    split; (split; [discriminate | intros [E _]; contradiction]).
Qed.

(* ================================================================== *)
(** * Further properties: classification and transformations           *)
(* ================================================================== *)

Section TransformationProofs.

Variable P : Platform.
Variable classes : class_env.
Variable CPP20_OR_LATER : bool.

Lemma classified_free (w : free_wrapping) (R R' : ctype) (Args Args' : list ctype)
    (f f' : fn_spec) :
  canonical_signature P false R' Args' f' ->
  classified_as P classes CPP20_OR_LATER
    (wrap_function w (TFunction R' Args' f')) R' void f' Args'
    (wrap_function w (TFunction R Args f)).
Proof.
  intros Hsig.
  pose proof Hsig as [_ [_ [_ [_ [_ Hfree]]]]].
  destruct (Hfree eq_refl) as [_ Hab].
  destruct (not_abominable _ _ _ Hab) as [Hc [Hv Hr]].
  eexists. split; [|split].
  - rewrite (FunctionTraits_free P classes CPP20_OR_LATER w R' Args' f' Hab).
    apply FreeFunctionTraits_canonical. exact Hsig.
  - rewrite Base_free, Hc, Hv, Hr. reflexivity.
  - apply wrapping_of_wrap_function.
Qed.

Lemma classified_member (k : reference_kind) (q : cv_qualifiers) (C C' : string)
    (R R' : ctype) (Args Args' : list ctype) (f f' : fn_spec) :
  canonical_signature P true R' Args' f' ->
  classified_as P classes CPP20_OR_LATER
    (with_reference k (TMemberPointer q C' (TFunction R' Args' f')))
    R' (TClass no_cv C') f' Args'
    (with_reference k (TMemberPointer q C (TFunction R Args f))).
Proof.
  intros Hsig.
  eexists. split; [|split].
  - rewrite FunctionTraits_member.
    apply MemberFunctionTraits_canonical. exact Hsig.
  - rewrite Base_member. reflexivity.
  - apply wrapping_of_member.
Qed.

(** Explicit results of the edits on a member function pointer. *)
Lemma edits_member (k0 : reference_kind) (q : cv_qualifiers) (C : string)
    (R : ctype) (Args : list ctype) (f : fn_spec) :
  canonical_signature P true R Args f ->
  let tr := MemberFunctionTraits_members P CPP20_OR_LATER (member_spec_of f)
              (with_reference k0 (TMemberPointer q C (TFunction R Args f))) R C Args in
  let mk := fun f' => Ok (with_reference k0 (TMemberPointer q C (TFunction R Args f'))) in
  Traits.AddVariadicArgs tr = mk (with_variadic true (with_cc Cdecl f)) /\
  Traits.RemoveVariadicArgs tr = mk (with_variadic false f) /\
  Traits.AddConst tr = mk (with_const true f) /\
  Traits.RemoveConst tr = mk (with_const false f) /\
  Traits.AddVolatile tr = mk (with_volatile true f) /\
  Traits.RemoveVolatile tr = mk (with_volatile false f) /\
  Traits.AddCV tr = mk (with_volatile true (with_const true f)) /\
  Traits.RemoveCV tr = mk (with_volatile false (with_const false f)) /\
  Traits.AddLValueReference tr = mk (with_ref RefQualifier.LValue f) /\
  Traits.AddRValueReference tr = mk (with_ref RefQualifier.RValue f) /\
  Traits.RemoveReference tr = mk (with_ref RefQualifier.None f) /\
  Traits.AddNoexcept tr = mk (with_noexcept true f) /\
  Traits.RemoveNoexcept tr = mk (with_noexcept false f) /\
  (forall NewR,
      Traits.ReplaceReturnType tr NewR =
      (R' <- check_return_type NewR ;;
       Ok (with_reference k0 (TMemberPointer q C (TFunction R' Args f))))) /\
  (forall NewArgs,
      Traits.ReplaceArgs tr NewArgs =
      (Args' <- adjust_parameters NewArgs ;;
       Ok (with_reference k0 (TMemberPointer q C (TFunction R Args' f))))) /\
  (forall NewArgs, Traits.ReplaceArgsTuple tr NewArgs = Traits.ReplaceArgs tr NewArgs) /\
  (forall q' C',
      Traits.ReplaceClass tr (TClass q' C') =
      Ok (with_reference k0 (TMemberPointer q C' (TFunction R Args f)))) /\
  (forall NewClassT,
      is_class_v NewClassT = false -> is_ok (Traits.ReplaceClass tr NewClassT) = false).
Proof.
  intros [HR [HA [Hcc [Hva [Hreg _]]]]].
  destruct stringized_tokens as [S1 [S2 [S3 S4]]].
  destruct declared_tokens as [D1 [D2 [D3 D4]]].
  destruct f as [c va k vo r n].
  cbn [fn_cc fn_variadic fn_const fn_volatile fn_ref fn_noexcept] in *.
  destruct va; [pose proof (Hva eq_refl); subst c|]; clear Hva.
  all: cbv zeta;
       unfold MemberFunctionTraits_members, member_spec_of,
         FUNCTION_TRAITS_BASE_CLASS_member, constrained, IS_CLASS_C,
         with_variadic, with_cc, with_const, with_volatile, with_ref, with_noexcept;
       cbn [Traits.Base Traits.AddVariadicArgs Traits.RemoveVariadicArgs Traits.AddConst
            Traits.RemoveConst Traits.AddVolatile Traits.RemoveVolatile Traits.AddCV
            Traits.RemoveCV Traits.AddLValueReference Traits.AddRValueReference
            Traits.RemoveReference Traits.AddNoexcept Traits.RemoveNoexcept
            Traits.ReplaceCallingConvention Traits.ReplaceClass Traits.ReplaceReturnType
            Traits.ReplaceArgs Traits.ReplaceArgsTuple Traits.ReplaceNthArg
            FunctionTraitsBase.IsVariadic
            member_CC member_CALLING_CONVENTION member_ARGS member_CONST member_VOLATILE
            member_REF member_IS_NOEXCEPT member_REPLACE
            fn_cc fn_variadic fn_const fn_volatile fn_ref fn_noexcept REPLACE_macro_of];
       rewrite ?S1, ?S2, ?S3, ?S4, ?D1, ?D2, ?D3, ?D4;
       rewrite !(member_function_pointer_type_canonical P R _ C Args) by assumption;
       unfold STDEXT_CC_VARIADIC, STDEXT_CC_CDECL, fmap, conditional_t;
       cbn [bind]; rewrite ?Hcc; cbn [effective_cc];
       rewrite ?MigrateCvAndRef_member;
       repeat match goal with |- _ /\ _ => split end;
       try reflexivity.
  all: try (intros NewR; unfold member_function_pointer_type;
            destruct (check_return_type NewR) as [R'|d]; cbn [bind]; [|reflexivity];
            rewrite HA; cbn [bind]; rewrite ?Hcc; cbn [effective_cc];
            rewrite MigrateCvAndRef_member; reflexivity).
  all: try (intros NewArgs; unfold member_function_pointer_type;
            rewrite HR; cbn [bind];
            destruct (adjust_parameters NewArgs) as [Args'|d]; cbn [bind]; [|reflexivity];
            rewrite ?Hcc; cbn [effective_cc];
            rewrite MigrateCvAndRef_member; reflexivity).
  all: try (intros q' C'; cbn [is_class_v static_assert class_name bind];
            destruct CPP20_OR_LATER; cbn [bind];
            rewrite !(member_function_pointer_type_canonical P R _ C' Args) by assumption;
            cbn [bind]; rewrite ?Hcc; cbn [effective_cc];
            rewrite MigrateCvAndRef_member; reflexivity).
  all: try (intros NewClassT Hnc; rewrite Hnc; cbn [static_assert];
            destruct CPP20_OR_LATER; cbn [bind is_ok]; [reflexivity|];
            destruct NewClassT; try discriminate Hnc; reflexivity).
Qed.

Lemma ReplaceCallingConvention_member (k0 : reference_kind) (q : cv_qualifiers) (C : string)
    (R : ctype) (Args : list ctype) (f : fn_spec) (NewCallingConventionT : CallingConvention) :
  canonical_signature P true R Args f ->
  Traits.ReplaceCallingConvention
    (MemberFunctionTraits_members P CPP20_OR_LATER (member_spec_of f)
       (with_reference k0 (TMemberPointer q C (TFunction R Args f))) R C Args)
    NewCallingConventionT =
  if fn_variadic f
  then Ok (with_reference k0 (TMemberPointer q C (TFunction R Args f)))
  else if CallingConvention_eqb NewCallingConventionT Regcall &&
          negb (STDEXT_CC_REGCALL_defined P)
       then Halt (static_assert_failed "tuple index out of bounds")
       else Ok (with_reference k0
                  (TMemberPointer q C
                     (TFunction R Args
                        (with_cc (effective_cc P true NewCallingConventionT) f)))).
Proof.
  intros [HR [HA [Hcc [Hva [Hreg _]]]]].
  destruct declared_tokens as [D1 [D2 [D3 D4]]].
  destruct f as [c va k vo r n].
  cbn [fn_cc fn_variadic fn_const fn_volatile fn_ref fn_noexcept] in *.
  unfold MemberFunctionTraits_members, member_spec_of, REPLACE_CALLING_CONVENTION_member,
    with_cc.
  cbn [Traits.ReplaceCallingConvention
       member_CC member_CALLING_CONVENTION member_ARGS member_CONST member_VOLATILE
       member_REF member_IS_NOEXCEPT member_REPLACE
       fn_cc fn_variadic fn_const fn_volatile fn_ref fn_noexcept].
  rewrite ?D1, ?D2, ?D3, ?D4.
  rewrite !(member_function_pointer_type_canonical P R _ C Args) by assumption.
  unfold fmap.
  destruct va; cbn [REPLACE_macro_of].
  - pose proof (Hva eq_refl); subst c.
    unfold STDEXT_CC_VARIADIC, STDEXT_CC_CDECL. cbn [bind effective_cc].
    rewrite MigrateCvAndRef_member. reflexivity.
  - unfold STDEXT_CC_CDECL, STDEXT_CC_STDCALL, STDEXT_CC_FASTCALL, STDEXT_CC_VECTORCALL,
      STDEXT_CC_THISCALL, STDEXT_CC_REGCALL.
    destruct (STDEXT_CC_REGCALL_defined P) eqn:Ereg; cbn [tuple_of fold_right app bind negb].
    + rewrite andb_false_r. rewrite tuple_element_member. cbn [bind].
      destruct NewCallingConventionT; rewrite MigrateCvAndRef_member; reflexivity.
    + rewrite andb_true_r.
      destruct NewCallingConventionT;
        cbn [CallingConvention_index tuple_element_t nth_error bind CallingConvention_eqb
             Nat.eqb];
        rewrite ?MigrateCvAndRef_member; reflexivity.
Qed.

(** Explicit results of the edits on a free function. *)
Lemma edits_free (w : free_wrapping) (R : ctype) (Args : list ctype) (f : fn_spec) :
  canonical_signature P false R Args f ->
  let tr := FreeFunctionTraits_members P CPP20_OR_LATER (free_spec_of f)
              (wrap_function w (TFunction R Args f)) R Args in
  let mk := fun f' => Ok (wrap_function w (TFunction R Args f')) in
  Traits.AddVariadicArgs tr = mk (with_variadic true (with_cc Cdecl f)) /\
  Traits.RemoveVariadicArgs tr = mk (with_variadic false f) /\
  Traits.AddNoexcept tr = mk (with_noexcept true f) /\
  Traits.RemoveNoexcept tr = mk (with_noexcept false f) /\
  (forall NewR,
      Traits.ReplaceReturnType tr NewR =
      (R' <- check_return_type NewR ;; Ok (wrap_function w (TFunction R' Args f)))) /\
  (forall NewArgs,
      Traits.ReplaceArgs tr NewArgs =
      (Args' <- adjust_parameters NewArgs ;; Ok (wrap_function w (TFunction R Args' f)))) /\
  (forall NewArgs, Traits.ReplaceArgsTuple tr NewArgs = Traits.ReplaceArgs tr NewArgs).
Proof.
  intros [HR [HA [Hcc [Hva [Hreg Hfree]]]]].
  destruct (Hfree eq_refl) as [Hthis Hab].
  destruct (not_abominable _ _ _ Hab) as [Hc [Hv Hr]].
  destruct f as [c va k vo r n].
  cbn [fn_cc fn_variadic fn_const fn_volatile fn_ref fn_noexcept] in *. subst k vo r.
  destruct va; [pose proof (Hva eq_refl); subst c|]; clear Hva.
  all: match goal with
       | |- context [wrap_function ?w0 (TFunction ?R0 ?A0 ?f0)] =>
           assert (Hmig : forall T',
                      is_function_v T' = true -> is_abominable T' = false ->
                      MigratePointerAndRef (wrap_function w0 (TFunction R0 A0 f0)) T' =
                      wrap_function w0 T')
             by (intros; apply MigratePointerAndRef_wrap; auto)
       end.
  all: cbv zeta;
       unfold FreeFunctionTraits_members, free_spec_of, FUNCTION_TRAITS_BASE_CLASS_free,
         with_variadic, with_cc, with_noexcept;
       cbn [Traits.Base Traits.AddVariadicArgs Traits.RemoveVariadicArgs
            Traits.AddNoexcept Traits.RemoveNoexcept
            Traits.ReplaceReturnType Traits.ReplaceArgs Traits.ReplaceArgsTuple
            FunctionTraitsBase.IsVariadic
            free_CC free_CALLING_CONVENTION free_ARGS free_IS_NOEXCEPT free_REPLACE
            fn_cc fn_variadic fn_const fn_volatile fn_ref fn_noexcept REPLACE_macro_of
            ARGS_token];
       rewrite !(function_type_canonical P R _ Args) by assumption;
       unfold STDEXT_CC_VARIADIC, STDEXT_CC_CDECL, fmap, conditional_t;
       change (declares_ellipsis "(Args..., ...)") with true;
       change (declares_ellipsis "(Args...)") with false;
       change (negb (is_null (stringized_at "(Args..., ...)" 9))) with true;
       change (negb (is_null (stringized_at "(Args...)" 9))) with false;
       cbn [bind]; rewrite ?Hcc; cbn [effective_cc];
       repeat match goal with |- _ /\ _ => split end;
       try (rewrite Hmig by reflexivity; reflexivity);
       try reflexivity.
  all: try (intros NewR; unfold function_type;
            destruct (check_return_type NewR) as [R'|d]; cbn [bind]; [|reflexivity];
            rewrite HA; cbn [bind]; rewrite ?Hcc; cbn [effective_cc];
            rewrite Hmig by reflexivity; reflexivity).
  all: try (intros NewArgs; unfold function_type;
            rewrite HR; cbn [bind];
            destruct (adjust_parameters NewArgs) as [Args'|d]; cbn [bind]; [|reflexivity];
            rewrite ?Hcc; cbn [effective_cc];
            rewrite Hmig by reflexivity; reflexivity).
Qed.

Lemma ReplaceCallingConvention_free (w : free_wrapping) (R : ctype) (Args : list ctype)
    (f : fn_spec) (NewCallingConventionT : CallingConvention) :
  canonical_signature P false R Args f ->
  Traits.ReplaceCallingConvention
    (FreeFunctionTraits_members P CPP20_OR_LATER (free_spec_of f)
       (wrap_function w (TFunction R Args f)) R Args)
    NewCallingConventionT =
  if fn_variadic f
  then Ok (wrap_function w (TFunction R Args f))
  else if CallingConvention_eqb NewCallingConventionT Regcall &&
          negb (STDEXT_CC_REGCALL_defined P)
       then Halt (static_assert_failed "tuple index out of bounds")
       else Ok (wrap_function w
                  (TFunction R Args
                     (with_cc (match NewCallingConventionT with
                               | Thiscall => fn_cc f
                               | _ => effective_cc P false NewCallingConventionT
                               end) f))).
Proof.
  intros [HR [HA [Hcc [Hva [Hreg Hfree]]]]].
  destruct (Hfree eq_refl) as [Hthis Hab].
  destruct (not_abominable _ _ _ Hab) as [Hc [Hv Hr]].
  destruct f as [c va k vo r n].
  cbn [fn_cc fn_variadic fn_const fn_volatile fn_ref fn_noexcept] in *. subst k vo r.
  assert (Hmig : forall T',
             is_function_v T' = true -> is_abominable T' = false ->
             MigratePointerAndRef
               (wrap_function w
                  (TFunction R Args (FnSpec c va false false RefQualifier.None n))) T' =
             wrap_function w T')
    by (intros; apply MigratePointerAndRef_wrap; auto).
  unfold FreeFunctionTraits_members, free_spec_of, REPLACE_CALLING_CONVENTION_free, with_cc.
  cbn [Traits.ReplaceCallingConvention
       free_CC free_CALLING_CONVENTION free_ARGS free_IS_NOEXCEPT free_REPLACE
       fn_cc fn_variadic fn_const fn_volatile fn_ref fn_noexcept].
  rewrite !(function_type_canonical P R _ Args) by assumption.
  unfold fmap.
  destruct va; cbn [REPLACE_macro_of ARGS_token].
  - pose proof (Hva eq_refl); subst c.
    change (declares_ellipsis "(Args..., ...)") with true.
    unfold STDEXT_CC_VARIADIC, STDEXT_CC_CDECL. cbn [bind effective_cc].
    rewrite Hmig by reflexivity. reflexivity.
  - change (declares_ellipsis "(Args...)") with false.
    unfold STDEXT_CC_CDECL, STDEXT_CC_STDCALL, STDEXT_CC_FASTCALL, STDEXT_CC_VECTORCALL,
      STDEXT_CC_REGCALL.
    destruct (STDEXT_CC_REGCALL_defined P) eqn:Ereg; cbn [tuple_of fold_right app bind negb].
    + rewrite andb_false_r. rewrite tuple_element_free. cbn [bind].
      destruct NewCallingConventionT; rewrite Hmig by reflexivity; rewrite ?Hcc;
        reflexivity.
    + rewrite andb_true_r.
      destruct NewCallingConventionT;
        cbn [CallingConvention_index tuple_element_t nth_error bind CallingConvention_eqb
             Nat.eqb];
        rewrite ?Hmig by reflexivity; rewrite ?Hcc; reflexivity.
Qed.

Lemma adjust_parameters_idempotent :
  forall Ts Ts', adjust_parameters Ts = Ok Ts' -> adjust_parameters Ts' = Ok Ts'.
Proof.
  induction Ts as [|t Ts IH]; intros Ts' H; cbn [adjust_parameters] in H.
  - injection H as <-. reflexivity.
  - destruct (adjust_parameter t) as [t'|d] eqn:Et; [|discriminate]. cbn [bind] in H.
    destruct (adjust_parameters Ts) as [Ts0|d] eqn:Ets; [|discriminate]. cbn [bind] in H.
    injection H as <-. cbn [adjust_parameters].
    rewrite (adjust_parameter_idempotent _ _ Et). cbn [bind].
    rewrite (IH _ eq_refl). reflexivity.
Qed.

Lemma canonical_signature_edit (is_member : bool) (R R' : ctype) (Args Args' : list ctype)
    (f f' : fn_spec) :
  canonical_signature P is_member R Args f ->
  check_return_type R' = Ok R' ->
  adjust_parameters Args' = Ok Args' ->
  effective_cc P is_member (fn_cc f') = fn_cc f' ->
  (fn_variadic f' = true -> fn_cc f' = Cdecl) ->
  (fn_cc f' = Regcall -> STDEXT_CC_REGCALL_defined P = true) ->
  (is_member = false ->
   fn_cc f' <> Thiscall /\ fn_const f' = false /\ fn_volatile f' = false /\
   fn_ref f' = RefQualifier.None) ->
  canonical_signature P is_member R' Args' f'.
Proof.
  intros _ HR HA Hcc Hva Hreg Hfree.
  repeat split; try assumption.
  - apply Hfree. assumption.
  - destruct (Hfree H) as [_ [Hc [Hv Hr]]].
    cbn [is_abominable]. rewrite Hc, Hv, Hr. reflexivity.
Qed.

(** After the normal form of an acceptable type: the shape of the classified type, the members
    and the base class of its traits struct. *)
Ltac normal_form_of F Hcan Hacc :=
  destruct (FunctionTraits_normal_form P classes CPP20_OR_LATER F Hcan Hacc)
    as [[w [R [Args [f [-> [Hsig HF]]]]]]
       |[k [q [C [R [Args [f [isf [Hsig [HF [Hisf HF0]]]]]]]]]]];
  [ pose proof Hsig as [HR [HA [Hcc [Hva [Hreg Hfree]]]]];
    destruct (Hfree eq_refl) as [Hthis Hab];
    destruct (not_abominable _ _ _ Hab) as [Hc [Hv Hr]];
    destruct f as [c va k vo r n];
    cbn [fn_cc fn_variadic fn_const fn_volatile fn_ref fn_noexcept] in *;
    subst k vo r;
    eexists; split; [exact HF|];
    rewrite Base_free;
    cbn [FunctionTraitsBase.Type_ FunctionTraitsBase.ReturnType
         FunctionTraitsBase.CallingConvention FunctionTraitsBase.IsVariadic
         FunctionTraitsBase.Class FunctionTraitsBase.IsConst FunctionTraitsBase.IsVolatile
         FunctionTraitsBase.RefQualifier FunctionTraitsBase.IsNoexcept
         FunctionTraitsBase.ArgTypes FunctionTraitsBase.IsMemberFunction
         FunctionTraitsBase.ArgCount declarator_of
         fn_cc fn_variadic fn_const fn_volatile fn_ref fn_noexcept]
  | pose proof Hsig as [HR [HA [Hcc [Hva [Hreg _]]]]];
    destruct f as [c va k0 vo r n];
    cbn [fn_cc fn_variadic fn_const fn_volatile fn_ref fn_noexcept] in *;
    eexists; split; [exact HF|];
    cbn [set_IsFunctor Traits.Base Traits.AddVariadicArgs Traits.RemoveVariadicArgs
         Traits.AddConst Traits.RemoveConst Traits.AddVolatile Traits.RemoveVolatile
         Traits.AddCV Traits.RemoveCV Traits.AddLValueReference Traits.AddRValueReference
         Traits.RemoveReference Traits.AddNoexcept Traits.RemoveNoexcept
         Traits.ReplaceCallingConvention Traits.ReplaceClass Traits.ReplaceReturnType
         Traits.ReplaceArgs Traits.ReplaceArgsTuple Traits.ReplaceNthArg];
    rewrite Base_member;
    cbn [FunctionTraitsBase.Type_ FunctionTraitsBase.ReturnType
         FunctionTraitsBase.CallingConvention FunctionTraitsBase.IsVariadic
         FunctionTraitsBase.Class FunctionTraitsBase.IsConst FunctionTraitsBase.IsVolatile
         FunctionTraitsBase.RefQualifier FunctionTraitsBase.IsNoexcept
         FunctionTraitsBase.ArgTypes FunctionTraitsBase.IsMemberFunction
         FunctionTraitsBase.ArgCount declarator_of
         fn_cc fn_variadic fn_const fn_volatile fn_ref fn_noexcept] ].

Ltac edited_signature Hsig :=
  apply (canonical_signature_edit _ _ _ _ _ _ _ Hsig);
  cbn [fn_cc fn_variadic fn_const fn_volatile fn_ref fn_noexcept
       with_cc with_variadic with_const with_volatile with_ref with_noexcept];
  try assumption; try reflexivity; try (intros; discriminate);
  try (intros; repeat split; solve [assumption | reflexivity | discriminate]).

(** X13.  [AddNoexcept] and [RemoveNoexcept].  For every acceptable
    callable type of the toolchain, each gives a type that [FunctionTraits]
    classifies again, with [IsNoexcept] set to [true], respectively [false],
    and with the return type, class, parameter types, calling convention,
    variadic flag, const, volatile and ref-qualifier of the input, behind the
    same reference, pointer and pointer-level cv-qualifiers as [Type]. *)
Theorem noexcept_edits (F : ctype) :
  canonical P classes F ->
  IsTraitsFunction_v P classes F = true ->
  exists tr,
    FunctionTraits P classes CPP20_OR_LATER F = Ok tr /\
    let b := Traits.Base tr in
    (exists F',
        Traits.AddNoexcept tr = Ok F' /\
        classified_as P classes CPP20_OR_LATER F'
          (FunctionTraitsBase.ReturnType b) (FunctionTraitsBase.Class b)
          (with_noexcept true (declarator_of b)) (FunctionTraitsBase.ArgTypes b)
          (FunctionTraitsBase.Type_ b)) /\
    (exists F',
        Traits.RemoveNoexcept tr = Ok F' /\
        classified_as P classes CPP20_OR_LATER F'
          (FunctionTraitsBase.ReturnType b) (FunctionTraitsBase.Class b)
          (with_noexcept false (declarator_of b)) (FunctionTraitsBase.ArgTypes b)
          (FunctionTraitsBase.Type_ b)).
Proof.
  intros Hcan Hacc.
  normal_form_of F Hcan Hacc.
  - destruct (edits_free w R Args _ Hsig) as [_ [_ [Ha [Hr _]]]].
    cbv zeta. split; eexists; (split; [eassumption|]);
      apply classified_free; edited_signature Hsig.
  - destruct (edits_member k q C R Args _ Hsig)
      as [_ [_ [_ [_ [_ [_ [_ [_ [_ [_ [_ [Ha [Hr _]]]]]]]]]]]]].
    cbv zeta. split; eexists; (split; [eassumption|]);
      apply classified_member; edited_signature Hsig.
Qed.

Lemma FunctionTraits_free_canonical (w : free_wrapping) (R : ctype) (Args : list ctype)
    (f : fn_spec) :
  canonical_signature P false R Args f ->
  FunctionTraits P classes CPP20_OR_LATER (wrap_function w (TFunction R Args f)) =
  Ok (FreeFunctionTraits_members P CPP20_OR_LATER (free_spec_of f)
        (wrap_function w (TFunction R Args f)) R Args).
Proof.
  intros Hsig.
  pose proof Hsig as [_ [_ [_ [_ [_ Hfree]]]]].
  destruct (Hfree eq_refl) as [_ Hab].
  rewrite (FunctionTraits_free P classes CPP20_OR_LATER w R Args f Hab).
  apply FreeFunctionTraits_canonical. exact Hsig.
Qed.

Lemma FunctionTraits_member_canonical (k : reference_kind) (q : cv_qualifiers) (C : string)
    (R : ctype) (Args : list ctype) (f : fn_spec) :
  canonical_signature P true R Args f ->
  FunctionTraits P classes CPP20_OR_LATER
    (with_reference k (TMemberPointer q C (TFunction R Args f))) =
  Ok (MemberFunctionTraits_members P CPP20_OR_LATER (member_spec_of f)
        (with_reference k (TMemberPointer q C (TFunction R Args f))) R C Args).
Proof.
  intros Hsig. rewrite FunctionTraits_member.
  apply MemberFunctionTraits_canonical. exact Hsig.
Qed.

(** X14.  [AddVariadicArgs] and [RemoveVariadicArgs].  [AddVariadicArgs]
    gives a variadic function with the calling convention [Cdecl], whatever
    the convention of the input; [RemoveVariadicArgs] on that result gives the
    non-variadic [Cdecl] function, so that the convention of the input is not
    restored; [RemoveVariadicArgs] on the input clears the flag and keeps the
    convention.  Everything else is kept. *)
Theorem variadic_edits (F : ctype) :
  canonical P classes F ->
  IsTraitsFunction_v P classes F = true ->
  exists tr,
    FunctionTraits P classes CPP20_OR_LATER F = Ok tr /\
    let b := Traits.Base tr in
    (exists F1 tr1 F2,
        Traits.AddVariadicArgs tr = Ok F1 /\
        classified_as P classes CPP20_OR_LATER F1
          (FunctionTraitsBase.ReturnType b) (FunctionTraitsBase.Class b)
          (with_variadic true (with_cc Cdecl (declarator_of b)))
          (FunctionTraitsBase.ArgTypes b) (FunctionTraitsBase.Type_ b) /\
        FunctionTraits P classes CPP20_OR_LATER F1 = Ok tr1 /\
        Traits.RemoveVariadicArgs tr1 = Ok F2 /\
        classified_as P classes CPP20_OR_LATER F2
          (FunctionTraitsBase.ReturnType b) (FunctionTraitsBase.Class b)
          (with_variadic false (with_cc Cdecl (declarator_of b)))
          (FunctionTraitsBase.ArgTypes b) (FunctionTraitsBase.Type_ b)) /\
    (exists F',
        Traits.RemoveVariadicArgs tr = Ok F' /\
        classified_as P classes CPP20_OR_LATER F'
          (FunctionTraitsBase.ReturnType b) (FunctionTraitsBase.Class b)
          (with_variadic false (declarator_of b)) (FunctionTraitsBase.ArgTypes b)
          (FunctionTraitsBase.Type_ b)).
Proof.
  intros Hcan Hacc.
  normal_form_of F Hcan Hacc.
  - destruct (edits_free w R Args _ Hsig) as [Ha [Hr _]].
    assert (Hsig1 : canonical_signature P false R Args
                      (with_variadic true
                         (with_cc Cdecl (FnSpec c va false false RefQualifier.None n))))
      by edited_signature Hsig.
    cbv zeta. split.
    + eexists. eexists. eexists.
      split; [exact Ha|].
      split; [apply classified_free; exact Hsig1|].
      split; [apply (FunctionTraits_free_canonical w R Args _ Hsig1)|].
      destruct (edits_free w R Args _ Hsig1) as [_ [Hr1 _]].
      split; [exact Hr1|].
      apply classified_free. edited_signature Hsig.
    + eexists. split; [exact Hr|]. apply classified_free. edited_signature Hsig.
  - destruct (edits_member k q C R Args _ Hsig) as [Ha [Hr _]].
    assert (Hsig1 : canonical_signature P true R Args
                      (with_variadic true (with_cc Cdecl (FnSpec c va k0 vo r n))))
      by edited_signature Hsig.
    cbv zeta. split.
    + eexists. eexists. eexists.
      split; [exact Ha|].
      split; [apply classified_member; exact Hsig1|].
      split; [apply (FunctionTraits_member_canonical k q C R Args _ Hsig1)|].
      destruct (edits_member k q C R Args _ Hsig1) as [_ [Hr1 _]].
      split; [exact Hr1|].
      apply classified_member. edited_signature Hsig.
    + eexists. split; [exact Hr|]. apply classified_member. edited_signature Hsig.
Qed.

(** X15.  The cv edits on a member function (a pointer to one, possibly
    cv-qualified or behind a reference, or a functor).  [AddConst],
    [RemoveConst], [AddVolatile], [RemoveVolatile], [AddCV] and [RemoveCV]
    give a type that is classified again, with [IsConst] and [IsVolatile] set
    as the name of the edit says and everything else kept. *)
Theorem cv_edits (F : ctype) :
  canonical P classes F ->
  is_member_function_pointer_v (remove_reference_t F) || IsFunctor_v P classes F = true ->
  exists tr,
    FunctionTraits P classes CPP20_OR_LATER F = Ok tr /\
    let b := Traits.Base tr in
    let edited := fun (edit : result ctype) (f' : fn_spec) =>
      exists F',
        edit = Ok F' /\
        classified_as P classes CPP20_OR_LATER F'
          (FunctionTraitsBase.ReturnType b) (FunctionTraitsBase.Class b) f'
          (FunctionTraitsBase.ArgTypes b) (FunctionTraitsBase.Type_ b) in
    edited (Traits.AddConst tr) (with_const true (declarator_of b)) /\
    edited (Traits.RemoveConst tr) (with_const false (declarator_of b)) /\
    edited (Traits.AddVolatile tr) (with_volatile true (declarator_of b)) /\
    edited (Traits.RemoveVolatile tr) (with_volatile false (declarator_of b)) /\
    edited (Traits.AddCV tr) (with_volatile true (with_const true (declarator_of b))) /\
    edited (Traits.RemoveCV tr) (with_volatile false (with_const false (declarator_of b))).
Proof.
  intros Hcan Hmem.
  assert (Hacc : IsTraitsFunction_v P classes F = true)
    by (unfold IsTraitsFunction_v; rewrite <- orb_assoc, Hmem; apply orb_true_r).
  normal_form_of F Hcan Hacc.
  - exfalso. clear -Hmem. destruct w as [k|q k]; destruct k; discriminate Hmem.
  - destruct (edits_member k q C R Args _ Hsig)
      as [_ [_ [H1 [H2 [H3 [H4 [H5 [H6 _]]]]]]]].
    cbv zeta.
    repeat match goal with |- _ /\ _ => split end;
      (eexists; split; [eassumption|]; apply classified_member; edited_signature Hsig).
Qed.

(** X16.  The ref-qualifier edits on a member function.
    [AddLValueReference] and [AddRValueReference] set the ref-qualifier to
    [&] and [&&] whatever it was (no reference collapsing), and
    [RemoveReference] removes it; everything else is kept. *)
Theorem ref_qualifier_edits (F : ctype) :
  canonical P classes F ->
  is_member_function_pointer_v (remove_reference_t F) || IsFunctor_v P classes F = true ->
  exists tr,
    FunctionTraits P classes CPP20_OR_LATER F = Ok tr /\
    let b := Traits.Base tr in
    let edited := fun (edit : result ctype) (f' : fn_spec) =>
      exists F',
        edit = Ok F' /\
        classified_as P classes CPP20_OR_LATER F'
          (FunctionTraitsBase.ReturnType b) (FunctionTraitsBase.Class b) f'
          (FunctionTraitsBase.ArgTypes b) (FunctionTraitsBase.Type_ b) in
    edited (Traits.AddLValueReference tr) (with_ref RefQualifier.LValue (declarator_of b)) /\
    edited (Traits.AddRValueReference tr) (with_ref RefQualifier.RValue (declarator_of b)) /\
    edited (Traits.RemoveReference tr) (with_ref RefQualifier.None (declarator_of b)).
Proof.
  intros Hcan Hmem.
  assert (Hacc : IsTraitsFunction_v P classes F = true)
    by (unfold IsTraitsFunction_v; rewrite <- orb_assoc, Hmem; apply orb_true_r).
  normal_form_of F Hcan Hacc.
  - exfalso. clear -Hmem. destruct w as [k|q k]; destruct k; discriminate Hmem.
  - destruct (edits_member k q C R Args _ Hsig)
      as [_ [_ [_ [_ [_ [_ [_ [_ [H1 [H2 [H3 _]]]]]]]]]]].
    cbv zeta.
    repeat match goal with |- _ /\ _ => split end;
      (eexists; split; [eassumption|]; apply classified_member; edited_signature Hsig).
Qed.

Lemma canonical_signature_with_cc_free (R : ctype) (Args : list ctype) (f : fn_spec)
    (cc : CallingConvention) :
  canonical_signature P false R Args f ->
  fn_variadic f = false ->
  (cc = Regcall -> STDEXT_CC_REGCALL_defined P = true) ->
  canonical_signature P false R Args
    (with_cc (match cc with
              | Thiscall => fn_cc f
              | _ => effective_cc P false cc
              end) f).
Proof.
  intros [HR [HA [Hcc [Hva [Hreg Hfree]]]]] Hnv Hdef.
  destruct (Hfree eq_refl) as [Hthis Hab].
  destruct f as [c va k vo r n].
  cbn [fn_cc fn_variadic fn_const fn_volatile fn_ref fn_noexcept] in *. subst va.
  unfold canonical_signature, with_cc.
  cbn [fn_cc fn_variadic fn_const fn_volatile fn_ref fn_noexcept is_abominable] in *.
  destruct cc; cbn [effective_cc];
    try destruct (free_cc_ignored P _) eqn:Eig;
    repeat split; cbn [effective_cc]; rewrite ?Eig;
    try assumption; try reflexivity; try discriminate;
    try (intros; discriminate); try (intros; apply Hdef; reflexivity).
Qed.

Lemma canonical_signature_with_cc_member (R : ctype) (Args : list ctype) (f : fn_spec)
    (cc : CallingConvention) :
  canonical_signature P true R Args f ->
  fn_variadic f = false ->
  (cc = Regcall -> STDEXT_CC_REGCALL_defined P = true) ->
  canonical_signature P true R Args (with_cc (effective_cc P true cc) f).
Proof.
  intros [HR [HA [Hcc [Hva [Hreg Hfree]]]]] Hnv Hdef.
  destruct f as [c va k vo r n].
  cbn [fn_cc fn_variadic fn_const fn_volatile fn_ref fn_noexcept] in *. subst va.
  unfold canonical_signature, with_cc.
  cbn [fn_cc fn_variadic fn_const fn_volatile fn_ref fn_noexcept] in *.
  destruct cc; cbn [effective_cc];
    try destruct (member_cc_ignored P _) eqn:Eig;
    repeat split; cbn [effective_cc]; rewrite ?Eig;
    try assumption; try reflexivity; try discriminate;
    try (intros; discriminate); try (intros; apply Hdef; reflexivity).
Qed.

(** X17.  [ReplaceCallingConvention].  On a variadic function it is the
    identity, for every requested convention.  On a non-variadic function it
    gives a classified type whose convention is the requested one as the
    toolchain records it ([Cdecl] when the toolchain replaces it), except that
    [Thiscall] requested on a free function keeps the convention; everything
    else is kept.  Requesting [Regcall] where [STDEXT_CC_REGCALL] is not defined
    halts. *)
Theorem ReplaceCallingConvention_edit (F : ctype) (NewCallingConventionT : CallingConvention) :
  canonical P classes F ->
  IsTraitsFunction_v P classes F = true ->
  exists tr,
    FunctionTraits P classes CPP20_OR_LATER F = Ok tr /\
    let b := Traits.Base tr in
    let requested :=
      if FunctionTraitsBase.IsVariadic b then FunctionTraitsBase.CallingConvention b
      else match NewCallingConventionT with
           | Thiscall =>
               if FunctionTraitsBase.IsMemberFunction b
               then effective_cc P true Thiscall
               else FunctionTraitsBase.CallingConvention b
           | _ => effective_cc P (FunctionTraitsBase.IsMemberFunction b) NewCallingConventionT
           end in
    ((NewCallingConventionT = Regcall -> FunctionTraitsBase.IsVariadic b = false ->
      STDEXT_CC_REGCALL_defined P = true) ->
     exists F',
       Traits.ReplaceCallingConvention tr NewCallingConventionT = Ok F' /\
       classified_as P classes CPP20_OR_LATER F'
         (FunctionTraitsBase.ReturnType b) (FunctionTraitsBase.Class b)
         (with_cc requested (declarator_of b)) (FunctionTraitsBase.ArgTypes b)
         (FunctionTraitsBase.Type_ b)) /\
    (NewCallingConventionT = Regcall -> FunctionTraitsBase.IsVariadic b = false ->
     STDEXT_CC_REGCALL_defined P = false ->
     is_ok (Traits.ReplaceCallingConvention tr NewCallingConventionT) = false) /\
    (FunctionTraitsBase.IsVariadic b = true ->
     Traits.ReplaceCallingConvention tr NewCallingConventionT =
     Ok (FunctionTraitsBase.Type_ b)).
Proof.
  intros Hcan Hacc.
  normal_form_of F Hcan Hacc.
  - pose proof (ReplaceCallingConvention_free w R Args _ NewCallingConventionT Hsig) as HE.
    cbn [fn_variadic fn_cc] in HE. cbv zeta. cbn [is_void_v void negb].
    split; [|split].
    + intros Hdef. destruct va.
      * eexists. split; [exact HE|]. apply classified_free. edited_signature Hsig.
      * destruct (CallingConvention_eqb NewCallingConventionT Regcall &&
                  negb (STDEXT_CC_REGCALL_defined P)) eqn:E.
        { apply andb_prop in E. destruct E as [E1 E2].
          apply CallingConvention_eqb_eq in E1.
          rewrite (Hdef E1 eq_refl) in E2. discriminate. }
        rewrite HE.
        pose proof (canonical_signature_with_cc_free R Args _ NewCallingConventionT Hsig
                      eq_refl (fun E0 => Hdef E0 eq_refl)) as Hsig'.
        eexists. split; [reflexivity|].
        destruct NewCallingConventionT; apply classified_free; exact Hsig'.
    + intros -> -> Hdef. rewrite HE, Hdef. reflexivity.
    + intros ->. exact HE.
  - pose proof (ReplaceCallingConvention_member k q C R Args _ NewCallingConventionT Hsig) as HE.
    cbn [fn_variadic fn_cc] in HE. cbv zeta. cbn [is_void_v negb].
    split; [|split].
    + intros Hdef. destruct va.
      * eexists. split; [exact HE|]. apply classified_member. edited_signature Hsig.
      * destruct (CallingConvention_eqb NewCallingConventionT Regcall &&
                  negb (STDEXT_CC_REGCALL_defined P)) eqn:E.
        { apply andb_prop in E. destruct E as [E1 E2].
          apply CallingConvention_eqb_eq in E1.
          rewrite (Hdef E1 eq_refl) in E2. discriminate. }
        rewrite HE.
        pose proof (canonical_signature_with_cc_member R Args _ NewCallingConventionT Hsig
                      eq_refl (fun E0 => Hdef E0 eq_refl)) as Hsig'.
        eexists. split; [reflexivity|].
        destruct NewCallingConventionT; apply classified_member; exact Hsig'.
    + intros -> -> Hdef. rewrite HE, Hdef. reflexivity.
    + intros ->. exact HE.
Qed.


(** X19.  [ReplaceReturnType] gives a classified type with the new return
    type and everything else kept; an array or function type as the new
    return type halts the translation. *)
Theorem ReplaceReturnType_edit (F : ctype) (NewReturnTypeT : ctype) :
  canonical P classes F ->
  IsTraitsFunction_v P classes F = true ->
  exists tr,
    FunctionTraits P classes CPP20_OR_LATER F = Ok tr /\
    let b := Traits.Base tr in
    (is_array_v NewReturnTypeT || is_function_v NewReturnTypeT = false ->
     exists F',
       Traits.ReplaceReturnType tr NewReturnTypeT = Ok F' /\
       classified_as P classes CPP20_OR_LATER F'
         NewReturnTypeT (FunctionTraitsBase.Class b) (declarator_of b)
         (FunctionTraitsBase.ArgTypes b) (FunctionTraitsBase.Type_ b)) /\
    (is_array_v NewReturnTypeT || is_function_v NewReturnTypeT = true ->
     is_ok (Traits.ReplaceReturnType tr NewReturnTypeT) = false).
Proof.
  intros Hcan Hacc.
  normal_form_of F Hcan Hacc.
  - destruct (edits_free w R Args _ Hsig) as [_ [_ [_ [_ [H1 _]]]]].
    cbv zeta. rewrite H1. unfold check_return_type.
    split; intros E; rewrite E; cbn [bind is_ok]; [|reflexivity].
    eexists. split; [reflexivity|]. apply classified_free.
    edited_signature Hsig. unfold check_return_type. rewrite E. reflexivity.
  - destruct (edits_member k q C R Args _ Hsig)
      as [_ [_ [_ [_ [_ [_ [_ [_ [_ [_ [_ [_ [_ [H1 _]]]]]]]]]]]]]].
    cbv zeta. rewrite H1. unfold check_return_type.
    split; intros E; rewrite E; cbn [bind is_ok]; [|reflexivity].
    eexists. split; [reflexivity|]. apply classified_member.
    edited_signature Hsig. unfold check_return_type. rewrite E. reflexivity.
Qed.

Lemma adjust_parameters_void :
  forall Ts, existsb is_void_v Ts = true -> is_ok (adjust_parameters Ts) = false.
Proof.
  induction Ts as [|t Ts IH]; cbn [existsb adjust_parameters]; [discriminate|].
  intros H. apply orb_prop in H. destruct H as [H|H].
  - destruct t; try discriminate H. reflexivity.
  - destruct (adjust_parameter t); cbn [bind is_ok]; [|reflexivity].
    pose proof (IH H) as HI.
    destruct (adjust_parameters Ts); [discriminate | reflexivity].
Qed.

Lemma IsTraitsFunction_v_free (w : free_wrapping) (R : ctype) (Args : list ctype)
    (f : fn_spec) :
  is_abominable (TFunction R Args f) = false ->
  IsTraitsFunction_v P classes (wrap_function w (TFunction R Args f)) = true.
Proof.
  intros Hab. unfold IsTraitsFunction_v.
  assert (E : RemoveRefAndPtr (wrap_function w (TFunction R Args f)) = TFunction R Args f)
    by (destruct w as [k|q k]; destruct k; reflexivity).
  rewrite E, (IsFreeFunction_v_function R Args f Hab). reflexivity.
Qed.

Lemma IsTraitsFunction_v_member (k : reference_kind) (q : cv_qualifiers) (C : string)
    (R : ctype) (Args : list ctype) (f : fn_spec) :
  IsTraitsFunction_v P classes
    (with_reference k (TMemberPointer q C (TFunction R Args f))) = true.
Proof.
  unfold IsTraitsFunction_v.
  assert (E : is_member_function_pointer_v
                (remove_reference_t
                   (with_reference k (TMemberPointer q C (TFunction R Args f)))) = true)
    by (destruct k; reflexivity).
  rewrite E. apply orb_true_iff. left. apply orb_true_r.
Qed.

(** X20.  [ReplaceArgs] and [ReplaceArgsTuple] give the same classified
    type, whose parameter types are the new ones as the language adjusts
    them, with the variadic flag and everything else kept; [IsEmptyArgList_v]
    of the result holds exactly when no parameter type is given and the
    function is not variadic; [void] among the new parameter types halts. *)
Theorem ReplaceArgs_edit (F : ctype) :
  canonical P classes F ->
  IsTraitsFunction_v P classes F = true ->
  exists tr,
    FunctionTraits P classes CPP20_OR_LATER F = Ok tr /\
    let b := Traits.Base tr in
    (forall NewArgsT Args',
        adjust_parameters NewArgsT = Ok Args' ->
        exists F',
          Traits.ReplaceArgs tr NewArgsT = Ok F' /\
          Traits.ReplaceArgsTuple tr NewArgsT = Ok F' /\
          classified_as P classes CPP20_OR_LATER F'
            (FunctionTraitsBase.ReturnType b) (FunctionTraitsBase.Class b) (declarator_of b)
            Args' (FunctionTraitsBase.Type_ b) /\
          IsEmptyArgList_v P classes CPP20_OR_LATER F' =
            Ok ((List.length Args' =? 0) && negb (FunctionTraitsBase.IsVariadic b))) /\
    (forall NewArgsT,
        existsb is_void_v NewArgsT = true ->
        is_ok (Traits.ReplaceArgs tr NewArgsT) = false /\
        is_ok (Traits.ReplaceArgsTuple tr NewArgsT) = false).
Proof.
  intros Hcan Hacc.
  normal_form_of F Hcan Hacc.
  - destruct (edits_free w R Args _ Hsig) as [_ [_ [_ [_ [_ [H1 H2]]]]]].
    cbv zeta. split.
    + intros NewArgsT Args' HA'.
      assert (Hsig' : canonical_signature P false R Args'
                        (FnSpec c va false false RefQualifier.None n)).
      { edited_signature Hsig. exact (adjust_parameters_idempotent _ _ HA'). }
      rewrite H2, H1, HA'. cbn [bind].
      eexists. split; [reflexivity|]. split; [reflexivity|].
      split; [apply classified_free; exact Hsig'|].
      unfold IsEmptyArgList_v, with_traits, constrained, TRAITS_FUNCTION_C.
      rewrite (IsTraitsFunction_v_free w R Args' _ Hab).
      rewrite (FunctionTraits_free_canonical w R Args' _ Hsig').
      destruct CPP20_OR_LATER; cbn [static_assert bind];
        unfold IsFunctionTraitsEmptyArgList_v; rewrite Base_free; reflexivity.
    + intros NewArgsT Hv. rewrite H2, H1.
      pose proof (adjust_parameters_void _ Hv) as Hh.
      destruct (adjust_parameters NewArgsT); [discriminate|]. split; reflexivity.
  - destruct (edits_member k q C R Args _ Hsig)
      as [_ [_ [_ [_ [_ [_ [_ [_ [_ [_ [_ [_ [_ [_ [H1 [H2 _]]]]]]]]]]]]]]]].
    cbv zeta. split.
    + intros NewArgsT Args' HA'.
      assert (Hsig' : canonical_signature P true R Args' (FnSpec c va k0 vo r n)).
      { edited_signature Hsig. exact (adjust_parameters_idempotent _ _ HA'). }
      rewrite H2, H1, HA'. cbn [bind].
      eexists. split; [reflexivity|]. split; [reflexivity|].
      split; [apply classified_member; exact Hsig'|].
      unfold IsEmptyArgList_v, with_traits, constrained, TRAITS_FUNCTION_C.
      rewrite IsTraitsFunction_v_member.
      rewrite (FunctionTraits_member_canonical k q C R Args' _ Hsig').
      destruct CPP20_OR_LATER; cbn [static_assert bind];
        unfold IsFunctionTraitsEmptyArgList_v; rewrite Base_member; reflexivity.
    + intros NewArgsT Hv. rewrite H2, H1.
      pose proof (adjust_parameters_void _ Hv) as Hh.
      destruct (adjust_parameters NewArgsT); [discriminate|]. split; reflexivity.
Qed.

Lemma ReplaceNth_overwrite (N : nat) (T1 T2 : ctype) :
  forall Ts i, ReplaceNth N T2 i (ReplaceNth N T1 i Ts) = ReplaceNth N T2 i Ts.
Proof.
  induction Ts as [|t Ts IH]; intros i; cbn [ReplaceNth]; [reflexivity|].
  rewrite IH. unfold conditional_t. destruct (i =? N); reflexivity.
Qed.

Lemma ReplaceNth_commute (N M : nat) (T1 T2 : ctype) :
  N <> M ->
  forall Ts i,
    ReplaceNth M T2 i (ReplaceNth N T1 i Ts) = ReplaceNth N T1 i (ReplaceNth M T2 i Ts).
Proof.
  intros Hne. induction Ts as [|t Ts IH]; intros i; cbn [ReplaceNth]; [reflexivity|].
  rewrite IH. unfold conditional_t.
  destruct (i =? N) eqn:E1; destruct (i =? M) eqn:E2; try reflexivity.
  apply Nat.eqb_eq in E1. apply Nat.eqb_eq in E2. congruence.
Qed.

(** X21.  Two [ReplaceNthArg] compose: at the same index the second
    replacement overwrites the first, and at two different indices the two
    replacements commute. *)
Theorem ReplaceNthArg_composition (F : ctype) (N M : nat) (T1 T2 T1' T2' : ctype) :
  canonical P classes F ->
  IsTraitsFunction_v P classes F = true ->
  adjust_parameter T1 = Ok T1' ->
  adjust_parameter T2 = Ok T2' ->
  exists tr,
    FunctionTraits P classes CPP20_OR_LATER F = Ok tr /\
    (N < FunctionTraitsBase.ArgCount (Traits.Base tr) ->
     M < FunctionTraitsBase.ArgCount (Traits.Base tr) ->
     exists F1 tr1 F2 tr2,
       Traits.ReplaceNthArg tr N T1 = Ok F1 /\
       FunctionTraits P classes CPP20_OR_LATER F1 = Ok tr1 /\
       Traits.ReplaceNthArg tr M T2 = Ok F2 /\
       FunctionTraits P classes CPP20_OR_LATER F2 = Ok tr2 /\
       (N = M -> Traits.ReplaceNthArg tr1 M T2 = Ok F2) /\
       (N <> M ->
        exists F12,
          Traits.ReplaceNthArg tr1 M T2 = Ok F12 /\
          Traits.ReplaceNthArg tr2 N T1 = Ok F12)).
Proof.
  intros Hcan Hacc HT1 HT2.
  pose proof (adjust_parameter_idempotent _ _ HT1) as HT1'.
  pose proof (adjust_parameter_idempotent _ _ HT2) as HT2'.
  normal_form_of F Hcan Hacc.
  - intros HN HM.
    pose proof (canonical_signature_ReplaceNth P false R Args _ N T1' Hsig HT1') as Hsig1.
    pose proof (canonical_signature_ReplaceNth P false R Args _ M T2' Hsig HT2') as Hsig2.
    eexists. eexists. eexists. eexists.
    split; [apply (ReplaceNthArg_free P CPP20_OR_LATER w R Args _ N T1 T1' Hsig HT1 HN)|].
    split; [apply (FunctionTraits_free_canonical w _ _ _ Hsig1)|].
    split; [apply (ReplaceNthArg_free P CPP20_OR_LATER w R Args _ M T2 T2' Hsig HT2 HM)|].
    split; [apply (FunctionTraits_free_canonical w _ _ _ Hsig2)|].
    split.
    + intros ->.
      rewrite (ReplaceNthArg_free P CPP20_OR_LATER w R _ _ M T2 T2' Hsig1 HT2)
        by (rewrite ReplaceNth_length; exact HM).
      rewrite ReplaceNth_overwrite. reflexivity.
    + intros Hne. eexists.
      rewrite (ReplaceNthArg_free P CPP20_OR_LATER w R _ _ M T2 T2' Hsig1 HT2)
        by (rewrite ReplaceNth_length; exact HM).
      rewrite (ReplaceNthArg_free P CPP20_OR_LATER w R _ _ N T1 T1' Hsig2 HT1)
        by (rewrite ReplaceNth_length; exact HN).
      rewrite (ReplaceNth_commute N M T1' T2' Hne). split; reflexivity.
  - intros HN HM.
    pose proof (canonical_signature_ReplaceNth P true R Args _ N T1' Hsig HT1') as Hsig1.
    pose proof (canonical_signature_ReplaceNth P true R Args _ M T2' Hsig HT2') as Hsig2.
    eexists. eexists. eexists. eexists.
    split; [apply (ReplaceNthArg_member P CPP20_OR_LATER k q C R Args _ N T1 T1' Hsig HT1 HN)|].
    split; [apply (FunctionTraits_member_canonical k q C _ _ _ Hsig1)|].
    split; [apply (ReplaceNthArg_member P CPP20_OR_LATER k q C R Args _ M T2 T2' Hsig HT2 HM)|].
    split; [apply (FunctionTraits_member_canonical k q C _ _ _ Hsig2)|].
    split.
    + intros ->.
      rewrite (ReplaceNthArg_member P CPP20_OR_LATER k q C R _ _ M T2 T2' Hsig1 HT2)
        by (rewrite ReplaceNth_length; exact HM).
      rewrite ReplaceNth_overwrite. reflexivity.
    + intros Hne. eexists.
      rewrite (ReplaceNthArg_member P CPP20_OR_LATER k q C R _ _ M T2 T2' Hsig1 HT2)
        by (rewrite ReplaceNth_length; exact HM).
      rewrite (ReplaceNthArg_member P CPP20_OR_LATER k q C R _ _ N T1 T1' Hsig2 HT1)
        by (rewrite ReplaceNth_length; exact HN).
      rewrite (ReplaceNth_commute N M T1' T2' Hne). split; reflexivity.
Qed.

(** ** Selection of a specialization *)

Lemma free_selection_unique (R : ctype) (Args : list ctype) (f : fn_spec) :
  is_abominable (TFunction R Args f) = false ->
  List.length
    (filter (fun s => free_spec_enabled P s && free_spec_matches P s (TFunction R Args f))
       (FreeFunctionTraits_specializations P)) <= 1.
Proof.
  intros Hab.
  unfold FreeFunctionTraits_specializations, MAKE_FREE_FUNC_TRAITS_NON_VARIADIC.
  change "(Args...)"%string with (ARGS_token false).
  change "(Args..., ...)"%string with (ARGS_token true).
  rewrite !filter_app, filter_if, !filter_MAKE_FREE_FUNC_TRAITS_1 by exact Hab.
  unfold STDEXT_CC_VARIADIC, Variadic, STDEXT_CC_CDECL, STDEXT_CC_STDCALL,
    STDEXT_CC_FASTCALL, STDEXT_CC_VECTORCALL, STDEXT_CC_THISCALL, STDEXT_CC_REGCALL,
    specialization_enabled, AlwaysTrue, CallingConventionReplacedWithCdecl,
    IS_REPLACED_WITH_CDECL, STDEXT_CC_CDECL, STDEXT_CC_STDCALL,
    STDEXT_CC_FASTCALL, STDEXT_CC_VECTORCALL, STDEXT_CC_REGCALL.
  cbn [effective_cc].
  destruct (STDEXT_CC_REGCALL_defined P);
    destruct (free_cc_ignored P Stdcall);
    destruct (free_cc_ignored P Fastcall);
    destruct (free_cc_ignored P Vectorcall);
    destruct (free_cc_ignored P Regcall);
    destruct (fn_cc f); destruct (fn_variadic f); cbn; lia.
Qed.

Lemma member_selection_unique (C : string) (R : ctype) (Args : list ctype) (f : fn_spec) :
  List.length
    (filter (fun s => member_spec_enabled P s &&
                      member_spec_matches P s (TMemberPointer no_cv C (TFunction R Args f)))
       (MemberFunctionTraits_specializations P)) <= 1.
Proof.
  unfold MemberFunctionTraits_specializations, MAKE_MEMBER_FUNC_TRAITS_NON_VARIADIC.
  change "(Args...)"%string with (ARGS_token false).
  change "(Args..., ...)"%string with (ARGS_token true).
  rewrite !filter_app, filter_if, !filter_MAKE_MEMBER_FUNC_TRAITS_1.
  unfold STDEXT_CC_VARIADIC, Variadic, STDEXT_CC_CDECL, STDEXT_CC_STDCALL,
    STDEXT_CC_FASTCALL, STDEXT_CC_VECTORCALL, STDEXT_CC_THISCALL, STDEXT_CC_REGCALL,
    specialization_enabled, AlwaysTrue, CallingConventionReplacedWithCdecl,
    IS_REPLACED_WITH_CDECL, STDEXT_CC_CDECL, STDEXT_CC_STDCALL,
    STDEXT_CC_FASTCALL, STDEXT_CC_VECTORCALL, STDEXT_CC_THISCALL, STDEXT_CC_REGCALL.
  cbn [effective_cc].
  destruct (STDEXT_CC_REGCALL_defined P);
    destruct (member_cc_ignored P Stdcall);
    destruct (member_cc_ignored P Fastcall);
    destruct (member_cc_ignored P Vectorcall);
    destruct (member_cc_ignored P Thiscall);
    destruct (member_cc_ignored P Regcall);
    destruct (fn_cc f); destruct (fn_variadic f); cbn; lia.
Qed.

Lemma select_specialization_unique {Spec : Type} (p : Spec -> bool) (specs : list Spec) :
  List.length (filter p specs) <= 1 ->
  forall d, select_specialization p specs = Halt d ->
            d <> ill_formed ambiguous_specialization_msg.
Proof.
  unfold select_specialization.
  destruct (filter p specs) as [|s [|s' l]]; cbn [List.length]; intros H d E;
    [injection E as <-; discriminate | discriminate | lia].
Qed.
Lemma MemberFunctionTraits_not_ambiguous (F : ctype) (C : string) (R : ctype)
    (Args : list ctype) (f : fn_spec) :
  MemberFunctionTraits P CPP20_OR_LATER F (TMemberPointer no_cv C (TFunction R Args f)) <>
  Halt (ill_formed ambiguous_specialization_msg).
Proof.
  unfold MemberFunctionTraits.
  pose proof (select_specialization_unique _ _ (member_selection_unique C R Args f)) as H.
  destruct (select_specialization _ _) as [s|d]; cbn [bind]; [discriminate|].
  intros E. injection E as E. exact (H d eq_refl E).
Qed.

Lemma remove_cv_t_member_pointer (T : ctype) :
  is_member_function_pointer_v (remove_cv_t T) = true ->
  exists C R Args f, remove_cv_t T = TMemberPointer no_cv C (TFunction R Args f).
Proof.
  destruct T; cbn [remove_cv_t is_member_function_pointer_v]; try discriminate.
  destruct T; try discriminate. intros _. repeat eexists.
Qed.

(** X8.  [FunctionTraits] never fails on an ambiguity, on any toolchain
    and for any type: its three partial specializations exclude each other,
    and among the specializations of [FreeFunctionTraits] and of
    [MemberFunctionTraits] that [CallingConventionReplacedWithCdecl] leaves
    enabled, at most one matches a type. *)
Theorem FunctionTraits_never_ambiguous (F : ctype) :
  FunctionTraits P classes CPP20_OR_LATER F <> Halt (ill_formed ambiguous_specialization_msg).
Proof.
  unfold FunctionTraits. cbv zeta.
  destruct (IsFreeFunction_v (RemoveRefAndPtrAndCv F)) eqn:Efree;
    destruct (is_member_function_pointer_v (RemoveRefAndPtrAndCv F)) eqn:Emem;
    destruct (IsFunctor_v P classes F) eqn:Efun.
  all: try (destruct (IsFreeFunction_v_inv _ Efree) as [R [Args [f [HT Hab]]]];
            rewrite HT in Emem; discriminate Emem).
  - (* free and functor *)
    exfalso.
    destruct (IsFreeFunction_v_inv _ Efree) as [R [Args [f [HT Hab]]]].
    unfold IsFunctor_v in Efun.
    destruct (address_of_call_operator P classes (remove_reference_t F)) as [M|] eqn:E;
      [|discriminate].
    destruct (address_of_call_operator_inv P classes _ _ E) as [q [K [R' [A' [f' [HK _]]]]]].
    unfold RemoveRefAndPtrAndCv, RemoveRefAndPtr in HT. rewrite HK in HT. discriminate HT.
  - (* free *)
    destruct (IsFreeFunction_v_inv _ Efree) as [R [Args [f [HT Hab]]]].
    rewrite HT in *. unfold FreeFunctionTraits.
    pose proof (select_specialization_unique _ _ (free_selection_unique R Args f Hab)) as H.
    destruct (select_specialization _ _) as [s|d]; cbn [bind]; [discriminate|].
    intros E. injection E as E. exact (H d eq_refl E).
  - (* member and functor *)
    exfalso.
    unfold IsFunctor_v in Efun.
    destruct (address_of_call_operator P classes (remove_reference_t F)) as [M|] eqn:E;
      [|discriminate].
    destruct (address_of_call_operator_inv P classes _ _ E) as [q [K [R' [A' [f' [HK _]]]]]].
    unfold RemoveRefAndPtrAndCv, RemoveRefAndPtr in Emem. rewrite HK in Emem.
    discriminate Emem.
  - (* member *)
    destruct (remove_cv_t_member_pointer _ Emem) as [C [R [Args [f HT]]]].
    unfold RemoveRefAndPtrAndCv in *. rewrite HT.
    apply MemberFunctionTraits_not_ambiguous.
  - (* functor *)
    unfold IsFunctor_v in Efun.
    destruct (address_of_call_operator P classes (remove_reference_t F)) as [M|] eqn:E;
      [|discriminate].
    destruct (address_of_call_operator_inv P classes _ _ E) as [q [K [R' [A' [f' [HK ->]]]]]].
    unfold RemoveRefAndPtrAndCv, RemoveRefAndPtr. rewrite HK in *.
    cbn [remove_pointer_t remove_cv_t]. unfold FunctorTraits.
    rewrite (address_of_call_operator_cv P classes no_cv q K), E. cbn [bind].
    pose proof (MemberFunctionTraits_not_ambiguous
                  (TMemberPointer no_cv K (TFunction R' A' f')) K R' A' f') as H.
    destruct (MemberFunctionTraits _ _ _ _) as [tr|d]; cbn [bind];
      [discriminate | exact H].
  - discriminate.
Qed.
Lemma IsFreeFunction_v_remove_cv_t (T : ctype) :
  IsFreeFunction_v (remove_cv_t T) = IsFreeFunction_v T.
Proof. destruct T; reflexivity. Qed.

(** X9.  A type that [IsTraitsFunction_v] rejects and that is not a
    pointer to a pointer to member function halts [FunctionTraits] with the
    [static_assert] of its primary template. *)
Theorem FunctionTraits_unsupported (F : ctype) :
  IsTraitsFunction_v P classes F = false ->
  is_member_function_pointer_v (RemoveRefAndPtrAndCv F) = false ->
  FunctionTraits P classes CPP20_OR_LATER F = Halt (static_assert_failed FunctionTraits_msg).
Proof.
  intros Hacc Hmem. unfold IsTraitsFunction_v in Hacc.
  apply orb_false_iff in Hacc. destruct Hacc as [Hacc Hfun].
  apply orb_false_iff in Hacc. destruct Hacc as [Hfree _].
  unfold FunctionTraits. cbv zeta.
  unfold RemoveRefAndPtrAndCv in *.
  rewrite IsFreeFunction_v_remove_cv_t, Hfree, Hmem, Hfun. reflexivity.
Qed.

(** X10.  A pointer to a pointer to member function (possibly
    cv-qualified or behind a reference).  [IsTraitsFunction_v] is [false] for
    it, yet the struct [FunctionTraits] classifies it, as the member function
    pointed to, with [Type] the type passed.  The helper templates, which
    are constrained by [TRAITS_FUNCTION_C], reject it in C++20 and take it in
    C++17. *)
Theorem pointer_to_member_function_pointer (k : reference_kind) (q0 q : cv_qualifiers)
    (C : string) (R : ctype) (Args : list ctype) (f : fn_spec) :
  canonical_signature P true R Args f ->
  let F := with_reference k (TPointer q0 (TMemberPointer q C (TFunction R Args f))) in
  IsTraitsFunction_v P classes F = false /\
  (exists tr,
      FunctionTraits P classes CPP20_OR_LATER F = Ok tr /\
      Traits.Base tr =
        FunctionTraitsBase.Build F R (fn_cc f) (fn_variadic f) (TClass no_cv C)
          (fn_const f) (fn_volatile f) (fn_ref f) (fn_noexcept f) Args) /\
  ArgCount_v P classes true F = Halt (static_assert_failed IsTraitsFunction_msg) /\
  ArgCount_v P classes false F = Ok (List.length Args).
Proof.
  intros Hsig F.
  assert (Hacc : IsTraitsFunction_v P classes F = false)
    by (unfold F; destruct k; reflexivity).
  assert (HF : forall b, FunctionTraits P classes b F =
                         Ok (MemberFunctionTraits_members P b (member_spec_of f) F R C Args)).
  { intros b.
    assert (E : FunctionTraits P classes b F =
                MemberFunctionTraits P b F (TMemberPointer no_cv C (TFunction R Args f)))
      by (unfold F; destruct k; reflexivity).
    rewrite E. apply MemberFunctionTraits_canonical. exact Hsig. }
  split; [exact Hacc|]. split; [|split].
  - eexists. split; [apply HF|]. apply Base_member.
  - unfold ArgCount_v, with_traits, constrained, TRAITS_FUNCTION_C.
    rewrite Hacc. reflexivity.
  - unfold ArgCount_v, with_traits, constrained. cbn [bind].
    rewrite HF. cbn [bind]. rewrite Base_member. reflexivity.
Qed.

Lemma member_function_pointer_shape (F : ctype) :
  is_member_function_pointer_v (remove_reference_t F) = true ->
  exists k q C R Args f, F = with_reference k (TMemberPointer q C (TFunction R Args f)).
Proof.
  intros H.
  destruct F; cbn [remove_reference_t is_member_function_pointer_v] in H;
    try discriminate.
  - destruct F; try discriminate.
    exists no_reference. repeat eexists.
  - destruct F; try discriminate. destruct F; try discriminate.
    exists lvalue_reference. repeat eexists.
  - destruct F; try discriminate. destruct F; try discriminate.
    exists rvalue_reference. repeat eexists.
Qed.

(** X11.  Nothing is lost by classifying [RemoveRefAndPtrAndCv<F>] in place
    of [F]: [MigratePointerAndRef], for a free function behind a reference or
    a pointer, and [MigrateCvAndRef], for a pointer to member function, put
    the reference, the pointer and the cv-qualifiers of [F] back. *)
Theorem normalization_round_trip (F : ctype) :
  (IsFreeFunction_v (RemoveRefAndPtr F) = true ->
   MigratePointerAndRef F (RemoveRefAndPtrAndCv F) = F) /\
  (is_member_function_pointer_v (remove_reference_t F) = true ->
   MigrateCvAndRef F (RemoveRefAndPtrAndCv F) = F).
Proof.
  split.
  - intros H.
    destruct (free_function_shape F H) as [w [R [Args [f [-> Hab]]]]].
    assert (E : RemoveRefAndPtrAndCv (wrap_function w (TFunction R Args f)) =
                TFunction R Args f)
      by (destruct w as [k|q k]; destruct k; reflexivity).
    rewrite E. apply MigratePointerAndRef_wrap; [reflexivity | reflexivity | exact Hab].
  - intros H.
    destruct (member_function_pointer_shape F H) as [k [q [C [R [Args [f ->]]]]]].
    assert (E : RemoveRefAndPtrAndCv
                  (with_reference k (TMemberPointer q C (TFunction R Args f))) =
                TMemberPointer no_cv C (TFunction R Args f))
      by (destruct k; reflexivity).
    rewrite E. apply MigrateCvAndRef_member.
Qed.

Lemma construct_classified (cat : category) (R : ctype) (Args : list ctype) (C : string)
    (f : fn_spec) :
  canonical_signature P (is_member_category cat) R Args f ->
  (forall q k, cat = functor_category q k -> classes C = [NonTemplate R Args f]) ->
  exists tr,
    IsTraitsFunction_v P classes (construct cat R Args C f) = true /\
    FunctionTraits P classes CPP20_OR_LATER (construct cat R Args C f) = Ok tr /\
    FunctionTraitsBase.ArgTypes (Traits.Base tr) = Args.
Proof.
  intros Hsig Hfun.
  destruct cat as [w|q k|q k]; cbn [construct is_member_category] in *.
  - pose proof Hsig as [_ [_ [_ [_ [_ Hfree]]]]].
    destruct (Hfree eq_refl) as [_ Hab].
    eexists. split; [apply IsTraitsFunction_v_free; exact Hab|].
    split; [apply FunctionTraits_free_canonical; exact Hsig|].
    rewrite Base_free. reflexivity.
  - eexists. split; [apply IsTraitsFunction_v_member|].
    split; [apply FunctionTraits_member_canonical; exact Hsig|].
    rewrite Base_member. reflexivity.
  - pose proof (address_of_call_operator_canonical P classes q C R Args f
                  (Hfun q k eq_refl) Hsig) as Haddr.
    eexists. split; [|split].
    + unfold IsTraitsFunction_v, IsFunctor_v.
      assert (E : remove_reference_t (with_reference k (TClass q C)) = TClass q C)
        by (destruct k; reflexivity).
      rewrite E, Haddr. cbn [is_ok]. apply orb_true_r.
    + rewrite (FunctionTraits_functor P classes CPP20_OR_LATER k q C _ Haddr).
      rewrite (MemberFunctionTraits_canonical P CPP20_OR_LATER _ R C Args f Hsig).
      reflexivity.
    + cbn [fmap bind set_IsFunctor Traits.Base]. rewrite Base_member. reflexivity.
Qed.


(** X12.  [ArgCount_v] and [ArgType_t] of a callable built with the
    parameter types [Args]: the count is the length of [Args], [ArgType_t<F,
    I>] is the parameter type at [I] for every index in range, and an index
    at or past the count halts on the [static_assert] of [Args]. *)
Theorem ArgType_t_bounds (cat : category) (R : ctype) (Args : list ctype) (C : string)
    (f : fn_spec) (I : nat) :
  canonical_signature P (is_member_category cat) R Args f ->
  (forall q k, cat = functor_category q k -> classes C = [NonTemplate R Args f]) ->
  ArgCount_v P classes CPP20_OR_LATER (construct cat R Args C f) = Ok (List.length Args) /\
  (forall T, nth_error Args I = Some T ->
             ArgType_t P classes CPP20_OR_LATER (construct cat R Args C f) I = Ok T) /\
  (List.length Args <= I ->
   ArgType_t P classes CPP20_OR_LATER (construct cat R Args C f) I =
   Halt (static_assert_failed FunctionTraitsBase.Args_msg)).
Proof.
  intros Hsig Hfun.
  destruct (construct_classified cat R Args C f Hsig Hfun) as [tr [Hacc [HF HArgs]]].
  unfold ArgCount_v, ArgType_t, with_traits, constrained, TRAITS_FUNCTION_C.
  rewrite Hacc, HF.
  assert (Hc : (if CPP20_OR_LATER then static_assert true IsTraitsFunction_msg else Ok tt)
               = Ok tt) by (destruct CPP20_OR_LATER; reflexivity).
  rewrite Hc. cbn [bind].
  unfold FunctionTraitsBase.Args, FunctionTraitsBase.ArgCount, tuple_element_t.
  rewrite HArgs.
  split; [reflexivity|]. split.
  - intros T HT.
    assert (Hlt : I < List.length Args) by (apply nth_error_Some; congruence).
    apply Nat.ltb_lt in Hlt. rewrite Hlt. cbn [static_assert bind]. rewrite HT. reflexivity.
  - intros Hle. apply Nat.ltb_ge in Hle. rewrite Hle. reflexivity.
Qed.


(** X24.  A function declared with a calling convention, and a pointer to
    a member function declared with one, is classified, and the convention
    reported is the declared one unless
    [CallingConventionReplacedWithCdecl] reports that the compiler replaces
    it, in which case it is [Cdecl]. *)
Theorem declared_calling_convention (CC : CallingConvention) (R : ctype)
    (Args : list ctype) (IS_NOEXCEPT : bool) (C : string) (CONST VOLATILE : bool)
    (REF : RefQualifier.t) :
  is_array_v R || is_function_v R = false ->
  adjust_parameters Args = Ok Args ->
  (CC = Regcall -> STDEXT_CC_REGCALL_defined P = true) ->
  (CC <> Thiscall ->
   exists T tr replaced,
     function_type P R CC Args false IS_NOEXCEPT = Ok T /\
     FunctionTraits P classes CPP20_OR_LATER T = Ok tr /\
     CallingConventionReplacedWithCdecl P CC true = Ok replaced /\
     FunctionTraitsBase.CallingConvention (Traits.Base tr) =
       (if replaced then Cdecl else CC)) /\
  (exists T tr replaced,
      member_function_pointer_type P R CC C Args false CONST VOLATILE REF IS_NOEXCEPT
        = Ok T /\
      FunctionTraits P classes CPP20_OR_LATER T = Ok tr /\
      CallingConventionReplacedWithCdecl P CC false = Ok replaced /\
      FunctionTraitsBase.CallingConvention (Traits.Base tr) =
        (if replaced then Cdecl else CC)).
Proof.
  intros HR0 HA Hdef.
  assert (HR : check_return_type R = Ok R)
    by (unfold check_return_type; rewrite HR0; reflexivity).
  split.
  - intros Hthis.
    assert (Hsig : canonical_signature P false R Args
                     (FnSpec (effective_cc P false CC) false false false
                             RefQualifier.None IS_NOEXCEPT)).
    { unfold canonical_signature.
      cbn [fn_cc fn_variadic fn_const fn_volatile fn_ref fn_noexcept is_abominable].
      destruct CC; cbn [effective_cc];
        try destruct (free_cc_ignored P _) eqn:Eig;
        repeat split; cbn [effective_cc]; rewrite ?Eig;
        try assumption; try reflexivity; try discriminate;
        try (intros; discriminate); try (intros; apply Hdef; reflexivity);
        try congruence. }
    assert (Hrep : exists replaced,
               CallingConventionReplacedWithCdecl P CC true = Ok replaced /\
               effective_cc P false CC = (if replaced then Cdecl else CC)).
    { unfold CallingConventionReplacedWithCdecl, IS_REPLACED_WITH_CDECL,
        STDEXT_CC_STDCALL, STDEXT_CC_FASTCALL, STDEXT_CC_VECTORCALL, STDEXT_CC_REGCALL,
        STDEXT_CC_CDECL.
      destruct CC; try congruence; cbn [effective_cc];
        try rewrite (Hdef eq_refl);
        try destruct (free_cc_ignored P _); eexists; split; reflexivity. }
    destruct Hrep as [replaced [Hrep Heff]].
    eexists. eexists. exists replaced.
    split; [apply function_type_canonical; assumption|].
    split; [apply (FunctionTraits_free_canonical
                     (function_itself no_reference) _ _ _ Hsig)|].
    rewrite Base_free. cbn [FunctionTraitsBase.CallingConvention fn_cc].
    split; assumption.
  - assert (Hsig : canonical_signature P true R Args
                     (FnSpec (effective_cc P true CC) false CONST VOLATILE REF IS_NOEXCEPT)).
    { unfold canonical_signature.
      cbn [fn_cc fn_variadic fn_const fn_volatile fn_ref fn_noexcept].
      destruct CC; cbn [effective_cc];
        try destruct (member_cc_ignored P _) eqn:Eig;
        repeat split; cbn [effective_cc]; rewrite ?Eig;
        try assumption; try reflexivity; try discriminate;
        try (intros; discriminate); try (intros; apply Hdef; reflexivity). }
    assert (Hrep : exists replaced,
               CallingConventionReplacedWithCdecl P CC false = Ok replaced /\
               effective_cc P true CC = (if replaced then Cdecl else CC)).
    { unfold CallingConventionReplacedWithCdecl, IS_REPLACED_WITH_CDECL,
        STDEXT_CC_STDCALL, STDEXT_CC_FASTCALL, STDEXT_CC_VECTORCALL, STDEXT_CC_REGCALL,
        STDEXT_CC_THISCALL, STDEXT_CC_CDECL.
      destruct CC; cbn [effective_cc];
        try rewrite (Hdef eq_refl);
        try destruct (member_cc_ignored P _); eexists; split; reflexivity. }
    destruct Hrep as [replaced [Hrep Heff]].
    eexists. eexists. exists replaced.
    split; [apply member_function_pointer_type_canonical; assumption|].
    split; [apply (FunctionTraits_member_canonical
                     no_reference no_cv C _ _ _ Hsig)|].
    rewrite Base_member. cbn [FunctionTraitsBase.CallingConvention fn_cc].
    split; assumption.
Qed.

End TransformationProofs.

(* ================================================================== *)
(** * The further properties at concrete inputs                         *)
(* ================================================================== *)

(** X1 at the signature strings of Microsoft for [float] and [int], in
    C++17. *)
Lemma TypeName_v_of_signature_witness :
  (16 <= 64)%Z /\
  (forall t, (tstring_view.size (Example.msvc_signature t) < 2 ^ 64)%Z) /\
  signature_format MSC_VER
    "auto __cdecl StdExt::Private::TypeNameImpl::GetPrettyFunction<" ">(void) noexcept" /\
  TypeName_v true MSC_VER false 64 Example.msvc_signature false = Ok "int"%string.
Proof.
  assert (Hbits : (16 <= 64)%Z) by (vm_compute; discriminate).
  assert (Hfits : forall t, (tstring_view.size (Example.msvc_signature t) < 2 ^ 64)%Z)
    by (intros t; destruct t; vm_compute; reflexivity).
  assert (Hfmt : signature_format MSC_VER
                   "auto __cdecl StdExt::Private::TypeNameImpl::GetPrettyFunction<"
                   ">(void) noexcept")
    by (split;
        [ exists "auto __cdecl StdExt::Private::TypeNameImpl::GetPrettyFunction"%string;
          reflexivity
        | reflexivity ]).
  split; [exact Hbits|]. split; [exact Hfits|]. split; [exact Hfmt|].
  exact (TypeName_v_of_signature bool true MSC_VER false 64 Example.msvc_signature
           Hbits Hfits Example.probe_name _ _ Hfmt
           (fun t => match t with true => eq_refl | false => eq_refl end)
           eq_refl false).
Defined.

(** X2 at the signature strings of GCC, second format, for [float] and
    [int]. *)
Lemma TypeName_v_of_GCC_signature_witness :
  (16 <= 64)%Z /\
  (forall t, (tstring_view.size (Example.gcc_signature t) < 2 ^ 64)%Z) /\
  tstring_view.ends_with (Example.gcc_signature true) "= float]" = false /\
  tstring_view.rfind 64 (Example.gcc_signature true) "= float;" = 89%Z /\
  TypeName_v true GCC true 64 Example.gcc_signature false = Ok "int"%string.
Proof.
  assert (Hbits : (16 <= 64)%Z) by (vm_compute; discriminate).
  assert (Hfits : forall t, (tstring_view.size (Example.gcc_signature t) < 2 ^ 64)%Z)
    by (intros t; destruct t; vm_compute; reflexivity).
  assert (Hends : tstring_view.ends_with (Example.gcc_signature true) "= float]" = false)
    by (vm_compute; reflexivity).
  assert (Hrfind : tstring_view.rfind 64 (Example.gcc_signature true) "= float;" = 89%Z)
    by (vm_compute; reflexivity).
  split; [exact Hbits|]. split; [exact Hfits|]. split; [exact Hends|].
  split; [exact Hrfind|].
  exact (TypeName_v_of_GCC_signature bool true GCC true 64 Example.gcc_signature
           Hbits Hfits Example.probe_name
           "static constexpr tstring_view StdExt::Private::TypeNameImpl::GetPrettyFunction() [with T "
           " tstring_view = std::basic_string_view<char>]"
           eq_refl
           (fun t => match t with true => eq_refl | false => eq_refl end)
           eq_refl Hends Hrfind false).
Defined.

(** X3 at a signature string that Clang is not known to produce. *)
Lemma changed_signature_format_halts_witness :
  (16 <= 64)%Z /\
  (forall t, (tstring_view.size (Example.unknown_signature t) < 2 ^ 64)%Z) /\
  tstring_view.ends_with (Example.unknown_signature true) "= float]" = false /\
  exists d, TypeName_v true CLANG_OR_INTEL true 64 Example.unknown_signature false = Halt d.
Proof.
  assert (Hbits : (16 <= 64)%Z) by (vm_compute; discriminate).
  assert (Hfits : forall t, (tstring_view.size (Example.unknown_signature t) < 2 ^ 64)%Z)
    by (intros t; destruct t; vm_compute; reflexivity).
  assert (Hends : tstring_view.ends_with (Example.unknown_signature true) "= float]" = false)
    by (vm_compute; reflexivity).
  split; [exact Hbits|]. split; [exact Hfits|]. split; [exact Hends|].
  exact (proj1 (changed_signature_format_halts bool true CLANG_OR_INTEL true 64
                  Example.unknown_signature Hbits Hfits Hends) false).
Defined.


(** X9 at [int]. *)
Lemma FunctionTraits_unsupported_witness :
  IsTraitsFunction_v Example.x86 Example.classes Example.int = false /\
  is_member_function_pointer_v (RemoveRefAndPtrAndCv Example.int) = false /\
  FunctionTraits Example.x86 Example.classes true Example.int =
    Halt (static_assert_failed FunctionTraits_msg).
Proof.
  split; [reflexivity|]. split; [reflexivity|].
  exact (FunctionTraits_unsupported Example.x86 Example.classes true Example.int
           eq_refl eq_refl).
Defined.

(** X10 at the pointer to the pointer to member [void (int) const noexcept]
    of [K]. *)
Lemma pointer_to_member_function_pointer_witness :
  canonical_signature Example.x86 true void [Example.int] Example.const_noexcept /\
  IsTraitsFunction_v Example.x86 Example.classes Example.pointer_to_member_function = false /\
  ArgCount_v Example.x86 Example.classes false Example.pointer_to_member_function = Ok 1.
Proof.
  assert (Hsig : canonical_signature Example.x86 true void [Example.int]
                   Example.const_noexcept) by canonical_at_input.
  split; [exact Hsig|].
  destruct (pointer_to_member_function_pointer Example.x86 Example.classes true
              no_reference no_cv no_cv "K" void [Example.int] Example.const_noexcept Hsig)
    as [Hacc [_ [_ Hcount]]].
  split; [exact Hacc | exact Hcount].
Defined.

(** X12 at [int (const std::string &, double, int)] and index 1. *)
Lemma ArgType_t_bounds_witness :
  canonical_signature Example.x86 false Example.int
    [Example.const_string_ref; Example.double; Example.int] Example.plain /\
  ArgCount_v Example.x86 Example.classes true Example.free_function = Ok 3 /\
  ArgType_t Example.x86 Example.classes true Example.free_function 1 = Ok Example.double.
Proof.
  assert (Hsig : canonical_signature Example.x86 false Example.int
                   [Example.const_string_ref; Example.double; Example.int] Example.plain)
    by canonical_at_input.
  split; [exact Hsig|].
  assert (Hfun : forall q k,
             free_function_category (function_itself no_reference) = functor_category q k ->
             Example.classes EmptyString =
             [NonTemplate Example.int
                [Example.const_string_ref; Example.double; Example.int] Example.plain])
    by (intros q k E; discriminate E).
  destruct (ArgType_t_bounds Example.x86 Example.classes true
              (free_function_category (function_itself no_reference))
              Example.int [Example.const_string_ref; Example.double; Example.int]
              EmptyString Example.plain 1 Hsig Hfun)
    as [Hcount [Hat _]].
  split; [exact Hcount | exact (Hat Example.double eq_refl)].
Defined.

(** X13 at [int (const std::string &, double, int)]. *)
Lemma noexcept_edits_witness :
  canonical Example.x86 Example.classes Example.free_function /\
  IsTraitsFunction_v Example.x86 Example.classes Example.free_function = true /\
  exists tr F' tr',
    FunctionTraits Example.x86 Example.classes true Example.free_function = Ok tr /\
    Traits.AddNoexcept tr = Ok F' /\
    FunctionTraits Example.x86 Example.classes true F' = Ok tr' /\
    FunctionTraitsBase.IsNoexcept (Traits.Base tr') = true.
Proof.
  assert (Hcan : canonical Example.x86 Example.classes Example.free_function)
    by canonical_at_input.
  split; [exact Hcan|]. split; [reflexivity|].
  destruct (noexcept_edits Example.x86 Example.classes true Example.free_function
              Hcan eq_refl) as [tr [HF [[F' [Hadd [tr' [HF' [Hb' _]]]]] _]]].
  exists tr, F', tr'.
  split; [exact HF|]. split; [exact Hadd|]. split; [exact HF'|].
  rewrite Hb'. reflexivity.
Defined.

(** X14 at the pointer to member [void (int) const noexcept] of [K], a
    [thiscall] function. *)
Lemma variadic_edits_witness :
  canonical Example.x86 Example.classes Example.member_function /\
  IsTraitsFunction_v Example.x86 Example.classes Example.member_function = true /\
  exists tr F1 tr1,
    FunctionTraits Example.x86 Example.classes true Example.member_function = Ok tr /\
    Traits.AddVariadicArgs tr = Ok F1 /\
    FunctionTraits Example.x86 Example.classes true F1 = Ok tr1 /\
    FunctionTraitsBase.IsVariadic (Traits.Base tr1) = true /\
    FunctionTraitsBase.CallingConvention (Traits.Base tr1) = Cdecl.
Proof.
  assert (Hcan : canonical Example.x86 Example.classes Example.member_function)
    by canonical_at_input.
  split; [exact Hcan|]. split; [reflexivity|].
  destruct (variadic_edits Example.x86 Example.classes true Example.member_function
              Hcan eq_refl)
    as [tr [HF [[F1 [tr1 [F2 [Hadd [[tr' [HF' [Hb' _]]] [HF1 _]]]]]] _]]].
  exists tr, F1, tr1.
  split; [exact HF|]. split; [exact Hadd|]. split; [exact HF1|].
  rewrite HF1 in HF'. injection HF' as <-.
  rewrite Hb'. split; reflexivity.
Defined.

(** X15 at the pointer to member [void (int) const noexcept] of [K]. *)
Lemma cv_edits_witness :
  canonical Example.x86 Example.classes Example.member_function /\
  is_member_function_pointer_v (remove_reference_t Example.member_function) ||
    IsFunctor_v Example.x86 Example.classes Example.member_function = true /\
  exists tr F' tr',
    FunctionTraits Example.x86 Example.classes true Example.member_function = Ok tr /\
    Traits.RemoveConst tr = Ok F' /\
    FunctionTraits Example.x86 Example.classes true F' = Ok tr' /\
    FunctionTraitsBase.IsConst (Traits.Base tr') = false.
Proof.
  assert (Hcan : canonical Example.x86 Example.classes Example.member_function)
    by canonical_at_input.
  split; [exact Hcan|]. split; [reflexivity|].
  destruct (cv_edits Example.x86 Example.classes true Example.member_function
              Hcan eq_refl) as [tr [HF [_ [[F' [Hrem [tr' [HF' [Hb' _]]]]] _]]]].
  exists tr, F', tr'.
  split; [exact HF|]. split; [exact Hrem|]. split; [exact HF'|].
  rewrite Hb'. reflexivity.
Defined.

(** X16 at the class [Functor]. *)
Lemma ref_qualifier_edits_witness :
  canonical Example.x86 Example.classes (TClass no_cv "Functor") /\
  is_member_function_pointer_v (remove_reference_t (TClass no_cv "Functor")) ||
    IsFunctor_v Example.x86 Example.classes (TClass no_cv "Functor") = true /\
  exists tr F' tr',
    FunctionTraits Example.x86 Example.classes true (TClass no_cv "Functor") = Ok tr /\
    Traits.AddRValueReference tr = Ok F' /\
    FunctionTraits Example.x86 Example.classes true F' = Ok tr' /\
    FunctionTraitsBase.RefQualifier (Traits.Base tr') = RefQualifier.RValue.
Proof.
  assert (Hcan : canonical Example.x86 Example.classes (TClass no_cv "Functor")).
  { split; [exact I|]. intros M HM. vm_compute in HM. injection HM as <-.
    canonical_at_input. }
  split; [exact Hcan|]. split; [reflexivity|].
  destruct (ref_qualifier_edits Example.x86 Example.classes true (TClass no_cv "Functor")
              Hcan eq_refl) as [tr [HF [_ [[F' [Hadd [tr' [HF' [Hb' _]]]]] _]]]].
  exists tr, F', tr'.
  split; [exact HF|]. split; [exact Hadd|]. split; [exact HF'|].
  rewrite Hb'. reflexivity.
Defined.

(** X17 at [int (const std::string &, double, int)] on the 64-bit target,
    with [Stdcall] requested. *)
Lemma ReplaceCallingConvention_edit_witness :
  canonical Example.x64 Example.classes Example.free_function /\
  IsTraitsFunction_v Example.x64 Example.classes Example.free_function = true /\
  exists tr F' tr',
    FunctionTraits Example.x64 Example.classes true Example.free_function = Ok tr /\
    Traits.ReplaceCallingConvention tr Stdcall = Ok F' /\
    FunctionTraits Example.x64 Example.classes true F' = Ok tr' /\
    FunctionTraitsBase.CallingConvention (Traits.Base tr') = Cdecl.
Proof.
  assert (Hcan : canonical Example.x64 Example.classes Example.free_function)
    by canonical_at_input.
  split; [exact Hcan|]. split; [reflexivity|].
  destruct (ReplaceCallingConvention_edit Example.x64 Example.classes true
              Example.free_function Stdcall Hcan eq_refl) as [tr [HF [Hrep _]]].
  cbv zeta in Hrep.
  evaluate_base HF Hb.
  destruct (Hrep ltac:(intros E; discriminate E)) as [F' [HF' [tr' [Ht' [Hb' _]]]]].
  exists tr, F', tr'.
  split; [exact HF|]. split; [exact HF'|]. split; [exact Ht'|].
  rewrite Hb', Hb. reflexivity.
Defined.


(** X19 at [int (const std::string &, double, int)], with the return type
    [double]. *)
Lemma ReplaceReturnType_edit_witness :
  canonical Example.x86 Example.classes Example.free_function /\
  IsTraitsFunction_v Example.x86 Example.classes Example.free_function = true /\
  exists tr F' tr',
    FunctionTraits Example.x86 Example.classes true Example.free_function = Ok tr /\
    Traits.ReplaceReturnType tr Example.double = Ok F' /\
    FunctionTraits Example.x86 Example.classes true F' = Ok tr' /\
    FunctionTraitsBase.ReturnType (Traits.Base tr') = Example.double.
Proof.
  assert (Hcan : canonical Example.x86 Example.classes Example.free_function)
    by canonical_at_input.
  split; [exact Hcan|]. split; [reflexivity|].
  destruct (ReplaceReturnType_edit Example.x86 Example.classes true Example.free_function
              Example.double Hcan eq_refl) as [tr [HF [Hrep _]]].
  destruct (Hrep eq_refl) as [F' [HF' [tr' [Ht' [Hb' _]]]]].
  exists tr, F', tr'.
  split; [exact HF|]. split; [exact HF'|]. split; [exact Ht'|].
  rewrite Hb'. reflexivity.
Defined.

(** X20 at [int (const std::string &, double, int)], with the parameter
    types [const float] and an array of [int]. *)
Lemma ReplaceArgs_edit_witness :
  canonical Example.x86 Example.classes Example.free_function /\
  IsTraitsFunction_v Example.x86 Example.classes Example.free_function = true /\
  exists tr F' tr',
    FunctionTraits Example.x86 Example.classes true Example.free_function = Ok tr /\
    Traits.ReplaceArgs tr [Example.const_float; TArray Example.int 4] = Ok F' /\
    FunctionTraits Example.x86 Example.classes true F' = Ok tr' /\
    FunctionTraitsBase.ArgTypes (Traits.Base tr') =
      [Example.float; TPointer no_cv Example.int].
Proof.
  assert (Hcan : canonical Example.x86 Example.classes Example.free_function)
    by canonical_at_input.
  split; [exact Hcan|]. split; [reflexivity|].
  destruct (ReplaceArgs_edit Example.x86 Example.classes true Example.free_function
              Hcan eq_refl) as [tr [HF [Hrep _]]].
  destruct (Hrep [Example.const_float; TArray Example.int 4]
              [Example.float; TPointer no_cv Example.int] eq_refl)
    as [F' [HF' [_ [[tr' [Ht' [Hb' _]]] _]]]].
  exists tr, F', tr'.
  split; [exact HF|]. split; [exact HF'|]. split; [exact Ht'|].
  rewrite Hb'. reflexivity.
Defined.

(** X21 at [int (const std::string &, double, int)], parameters 0 and 2
    replaced. *)
Lemma ReplaceNthArg_composition_witness :
  canonical Example.x86 Example.classes Example.free_function /\
  IsTraitsFunction_v Example.x86 Example.classes Example.free_function = true /\
  adjust_parameter Example.const_float = Ok Example.float /\
  adjust_parameter Example.double = Ok Example.double /\
  exists tr F1 tr1 F2 tr2 F12,
    FunctionTraits Example.x86 Example.classes true Example.free_function = Ok tr /\
    Traits.ReplaceNthArg tr 0 Example.const_float = Ok F1 /\
    FunctionTraits Example.x86 Example.classes true F1 = Ok tr1 /\
    Traits.ReplaceNthArg tr 2 Example.double = Ok F2 /\
    FunctionTraits Example.x86 Example.classes true F2 = Ok tr2 /\
    Traits.ReplaceNthArg tr1 2 Example.double = Ok F12 /\
    Traits.ReplaceNthArg tr2 0 Example.const_float = Ok F12.
Proof.
  assert (Hcan : canonical Example.x86 Example.classes Example.free_function)
    by canonical_at_input.
  split; [exact Hcan|]. split; [reflexivity|]. split; [reflexivity|].
  split; [reflexivity|].
  destruct (ReplaceNthArg_composition Example.x86 Example.classes true
              Example.free_function 0 2 Example.const_float Example.double
              Example.float Example.double Hcan eq_refl eq_refl eq_refl)
    as [tr [HF Hrep]].
  evaluate_base HF Hb.
  assert (H0 : 0 < FunctionTraitsBase.ArgCount (Traits.Base tr))
    by (rewrite Hb; vm_compute; lia).
  assert (H2 : 2 < FunctionTraitsBase.ArgCount (Traits.Base tr))
    by (rewrite Hb; vm_compute; lia).
  destruct (Hrep H0 H2) as [F1 [tr1 [F2 [tr2 [E1 [E2 [E3 [E4 [_ Hne]]]]]]]]].
  destruct (Hne ltac:(discriminate)) as [F12 [E5 E6]].
  exists tr, F1, tr1, F2, tr2, F12.
  repeat split; assumption.
Defined.

(** X24 at the function [void __stdcall (int)] and at the pointer to a
    [stdcall] member function [void (int)] of [K], on the 64-bit target,
    where [stdcall] is replaced. *)
Lemma declared_calling_convention_witness :
  is_array_v void || is_function_v void = false /\
  adjust_parameters [Example.int] = Ok [Example.int] /\
  (exists T tr,
      function_type Example.x64 void Stdcall [Example.int] false false = Ok T /\
      FunctionTraits Example.x64 Example.classes true T = Ok tr /\
      CallingConventionReplacedWithCdecl Example.x64 Stdcall true = Ok true /\
      FunctionTraitsBase.CallingConvention (Traits.Base tr) = Cdecl) /\
  (exists T tr,
      member_function_pointer_type Example.x64 void Stdcall "K" [Example.int] false
        false false RefQualifier.None false = Ok T /\
      FunctionTraits Example.x64 Example.classes true T = Ok tr /\
      CallingConventionReplacedWithCdecl Example.x64 Stdcall false = Ok true /\
      FunctionTraitsBase.CallingConvention (Traits.Base tr) = Cdecl).
Proof.
  split; [reflexivity|]. split; [reflexivity|].
  destruct (declared_calling_convention Example.x64 Example.classes true Stdcall void
              [Example.int] false "K" false false RefQualifier.None
              eq_refl eq_refl ltac:(intros E; discriminate E)) as [Hfree Hmember].
  split.
  - destruct (Hfree ltac:(intros E; discriminate E))
      as [T [tr [replaced [HT [Htr [Hrep Hcc]]]]]].
    exists T, tr.
    split; [exact HT|]. split; [exact Htr|].
    vm_compute in Hrep. injection Hrep as <-.
    split; [reflexivity | exact Hcc].
  - destruct Hmember as [T [tr [replaced [HT [Htr [Hrep Hcc]]]]]].
    exists T, tr.
    split; [exact HT|]. split; [exact Htr|].
    vm_compute in Hrep. injection Hrep as <-.
    split; [reflexivity | exact Hcc].
Defined.
